(** * Fiber-photometry routines: a shallow embedding and its properties

    The development follows the package layout of [routine/]:
    - [Py]         exceptions and warnings as Python raises and emits them;
    - [Loader]     [utilities.load_data] and [utilities.cut_df];
    - [Process]    the [NPMProcess] object of [oo_interface];
    - [Corrector]  [processing.fit_exp2] and [utilities.exp2];
    - [Peaks]      [processing.find_pks];
    - [Harmonizer] [utilities.load_ts] and [ts_alignment.align_ts];
    - [Pooler]     [utilities.pool_events];
    - [Products]   [utilities.enumerated_product];
    - [Align]      the [NPMAlign] object of [oo_interface];
    - [Pooling]    the [NPMPooling] object of [oo_interface].

    Tables are lists of rows.  Frame counters are integers ([Z]).
    Timestamps are only compared and subtracted, and are exact rationals
    ([Q]).  Region intensities go through mean, standard deviation and
    division, where NaN is an ordinary value: they are binary64 floats.
    What the code calls in numpy, scipy and pandas is either written out
    ([merge], [merge_asof], [median], [std], ...) or, where a statement
    holds whatever the call returns, a variable of a section ([np.exp],
    [curve_fit], [find_peaks], [pd.to_numeric]).  [print] is left out. *)

From Stdlib Require Import ZArith QArith Qabs Lqa Uint63 Floats Ascii.
From Stdlib Require Import DecimalString DecimalZ DecimalPos.
From stdpp Require Import gmap strings list sorting.

Local Open Scope Z_scope.
Set Warnings "-inexact-float".

(** ** Python exceptions and warnings *)
Module Py.

Inductive exn : Type :=
| ValueError (msg : string)
| KeyError (key : string)
| IndexError (msg : string)
| AssertionError (msg : string)
| TypeError (msg : string)
| AttributeError (msg : string)
| MergeError (msg : string).

Inductive result (A : Type) : Type :=
| Ok (a : A)
| Raise (e : exn).
Arguments Ok {A} a.
Arguments Raise {A} e.

Definition bind {A B} (m : result A) (k : A -> result B) : result B :=
  match m with
  | Ok a => k a
  | Raise e => Raise e
  end.

Definition raises {A} (m : result A) : Prop := exists e, m = Raise e.

(** A computation that may emit warnings before it returns or raises. *)
Definition warned (A : Type) : Type := list string * result A.

Definition wbind {A B} (m : warned A) (k : A -> warned B) : warned B :=
  match m with
  | (w, Ok a) => let '(w', r) := k a in (w ++ w', r)
  | (w, Raise e) => (w, Raise e)
  end.

(** A call that emits no warning. *)
Definition quiet {A} (m : result A) : warned A := ([], m).

(** [collect] runs the computations of a list in order, up to the first
    that raises. *)
Fixpoint collect {A} (l : list (result A)) : result (list A) :=
  match l with
  | [] => Ok []
  | m :: l' =>
      match m with
      | Ok a => match collect l' with Ok r => Ok (a :: r) | Raise e => Raise e end
      | Raise e => Raise e
      end
  end.

(** [str(n)] of a Python integer. *)
Definition str_of_Z (z : Z) : string := NilZero.string_of_int (Z.to_int z).

End Py.
Export Py.

Notation "x <- m ;; k" := (bind m (fun x => k))
  (at level 100, m at next level, right associativity, only parsing).
Notation "x <~ m ;; k" := (wbind m (fun x => k))
  (at level 100, m at next level, right associativity, only parsing).

(** Order on rationals, decided by computation. *)
#[global] Instance Qle_decision (x y : Q) : Decision (x <= y)%Q :=
  decide (Qnum x * QDen y <= Qnum y * QDen x)%Z.

(** ** utilities.load_data *)
Module Loader.

(** One row of the raw recording; [values] are the cells of the remaining
    (region) columns, in column order. *)
Record sample : Type := {
  FrameCounter : Z;
  SystemTimestamp : Q;
  ComputerTimestamp : Q;
  LedState : Z;
  values : list float
}.

(** A row once [data["signal"]] exists; [None] is the NaN that
    [Series.map] leaves for a code that is not a key of the dict. *)
Record row : Type := {
  smp : sample;
  signal : option string
}.

(** A data frame: the labels of the region columns and the rows. *)
Record table (R : Type) : Type := {
  columns : list string;
  body : list R
}.
Arguments columns {R} t.
Arguments body {R} t.

Definition ts_le (r1 r2 : row) : Prop :=
  (SystemTimestamp (smp r1) <= SystemTimestamp (smp r2))%Q.

#[global] Instance ts_le_dec : RelDecision ts_le :=
  fun r1 r2 => Qle_decision _ _.

(** [df.sort_values(sortby).iloc[:nrow]], with [sortby] at its default.
    pandas leaves the order of rows with equal timestamps open; the sort
    here is one such order. *)
Definition cut_df (df : list row) (nrow : nat) : list row :=
  take nrow (merge_sort ts_le df).

Definition str_le (s1 s2 : string) : Prop := String.leb s1 s2 = true.

#[global] Instance str_le_dec : RelDecision str_le :=
  fun s1 s2 => decide (String.leb s1 s2 = true).

(** [groupby("signal")]: the keys are the distinct non-null labels, in
    sorted order; a group holds the rows of its key. *)
Definition group_keys (data : list row) : list string :=
  merge_sort str_le (remove_dups (omap signal data)).

Definition get_group (s : string) (data : list row) : list row :=
  filter (fun r => signal r = Some s) data.

(** [groupby("signal").size()] *)
Definition group_sizes (data : list row) : list nat :=
  (fun s => length (get_group s data)) <$> group_keys data.

(** [Series.min()]; [None] for the NaN of an empty series. *)
Definition size_min (l : list nat) : option nat :=
  match l with
  | [] => None
  | n :: l' => Some (foldr Nat.min n l')
  end.

(** [rename(columns=roi_dict)] on the labels of the region columns. *)
Definition rename (roi_dict : gmap string string) (cols : list string)
    : list string :=
  (fun c => default c (roi_dict !! c)) <$> cols.

(** The rows before trimming: those past the discarded frames, tagged with
    their signal label. *)
Definition tagged (data_file : list sample) (discard_nfm : Z)
    (led_dict : gmap Z string) : list row :=
  (fun r => {| smp := r; signal := led_dict !! LedState r |})
    <$> filter (fun r => discard_nfm < FrameCounter r) data_file.

(** [load_data], on a table already read.  With no group at all the
    minimum is NaN and [apply] has nothing to call [cut_df] on: the table
    is empty.  The groups are concatenated in key order; no statement
    below depends on row order. *)
Definition load_data (data_file : table sample) (discard_nfm : Z)
    (led_dict : gmap Z string) (roi_dict : gmap string string) : table row :=
  let data := tagged (body data_file) discard_nfm led_dict in
  {| columns := rename roi_dict (columns data_file);
     body :=
       match size_min (group_sizes data) with
       | None => []
       | Some nfm =>
           mjoin ((fun s => cut_df (get_group s data) nfm) <$> group_keys data)
       end |}.

End Loader.

(** ** oo_interface.NPMProcess *)
Module Process.
Import Loader.

(** [self.data] holds the raw recording until [load_data] replaces it with
    the labelled table. *)
Inductive frame : Type :=
| RawFrame (t : table sample)
| SignalFrame (t : table row).

(** What [utilities.load_data] reads of [self.data]: a labelled table is
    read through its raw columns, and its [signal] column is overwritten. *)
Definition as_raw (f : frame) : table sample :=
  match f with
  | RawFrame t => t
  | SignalFrame t => {| columns := columns t; body := smp <$> body t |}
  end.

Record NPMProcess : Type := {
  data : option frame;
  fig_path : string;
  out_path : string;
  param_nfm_discard : option Z;
  param_pk_prominence : option float;
  param_led_dict : gmap Z string;
  param_roi_dict : option (gmap string string);
  param_base_sig : option (gmap (string * string) (string * string));
  (** files written so far, latest first *)
  written : list string
}.

Definition default_led_dict : gmap Z string :=
  <[7 := "initial"]> (<[1 := "415nm"]> (<[2 := "470nm"]> (<[4 := "560nm"]> ∅))).

(** [NPMProcess.__init__] *)
Definition init (fig out : string) : NPMProcess :=
  {| data := None; fig_path := fig; out_path := out;
     param_nfm_discard := None; param_pk_prominence := None;
     param_led_dict := default_led_dict;
     param_roi_dict := None; param_base_sig := None; written := [] |}.

Definition with_data (s : NPMProcess) (d : option frame) : NPMProcess :=
  {| data := d; fig_path := fig_path s; out_path := out_path s;
     param_nfm_discard := param_nfm_discard s;
     param_pk_prominence := param_pk_prominence s;
     param_led_dict := param_led_dict s;
     param_roi_dict := param_roi_dict s;
     param_base_sig := param_base_sig s; written := written s |}.

Definition with_nfm (s : NPMProcess) (n : option Z) : NPMProcess :=
  {| data := data s; fig_path := fig_path s; out_path := out_path s;
     param_nfm_discard := n;
     param_pk_prominence := param_pk_prominence s;
     param_led_dict := param_led_dict s;
     param_roi_dict := param_roi_dict s;
     param_base_sig := param_base_sig s; written := written s |}.

Definition with_roi (s : NPMProcess) (r : option (gmap string string))
    : NPMProcess :=
  {| data := data s; fig_path := fig_path s; out_path := out_path s;
     param_nfm_discard := param_nfm_discard s;
     param_pk_prominence := param_pk_prominence s;
     param_led_dict := param_led_dict s;
     param_roi_dict := r;
     param_base_sig := param_base_sig s; written := written s |}.

Definition with_base (s : NPMProcess)
    (b : option (gmap (string * string) (string * string))) : NPMProcess :=
  {| data := data s; fig_path := fig_path s; out_path := out_path s;
     param_nfm_discard := param_nfm_discard s;
     param_pk_prominence := param_pk_prominence s;
     param_led_dict := param_led_dict s;
     param_roi_dict := param_roi_dict s;
     param_base_sig := b; written := written s |}.

Definition with_prominence (s : NPMProcess) (p : option float) : NPMProcess :=
  {| data := data s; fig_path := fig_path s; out_path := out_path s;
     param_nfm_discard := param_nfm_discard s;
     param_pk_prominence := p;
     param_led_dict := param_led_dict s;
     param_roi_dict := param_roi_dict s;
     param_base_sig := param_base_sig s; written := written s |}.

Definition with_paths (s : NPMProcess) (fig out : string) : NPMProcess :=
  {| data := data s; fig_path := fig; out_path := out;
     param_nfm_discard := param_nfm_discard s;
     param_pk_prominence := param_pk_prominence s;
     param_led_dict := param_led_dict s;
     param_roi_dict := param_roi_dict s;
     param_base_sig := param_base_sig s; written := written s |}.

Definition with_written (s : NPMProcess) (w : list string) : NPMProcess :=
  {| data := data s; fig_path := fig_path s; out_path := out_path s;
     param_nfm_discard := param_nfm_discard s;
     param_pk_prominence := param_pk_prominence s;
     param_led_dict := param_led_dict s;
     param_roi_dict := param_roi_dict s;
     param_base_sig := param_base_sig s; written := w |}.

(** [v.replace("-", "_")] *)
Fixpoint replace_dash (v : string) : string :=
  match v with
  | EmptyString => EmptyString
  | String c v' =>
      String (if Ascii.eqb c "-"%char then "_"%char else c) (replace_dash v')
  end.

(** A method call or widget callback of the calls that lead up to
    loading, with its arguments.  A [None] argument is the call that only
    shows a widget; [set_data] stands for the call with a path and for the
    callbacks of the file choosers, all of which store the table read. *)
Inductive call : Type :=
| set_data (t : table sample)
| set_paths (fig_path out_path : option string)
| set_nfm_discard (nfm : option Z)
| on_nfm (v : Z)
| set_pk_prominence (prom : option float)
| on_pk_prominence (v : float)
| set_roi (roi_dict : option (gmap string string))
| on_roi (rois : list string)
| set_roi_names (roi_dict : option (gmap string string))
| on_roi_name (k v : string)
| set_baseline (base_sig : option (gmap (string * string) (string * string)))
| on_baseline (k : string * string) (v : option (string * string))
| load_data_call.

(** [os.path.join(path, name)] for a path without a trailing separator. *)
Definition path_join (path name : string) : string := path +:+ "/" +:+ name.

(** [plotting.plot_signals]: selecting the columns
    [["SystemTimestamp", "signal"] + rois] raises [KeyError] for a label
    that is no column; the figure itself is not modelled. *)
Definition plot_signals (t : table row) (rois : list string) : result unit :=
  match filter (fun c => c ∉ columns t) rois with
  | [] => Ok tt
  | c :: _ => Raise (KeyError c)
  end.

(** [NPMProcess.load_data]: the object after the call, and how the call
    ended. *)
Definition load_data (s : NPMProcess) : NPMProcess * result unit :=
  match data s with
  | None => (s, Raise (AssertionError "Please set data first!"))
  | Some d =>
  match param_roi_dict s with
  | None => (s, Raise (AssertionError "Please set ROIs first!"))
  | Some roi_dict =>
  match param_nfm_discard s with
  | None => (s, Raise (AssertionError "Please set frames to discard first!"))
  | Some nfm =>
      let t := Loader.load_data (as_raw d) nfm (param_led_dict s) roi_dict in
      let s := with_data s (Some (SignalFrame t)) in
      match plot_signals t (map_to_list roi_dict).*2 with
      | Raise e => (s, Raise e)
      | Ok _ =>
          (with_written s (path_join (fig_path s) "raw_signals.html" :: written s),
           Ok tt)
      end
  end end end.

(** One call on the object. *)
Definition step (s : NPMProcess) (c : call) : NPMProcess * result unit :=
  match c with
  | set_data t => (with_data s (Some (RawFrame t)), Ok tt)
  | set_paths fig out =>
      (with_paths s (default (fig_path s) fig) (default (out_path s) out), Ok tt)
  | set_nfm_discard nfm =>
      match data s with
      | None => (s, Raise (AssertionError "Please set data first!"))
      | Some _ =>
          match nfm with
          | None => (with_nfm s (Some 0), Ok tt)
          | Some n => (with_nfm s (Some n), Ok tt)
          end
      end
  | on_nfm v => (with_nfm s (Some v), Ok tt)
  | set_pk_prominence prom =>
      match prom with
      | None => (with_prominence s (Some 0.1%float), Ok tt)
      | Some p => (with_prominence s (Some p), Ok tt)
      end
  | on_pk_prominence v => (with_prominence s (Some v), Ok tt)
  | set_roi roi_dict =>
      match data s with
      | None => (s, Raise (AssertionError "Please set data first!"))
      | Some _ =>
          match roi_dict with
          | None => (s, Ok tt)
          | Some r => (with_roi s (Some r), Ok tt)
          end
      end
  | on_roi rois =>
      (with_roi s (Some (list_to_map ((fun r => (r, r)) <$> rois))), Ok tt)
  | set_roi_names roi_dict =>
      match param_roi_dict s with
      | None => (s, Raise (AssertionError "Please set roi first!"))
      | Some _ =>
          match roi_dict with
          | None => (s, Ok tt)
          | Some r => (with_roi s (Some (replace_dash <$> r)), Ok tt)
          end
      end
  | on_roi_name k v =>
      match param_roi_dict s with
      | None => (s, Raise (TypeError "NoneType object does not support item assignment"))
      | Some r => (with_roi s (Some (<[k := replace_dash v]> r)), Ok tt)
      end
  | set_baseline base_sig =>
      match data s with
      | None => (s, Raise (AssertionError "Please set data first!"))
      | Some _ =>
          match base_sig with
          | None =>
              (* one dropdown per (region, channel) pair; each resets the map *)
              match param_roi_dict s with
              | None => (s, Raise (AttributeError "NoneType has no attribute values"))
              | Some r =>
                  match (map_to_list r).*2,
                        filter (fun sig => sig <> "initial")
                               (map_to_list (param_led_dict s)).*2 with
                  | _ :: _, _ :: _ => (with_base s (Some ∅), Ok tt)
                  | _, _ => (s, Ok tt)
                  end
              end
          | Some b => (with_base s (Some b), Ok tt)
          end
      end
  | on_baseline k v =>
      match param_base_sig s with
      | None => (s, Raise (AttributeError "NoneType has no attribute update"))
      | Some b =>
          (with_base s (Some match v with
                             | Some v => <[k := v]> b
                             | None => delete k b
                             end), Ok tt)
      end
  | load_data_call => load_data s
  end.

(** A session: calls made one after the other on the object, an exception
    ending none but its own call (as in a notebook). *)
Definition run (s : NPMProcess) (calls : list call) : NPMProcess :=
  foldl (fun s c => (step s c).1) s calls.

(** Whether a call hands the object a region-rename mapping, and whether it
    hands it a light-source mapping.  No method or callback of the class
    assigns [param_led_dict]; only the constructor does. *)
Definition supplies_roi (c : call) : bool :=
  match c with
  | set_roi (Some _) | on_roi _ | set_roi_names (Some _) | on_roi_name _ _ => true
  | _ => false
  end.

Definition supplies_led (c : call) : bool :=
  match c with
  | set_data _ | set_paths _ _ | set_nfm_discard _ | on_nfm _
  | set_pk_prominence _ | on_pk_prominence _ | set_roi _ | on_roi _
  | set_roi_names _ | on_roi_name _ _ | set_baseline _ | on_baseline _ _
  | load_data_call => false
  end.

(** *** Sample inputs *)

(** Two frames of the 415nm channel and two of the 470nm channel, with one
    region column. *)
Definition four_samples : table sample :=
  {| columns := ["G0"];
     body :=
       [ {| FrameCounter := 1; SystemTimestamp := 1 # 10; ComputerTimestamp := 0;
            LedState := 1; values := [1%float] |};
         {| FrameCounter := 2; SystemTimestamp := 2 # 10; ComputerTimestamp := 0;
            LedState := 2; values := [2%float] |};
         {| FrameCounter := 3; SystemTimestamp := 3 # 10; ComputerTimestamp := 0;
            LedState := 1; values := [3%float] |};
         {| FrameCounter := 4; SystemTimestamp := 4 # 10; ComputerTimestamp := 0;
            LedState := 2; values := [4%float] |} ] |}.

(** A session that sets the data, the regions and the discard count, and
    never a light-source mapping. *)
Definition plain_session : list call :=
  [ set_data four_samples;
    set_roi (Some {["G0" := "Green0"]});
    set_nfm_discard (Some 0) ].


(** *** Vocabulary of the statements *)

(** The labels of a recording that are no region columns. *)
Definition fixed_labels : list string :=
  ["FrameCounter"; "SystemTimestamp"; "ComputerTimestamp"; "LedState"; "signal"].

(** The characters of a name. *)
Definition chars (v : string) : list ascii := String.list_ascii_of_string v.

End Process.

(** ** processing.fit_exp2 *)
Module Corrector.

(** The five parameters [(a, b, c, d, e)] of the biexponential. *)
Definition params : Type := float * float * float * float * float.

Definition fle (x y : float) : Prop := PrimFloat.leb x y = true.

#[global] Instance fle_dec : RelDecision fle :=
  fun x y => decide (PrimFloat.leb x y = true).

(** [Series.median()]: NaN cells are skipped; the median of nothing is NaN;
    an even count averages the two middle values. *)
Definition median (s : list float) : float :=
  let v := merge_sort fle (filter (fun x => PrimFloat.is_nan x = false) s) in
  let n := length v in
  match n with
  | O => PrimFloat.nan
  | _ =>
      if Nat.odd n then nth (n / 2)%nat v PrimFloat.nan
      else ((nth (n / 2 - 1)%nat v PrimFloat.nan
             + nth (n / 2)%nat v PrimFloat.nan) / 2)%float
  end.

Section Fit.
(** [np.exp] and [scipy.optimize.curve_fit] are library code: the first a
    function on floats, the second an optimiser that returns the fitted
    parameters or raises. *)
Variable exp : float -> float.
Variable curve_fit :
  (list float -> params -> list float) ->
  list float -> list float -> params -> result params.

(** [utilities.exp2], on the array [x]. *)
Definition exp2 (x : list float) (p : params) : list float :=
  let '(a, b, c, d, e) := p in
  (fun xi => a * exp (b * xi) + c * exp (d * xi) + e)%float <$> x.

(** The initial guess [p0] of [fit_exp2]. *)
Definition initial_guess (a : list float) : params :=
  let dmax := median (take 50 a) in
  let dmin := median (drop (length a - 50) a) in
  let drg := (dmax - dmin)%float in
  (drg, (-10)%float, drg, 0.1%float, (dmin - drg)%float).

(** [fit_exp2]: the bare [except] catches whatever [curve_fit] raises. *)
Definition fit_exp2 (a x : list float) : warned (list float) :=
  let p0 := initial_guess a in
  let '(w, popt) :=
    match curve_fit exp2 x a p0 with
    | Ok popt => ([], popt)
    | Raise _ => (["Biexponential fit failed"], p0)
    end in
  (w, Ok (exp2 x popt)).
End Fit.

(** *** Sample inputs *)

(** An optimiser that gives up at once, as [curve_fit] does on an infeasible
    first guess. *)
Definition failing_fit (f : list float -> params -> list float)
    (x a : list float) (p0 : params) : result params :=
  Raise (ValueError "x0 is infeasible").

(** A stand-in for [np.exp] where its values do not matter. *)
Definition flat_exp (x : float) : float := 1%float.

End Corrector.

(** ** processing.find_pks *)
Module Peaks.

(** A cell of a value column: a float (NaN included) or a boolean. *)
Inductive cell : Type :=
| Num (x : float)
| Flag (b : bool).

Definition NaN : cell := Num PrimFloat.nan.

(** A row: its [signal] label and its cells by column label; a label of
    the table that the row does not bind reads as NaN. *)
Record row : Type := {
  signal : option string;
  cells : gmap string cell
}.

(** A data frame, or a slice of one: the column labels, and the rows with
    the index label each one carries. *)
Record table : Type := {
  columns : list string;
  rows : list (nat * row)
}.

(** A frame with the default [RangeIndex]. *)
Definition frame (cols : list string) (rs : list row) : table :=
  {| columns := cols; rows := imap (fun i r => (i, r)) rs |}.

(** [df[c]]: [KeyError] for a label that is no column. *)
Definition column (c : string) (t : table) : result (list cell) :=
  if decide (c ∈ columns t)
  then Ok ((fun ir => default NaN (cells ir.2 !! c)) <$> rows t)
  else Raise (KeyError c).

Definition as_float (c : cell) : float :=
  match c with
  | Num x => x
  | Flag true => 1%float
  | Flag false => 0%float
  end.

(** [df.loc[index, c] = vals]: the rows carrying the i-th label of [index]
    get the i-th value; a new label is appended to the columns, and reads
    NaN in every other row. *)
Definition loc_set (t : table) (index : list nat) (c : string)
    (vals : list cell) : table :=
  {| columns := if decide (c ∈ columns t) then columns t else columns t ++ [c];
     rows :=
       (fun ir =>
          match list_find (fun iv => iv.1 = ir.1) (zip index vals) with
          | Some (_, (_, v)) =>
              (ir.1, {| signal := signal ir.2; cells := <[c := v]> (cells ir.2) |})
          | None => ir
          end) <$> rows t |}.

(** [groupby("signal")]: the sorted distinct labels, each with the slice of
    its rows. *)
Definition group_keys (t : table) : list string :=
  merge_sort Loader.str_le (remove_dups (omap (fun ir => signal ir.2) (rows t))).

Definition get_group (s : string) (t : table) : table :=
  {| columns := columns t;
     rows := filter (fun ir => signal ir.2 = Some s) (rows t) |}.

Definition groupby (t : table) : list (string * table) :=
  (fun s => (s, get_group s t)) <$> group_keys t.

(** [np.zeros_like(dat, dtype=bool)] with [pvec[pks] = 1]. *)
Definition peak_vector (n : nat) (pks : list nat) : list bool :=
  (fun i => bool_decide (i ∈ pks)) <$> seq 0 n.

(** Sum of floats, left to right. *)
Definition fsum (l : list float) : float := foldl PrimFloat.add 0%float l.

(** [Series.rolling(w).sum()]: the sum of the [w] cells ending at each
    position, NaN where fewer than [w] cells are available. *)
Definition rolling_sum (w : nat) (l : list cell) : list cell :=
  (fun i =>
     if decide (w ≤ S i)%nat
     then Num (fsum (as_float <$> take w (drop (S i - w) l)))
     else NaN) <$> seq 0 (length l).

Section Find.
(** [scipy.signal.find_peaks(dat, prominence=p)[0]]: the positions of the
    peaks. *)
Variable find_peaks : list float -> float -> list nat.

(** The loop over [rois] for one selected group.  [data] is the frame
    being returned; [dat_sig] is the slice the iteration was given. *)
Fixpoint roi_loop (rois : list string) (prominence : float)
    (freq_wd : option nat) (data dat_sig : table) : result table :=
  match rois with
  | [] => Ok data
  | roi :: rois' =>
      dat <- column roi dat_sig ;;
      let pks := find_peaks (as_float <$> dat) prominence in
      let pvec := peak_vector (length dat) pks in
      let data := loc_set data (rows dat_sig).*1 (roi +:+ "-pks") (Flag <$> pvec) in
      match freq_wd with
      | None => roi_loop rois' prominence freq_wd data dat_sig
      | Some w =>
          pk <- column (roi +:+ "-pks") dat_sig ;;
          let dat_sig :=
            loc_set dat_sig (rows dat_sig).*1 (roi +:+ "-freq") (rolling_sum w pk) in
          roi_loop rois' prominence freq_wd data dat_sig
      end
  end.

(** The loop over the groups; the slices were cut before the first
    iteration, from the frame as it was passed in. *)
Fixpoint sig_loop (groups : list (string * table)) (rois : list string)
    (prominence : float) (freq_wd : option nat) (sigs : option (list string))
    (data : table) : result table :=
  match groups with
  | [] => Ok data
  | (sig, dat_sig) :: groups' =>
      data <-
        match sigs with
        | Some l =>
            if decide (sig ∈ l)
            then roi_loop rois prominence freq_wd data dat_sig
            else Ok data
        | None => Ok data
        end ;;
      sig_loop groups' rois prominence freq_wd sigs data
  end.

Definition find_pks (data : table) (rois : list string) (prominence : float)
    (freq_wd : option nat) (sigs : option (list string)) : result table :=
  sig_loop (groupby data) rois prominence freq_wd sigs data.
End Find.

(** *** A sample input *)

(** A recording of three frames of the [470nm-norm-zs] channel with one
    region, as [photobleach_correction] hands it over. *)
Definition three_frames : table :=
  frame ["G"]
    [ {| signal := Some "470nm-norm-zs"; cells := {["G" := Num 0%float]} |};
      {| signal := Some "470nm-norm-zs"; cells := {["G" := Num 1%float]} |};
      {| signal := Some "470nm-norm-zs"; cells := {["G" := Num 0%float]} |} ].


(** *** Vocabulary of the statements, and further sample inputs *)

(** The cells of column [c] of a frame or slice, row by row. *)
Definition values (c : string) (t : table) : list cell :=
  (fun ir => default NaN (cells ir.2 !! c)) <$> rows t.

(** What [loc_set] makes of one row. *)
Definition loc_row (index : list nat) (c : string) (vals : list cell)
    (ir : nat * row) : nat * row :=
  match list_find (fun iv => iv.1 = ir.1) (zip index vals) with
  | Some (_, (_, v)) =>
      (ir.1, {| signal := signal ir.2; cells := <[c := v]> (cells ir.2) |})
  | None => ir
  end.

Section Mark.
Variable find_peaks : list float -> float -> list nat.
Variable prominence : float.

(** The peak flags of column [roi] of a slice. *)
Definition flags (dat_sig : table) (roi : string) : list cell :=
  Flag <$> peak_vector (length (rows dat_sig))
             (find_peaks (as_float <$> values roi dat_sig) prominence).

(** What the loop over the regions makes of one row of the frame, for the
    slice [g]; and what the loop over the groups makes of it. *)
Definition mark_row (g : table) (rois : list string) (ir : nat * row)
    : nat * row :=
  foldl (fun ir roi => loc_row (rows g).*1 (roi +:+ "-pks") (flags g roi) ir)
        ir rois.

Definition mark_rows (groups : list (string * table)) (sigs rois : list string)
    (ir : nat * row) : nat * row :=
  foldl (fun ir sg => if decide (sg.1 ∈ sigs) then mark_row sg.2 rois ir else ir)
        ir groups.
End Mark.

(** A row is addressed by the index labels of its own group only. *)
Definition own_group (data : table) (ir : nat * row) : Prop :=
  forall s, signal ir.2 <> Some s -> ir.1 ∉ (rows (get_group s data)).*1.

(** A detector that reports the second sample. *)
Definition second_sample (dat : list float) (prominence : float) : list nat :=
  [1%nat].

(** Three frames of the 415nm channel interleaved with three of the 470nm
    channel, with one region. *)
Definition two_channels : table :=
  frame ["G"]
    [ {| signal := Some "415nm"; cells := {["G" := Num 1%float]} |};
      {| signal := Some "470nm"; cells := {["G" := Num 0%float]} |};
      {| signal := Some "415nm"; cells := {["G" := Num 2%float]} |};
      {| signal := Some "470nm"; cells := {["G" := Num 3%float]} |};
      {| signal := Some "415nm"; cells := {["G" := Num 1%float]} |};
      {| signal := Some "470nm"; cells := {["G" := Num 0%float]} |} ].

End Peaks.

(** ** utilities.pool_events *)
Module Pooler.

(** A row of the aligned master table: its frame counter, its event label
    ([None] for a null cell; a label is taken as [astype(str)] leaves it)
    and its float cells by column label. *)
Record row : Type := {
  fm_fp : Z;
  event : option string;
  vals : gmap string float
}.

(** The master table; [columns] are its labels other than [fm_fp]. *)
Record table : Type := {
  columns : list string;
  rows : list row
}.

(** A row of an event window. *)
Record evt_row : Type := {
  w_fm_fp : Z;
  fm_evt : Z;
  w_event : string;
  evt_id : string;
  w_vals : gmap string float
}.

Definition notna (x : float) : Prop := PrimFloat.is_nan x = false.

#[global] Instance notna_dec (x : float) : Decision (notna x) :=
  decide (PrimFloat.is_nan x = false).

Definition float_of_nat (n : nat) : float :=
  PrimFloat.of_uint63 (Uint63.of_Z (Z.of_nat n)).

Definition fsum (l : list float) : float := foldl PrimFloat.add 0%float l.

(** [Series.mean()]: NaN cells are skipped; the mean of nothing is NaN. *)
Definition mean (s : list float) : float :=
  let v := filter notna s in
  match v with
  | [] => PrimFloat.nan
  | _ => (fsum v / float_of_nat (length v))%float
  end.

(** [Series.std()], with its default [ddof=1]: NaN cells are skipped, and
    with at most one cell left the result is NaN. *)
Definition std (s : list float) : float :=
  let v := filter notna s in
  let n := length v in
  if decide (n ≤ 1)%nat then PrimFloat.nan
  else
    let avg := (fsum v / float_of_nat n)%float in
    PrimFloat.sqrt
      (fsum ((fun x => (avg - x) * (avg - x))%float <$> v)
       / float_of_nat (n - 1))%float.

(** [np.clip(v, lo, hi)] *)
Definition clip (lo hi v : Z) : Z := Z.min (Z.max v lo) hi.

(** [data["fm_fp"].max()]; [None] for the NaN of an empty column. *)
Definition max_fm (rs : list row) : option Z :=
  match rs with
  | [] => None
  | r :: rs' => Some (foldr (fun r m => Z.max (fm_fp r) m) (fm_fp r) rs')
  end.

(** [fm_range]: the two bounds, each clipped on its own. *)
Definition fm_range (evt_range : Z * Z) (fm max_fm : Z) : Z * Z :=
  (clip 0 max_fm (evt_range.1 + fm), clip 0 max_fm (evt_range.2 + fm)).

(** The cell of column [roi] in a window row. *)
Definition cell (roi : string) (r : evt_row) : float :=
  default PrimFloat.nan (w_vals r !! roi).

Definition set_cell (roi : string) (x : float) (r : evt_row) : evt_row :=
  {| w_fm_fp := w_fm_fp r; fm_evt := fm_evt r; w_event := w_event r;
     evt_id := evt_id r; w_vals := <[roi := x]> (w_vals r) |}.

(** The slice [dat_sub] cut for the event row [ev] (lines 80 to 85). *)
Definition window (rs : list row) (evt_range : Z * Z) (max_fm : Z)
    (ev : row) (label : string) : list evt_row :=
  let fm := fm_fp ev in
  let rg := fm_range evt_range fm max_fm in
  (fun r =>
     {| w_fm_fp := fm_fp r; fm_evt := fm_fp r - fm; w_event := label;
        evt_id := label +:+ "-" +:+ str_of_Z fm; w_vals := vals r |})
    <$> filter (fun r => rg.1 <= fm_fp r <= rg.2) rs.

(** The cells of [roi] before the event: [dat_sub.loc[fm_evt < 0, roi]]. *)
Definition pre_event (roi : string) (dat_sub : list evt_row) : list float :=
  cell roi <$> filter (fun r => fm_evt r < 0) dat_sub.

(** One pass of the loop over [rois] (lines 88 to 93). *)
Definition normalize (cols : list string) (roi : string)
    (dat_sub : list evt_row) : result (list evt_row) :=
  if decide (roi ∈ cols) then
    let mean := mean (pre_event roi dat_sub) in
    let std := std (pre_event roi dat_sub) in
    if PrimFloat.ltb 0%float std
    then Ok ((fun r => set_cell roi ((cell roi r - mean) / std)%float r) <$> dat_sub)
    else Ok (set_cell roi 0%float <$> dat_sub)
  else Raise (KeyError roi).

Fixpoint normalize_all (cols : list string) (rois : list string)
    (dat_sub : list evt_row) : result (list evt_row) :=
  match rois with
  | [] => Ok dat_sub
  | roi :: rois' =>
      dat_sub <- normalize cols roi dat_sub ;;
      normalize_all cols rois' dat_sub
  end.

(** The body of the loop over the event rows. *)
Definition pool_one (data : table) (evt_range : Z * Z) (rois : list string)
    (norm : bool) (max_fm : Z) (ev : row) : result (list evt_row) :=
  let dat_sub := window (rows data) evt_range max_fm ev (default "" (event ev)) in
  if norm then normalize_all (columns data) rois dat_sub else Ok dat_sub.

Fixpoint pool_loop (data : table) (evt_range : Z * Z) (rois : list string)
    (norm : bool) (max_fm : Z) (evs : list row) : result (list (list evt_row)) :=
  match evs with
  | [] => Ok []
  | ev :: evs' =>
      dat_sub <- pool_one data evt_range rois norm max_fm ev ;;
      rest <- pool_loop data evt_range rois norm max_fm evs' ;;
      Ok (dat_sub :: rest)
  end.

(** The rows that carry an event, in table order. *)
Definition event_rows (data : table) : list row :=
  filter (fun r => is_Some (event r)) (rows data).

(** [pool_events]: one list of window rows per event, then [pd.concat],
    which refuses an empty list. *)
Definition pool_events (data : table) (evt_range : Z * Z) (rois : list string)
    (norm : bool) : result (list evt_row) :=
  if decide ("event" ∈ columns data) then
    match max_fm (rows data), event_rows data with
    | Some m, _ :: _ =>
        evt_df <- pool_loop data evt_range rois norm m (event_rows data) ;;
        Ok (mjoin evt_df)
    | _, _ => Raise (ValueError "No objects to concatenate")
    end
  else Raise (AssertionError "Please align event timestamps first!").

(** *** Vocabulary of the statements, and sample inputs *)

(** The frame counter and the offset of each row of a window. *)
Definition frames (win : list evt_row) : list (Z * Z) :=
  (fun w => (w_fm_fp w, fm_evt w)) <$> win.

(** The master rows whose frame counter lies between the clipped bounds of
    the event at frame [fm], each with its offset from [fm]. *)
Definition clipped_slice (rs : list row) (pre post max_fm fm : Z)
    : list (Z * Z) :=
  (fun r => (fm_fp r, fm_fp r - fm))
    <$> filter (fun r => clip 0 max_fm (fm + pre) <= fm_fp r
                         <= clip 0 max_fm (fm + post)) rs.

(** A recording of frames 0 to 102 with one event, at frame 100. *)
Definition recording : table :=
  {| columns := ["event"];
     rows := (fun i => {| fm_fp := Z.of_nat i;
                          event := if decide (i = 100%nat) then Some "tone" else None;
                          vals := ∅ |}) <$> seq 0 103 |}.

(** The values a pass writes to the column of its region. *)
Definition normalized (pre : list float) (col : list float) : list float :=
  if PrimFloat.ltb 0%float (std pre)
  then (fun x => ((x - mean pre) / std pre)%float) <$> col
  else (fun _ => 0%float) <$> col.

(** Five frames of a region [G]; the event sits at frame 1, so a single
    row of its window lies before it. *)
Definition early_event : table :=
  {| columns := ["event"; "G"];
     rows := (fun i => {| fm_fp := Z.of_nat i;
                          event := if decide (i = 1%nat) then Some "tone" else None;
                          vals := {["G" := PrimFloat.of_uint63 (Uint63.of_Z (Z.of_nat i + 3))]} |})
               <$> seq 0 5 |}.


(** The labels that every window carries besides the value columns of the
    master table. *)
Definition window_labels : list string := ["fm_fp"; "event"; "evt_id"; "fm_evt"].

(** A window row [r'] that differs from [r] in the cells of [rois] at
    most. *)
Definition same_but (rois : list string) (r r' : evt_row) : Prop :=
  w_fm_fp r' = w_fm_fp r /\ fm_evt r' = fm_evt r /\ w_event r' = w_event r
  /\ evt_id r' = evt_id r
  /\ forall c, c ∉ rois -> w_vals r' !! c = w_vals r !! c.

End Pooler.

(** ** utilities.load_ts and ts_alignment.align_ts *)
Module Harmonizer.

Inductive cell : Type :=
| CStr (s : string)
| CInt (z : Z)
| CFloat (q : Q)
| CBool (b : bool)
| CNaN.

(** The dtype of a column, as [pandas.api.types] tells them apart. *)
Inductive dtype : Type := DObject | DFloat | DInt | DBool.

#[global] Instance dtype_eq_dec : EqDecision dtype.
Proof. solve_decision. Defined.

Definition is_object_dtype (d : dtype) : bool :=
  match d with DObject => true | _ => false end.
Definition is_float_dtype (d : dtype) : bool :=
  match d with DFloat => true | _ => false end.
Definition is_integer_dtype (d : dtype) : bool :=
  match d with DInt => true | _ => false end.
Definition is_bool_dtype (d : dtype) : bool :=
  match d with DBool => true | _ => false end.

(** A timestamp source as it is read, without a header: its columns are
    known by position only. *)
Record source : Type := {
  dtypes : list dtype;
  cells : list (list cell)
}.

(** A data frame with labelled columns; a row lists its cells in column
    order. *)
Record frame : Type := {
  columns : list (string * dtype);
  rows : list (list cell)
}.

Definition labels (df : frame) : list string := (columns df).*1.

Definition get (i : nat) (r : list cell) : cell := default CNaN (r !! i).

Definition column_at (i : nat) (rs : list (list cell)) : list cell :=
  get i <$> rs.

(** Writes [vals] down column [i]. *)
Definition put_column (i : nat) (vals : list cell) (rs : list (list cell))
    : list (list cell) :=
  imap (fun k r => <[i := default (get i r) (vals !! k)]> r) rs.

Definition cell_eqb (a b : cell) : bool :=
  match a, b with
  | CStr s, CStr t => bool_decide (s = t)
  | CInt x, CInt y => bool_decide (x = y)
  | CFloat x, CFloat y => Qeq_bool x y
  | CInt x, CFloat y | CFloat y, CInt x => Qeq_bool (inject_Z x) y
  | CBool x, CBool y => bool_decide (x = y)
  | _, _ => false
  end.

Section Pandas.
(** [pd.to_numeric(column, errors="ignore")] is library code: it maps a
    column to a column.  [repr_float] is [str] of a float. *)
Variable to_numeric : dtype * list cell -> dtype * list cell.
Variable repr_float : Q -> string.

(** [utilities.df_to_numeric] *)
Definition df_to_numeric (ts : source) : source :=
  foldl (fun ts c =>
           let r := to_numeric (default DObject (dtypes ts !! c),
                                column_at c (cells ts)) in
           {| dtypes := <[c := r.1]> (dtypes ts);
              cells := put_column c r.2 (cells ts) |})
        ts (seq 0 (length (dtypes ts))).

(** [Series.astype(str)], cell by cell. *)
Definition astype_str (c : cell) : string :=
  match c with
  | CStr s => s
  | CInt z => str_of_Z z
  | CFloat q => repr_float q
  | CBool true => "True"
  | CBool false => "False"
  | CNaN => "nan"
  end.

(** [ts.iloc[0, 0]] *)
Definition iloc00 (ts : source) : result cell :=
  match cells ts with
  | r :: _ => Ok (get 0 r)
  | [] => Raise (IndexError "single positional indexer is out-of-bounds")
  end.

Definition dont_know {A} : result A :=
  Raise (ValueError "Don't know how to handle TS").

(** [utilities.load_ts]: the relabelled frame and its [ts_type]. *)
Definition load_ts (ts : source) : result (frame * string) :=
  let ts := df_to_numeric ts in
  match dtypes ts with
  | [d0; d1] =>
      if is_object_dtype d0 && is_float_dtype d1 then
        Ok ({| columns := [("event", d0); ("ts", d1); ("event_type", DObject)];
               rows := (fun r => r ++ [CStr "keydown"]) <$> cells ts |},
            "ts_keydown")
      else if is_integer_dtype d0 && is_float_dtype d1 then
        Ok ({| columns := [("fm_behav", d0); ("ts", d1)]; rows := cells ts |},
            "ts_behav")
      else if is_integer_dtype d0 && (is_object_dtype d1 || is_bool_dtype d1) then
        Ok ({| columns := [("fm_behav", d0); ("event", d1); ("event_type", DObject)];
               rows := (fun r => r ++ [CStr "user"]) <$> cells ts |},
            "ts_events")
      else dont_know
  | [_; _; _; _; _] =>
      first <- iloc00 ts ;;
      let ts :=
        if cell_eqb first (CStr "DigitalIOName")
        then {| dtypes := dtypes ts; cells := drop 1 (cells ts) |}
        else ts in
      let ts := df_to_numeric ts in
      Ok ({| columns :=
               zip ["io_name"; "io_flag"; "io_state"; "ts_fp"; "ts"] (dtypes ts)
                 ++ [("event", DObject); ("event_type", DObject)];
             rows :=
               (fun r =>
                  r ++ [CStr (astype_str (get 0 r) +:+ "-"
                              +:+ astype_str (get 1 r) +:+ "-"
                              +:+ astype_str (get 2 r));
                        CStr "arduino"]) <$> cells ts |},
          "ts_arduino")
  | _ => dont_know
  end.
End Pandas.

(** *** Frame operations of pandas used by [align_ts] *)

(** [df[c]] resolves a label to a position; [KeyError] without it. *)
Definition col_index (c : string) (df : frame) : result nat :=
  match list_find (fun cd => cd.1 = c) (columns df) with
  | Some (i, _) => Ok i
  | None => Raise (KeyError c)
  end.

(** [c in df.columns] *)
Definition has_col (c : string) (df : frame) : bool :=
  bool_decide (c ∈ labels df).

(** [df[[c1; ...; cn]]] *)
Definition select (cs : list string) (df : frame) : result frame :=
  idx <- collect ((fun c => col_index c df) <$> cs) ;;
  Ok {| columns := (fun i => default (""%string, DObject) (columns df !! i)) <$> idx;
        rows := (fun r => (fun i => get i r) <$> idx) <$> rows df |}.

(** [df.rename(columns=m)] *)
Definition rename (m : gmap string string) (df : frame) : frame :=
  {| columns := (fun cd => (default cd.1 (m !! cd.1), cd.2)) <$> columns df;
     rows := rows df |}.

(** The number a cell holds, if it holds one. *)
Definition num (c : cell) : option Q :=
  match c with
  | CInt z => Some (inject_Z z)
  | CFloat q => Some q
  | _ => None
  end.

Definition is_nan (c : cell) : bool :=
  match c with CNaN => true | _ => false end.

(** Merge keys: numbers match by value, and null matches null. *)
Definition key_eqb (a b : cell) : bool :=
  cell_eqb a b || (is_nan a && is_nan b).

(** An integer column that received a null becomes a float column, a
    boolean one an object column. *)
Definition promote (df : frame) : frame :=
  {| columns :=
       imap (fun i cd =>
               if existsb is_nan (column_at i (rows df))
               then (cd.1, match cd.2 with
                           | DInt => DFloat
                           | DBool => DObject
                           | d => d
                           end)
               else cd) (columns df);
     rows := rows df |}.

(** The labels of a merge on [on]: a label other than [on] that both sides
    carry gets the suffix [_x] on the left and [_y] on the right. *)
Definition merge_columns (on : string) (j : nat)
    (L R : list (string * dtype)) : list (string * dtype) :=
  let shared c := bool_decide (c ≠ on ∧ c ∈ L.*1 ∧ c ∈ R.*1) in
  ((fun cd => (if shared cd.1 then cd.1 +:+ "_x" else cd.1, cd.2)) <$> L)
  ++ ((fun cd => (if shared cd.1 then cd.1 +:+ "_y" else cd.1, cd.2))
        <$> delete j R).

Inductive how : Type := Left | Outer.

(** Whether some key occurs twice. *)
Fixpoint has_dup (ks : list cell) : bool :=
  match ks with
  | [] => false
  | k :: ks' => existsb (key_eqb k) ks' || has_dup ks'
  end.

(** [L.merge(R, on=on, how=how)], with [validate="one_to_one"] when
    [validate] is set.  A left row is joined to every right row with its
    key, or padded with nulls when there is none; an outer merge then adds
    the right rows that found no left row.  The callers sort the result. *)
Definition merge (h : how) (validate : bool) (on : string) (L R : frame)
    : result frame :=
  i <- col_index on L ;;
  j <- col_index on R ;;
  if validate && (has_dup (column_at i (rows L)) || has_dup (column_at j (rows R)))
  then Raise (MergeError "Merge keys are not unique")
  else
    let joined :=
      (fun l =>
         match filter (fun r => key_eqb (get i l) (get j r) = true) (rows R) with
         | [] => [l ++ replicate (length (columns R) - 1) CNaN]
         | ms => (fun r => l ++ delete j r) <$> ms
         end) <$> rows L in
    let unmatched :=
      match h with
      | Left => []
      | Outer =>
          (fun r => <[i := get j r]> (replicate (length (columns L)) CNaN)
                    ++ delete j r)
            <$> filter (fun r => existsb (fun l => key_eqb (get i l) (get j r))
                                   (rows L) = false) (rows R)
      end in
    Ok (promote {| columns := merge_columns on j (columns L) (columns R);
                   rows := mjoin joined ++ unmatched |}).

(** The right row that [direction="nearest"] picks for the key [t]: of the
    last row at or before [t] and the first row at or after it, the closer
    one, the earlier one on a tie. *)
Definition asof_nearest (t : Q) (right : list (Q * list cell))
    : option (list cell) :=
  let back := last (filter (fun kr => (kr.1 <= t)%Q) right) in
  let fwd := head (filter (fun kr => (t <= kr.1)%Q) right) in
  match back, fwd with
  | Some b, Some f =>
      if decide (t - b.1 <= f.1 - t)%Q then Some b.2 else Some f.2
  | Some b, None => Some b.2
  | None, Some f => Some f.2
  | None, None => None
  end.

(** The keys of a side of [merge_asof]: all numbers, in ascending order. *)
Definition asof_keys (side : string) (i : nat) (df : frame) : result (list Q) :=
  match mapM (fun r => num (get i r)) (rows df) with
  | None => Raise (ValueError ("Merge keys contain null values on " +:+ side +:+ " side"))
  | Some ks =>
      if decide (Sorted Qle ks) then Ok ks
      else Raise (ValueError (side +:+ " keys must be sorted"))
  end.

(** [pd.merge_asof(L, R, on=on, direction="nearest")] *)
Definition merge_asof (on : string) (L R : frame) : result frame :=
  i <- col_index on L ;;
  j <- col_index on R ;;
  let dl := default DObject (snd <$> columns L !! i) in
  let dr := default DObject (snd <$> columns R !! j) in
  if negb (bool_decide (dl = dr ∧ (dl = DInt ∨ dl = DFloat)))
  then Raise (MergeError "incompatible merge keys")
  else
    kl <- asof_keys "left" i L ;;
    kr <- asof_keys "right" j R ;;
    Ok (promote
          {| columns := merge_columns on j (columns L) (columns R);
             rows :=
               (fun tl =>
                  tl.2 ++ match asof_nearest tl.1 (zip kr (rows R)) with
                          | Some r => delete j r
                          | None => replicate (length (columns R) - 1) CNaN
                          end) <$> zip kl (rows L) |}).

(** Sort order of a key column: numbers by value, then text, nulls last. *)
Definition cell_le (a b : cell) : Prop :=
  match a, b with
  | _, CNaN => True
  | CNaN, _ => False
  | CStr s, CStr t => String.leb s t = true
  | CStr _, _ => False
  | _, CStr _ => True
  | CBool x, CBool y => implb x y = true
  | CBool _, _ => True
  | _, CBool _ => False
  | x, y => (default 0%Q (num x) <= default 0%Q (num y))%Q
  end.

#[global] Instance cell_le_dec : RelDecision cell_le.
Proof.
  intros a b; destruct a, b; simpl; try apply _.
Defined.

Definition key_le (i : nat) (r1 r2 : list cell) : Prop :=
  cell_le (get i r1) (get i r2).

#[global] Instance key_le_dec (i : nat) : RelDecision (key_le i) :=
  fun r1 r2 => cell_le_dec (get i r1) (get i r2).

(** [df.sort_values(c).reset_index(drop=True)] *)
Definition sort_values (c : string) (df : frame) : result frame :=
  i <- col_index c df ;;
  Ok {| columns := columns df; rows := merge_sort (key_le i) (rows df) |}.

(** [df[df[c].duplicated(keep=False)]] *)
Definition duplicated (c : string) (df : frame) : result (list (list cell)) :=
  i <- col_index c df ;;
  Ok (filter (fun r =>
                (2 <= length (filter (fun r' => key_eqb (get i r) (get i r') = true)
                                (rows df)))%nat) (rows df)).

(** [pd.concat(frames, ignore_index=True)]: the union of the labels in order
    of first appearance, each row padded with nulls. *)
Definition concat (dfs : list frame) : frame :=
  let cols := foldl (fun acc df =>
                       acc ++ filter (fun cd => cd.1 ∉ acc.*1) (columns df))
                    [] dfs in
  promote
    {| columns := cols;
       rows :=
         mjoin ((fun df =>
                   (fun r =>
                      (fun cd =>
                         match list_find (fun cd' => cd'.1 = cd.1) (columns df) with
                         | Some (i, _) => get i r
                         | None => CNaN
                         end) <$> cols) <$> rows df) <$> dfs) |}.

(** [int(df[c].max())]: the largest number of the column, truncated; the
    maximum of no number is NaN, which [int] refuses. *)
Definition int_max (c : string) (df : frame) : result Z :=
  i <- col_index c df ;;
  match omap num (column_at i (rows df)) with
  | [] => Raise (ValueError "cannot convert float NaN to integer")
  | q :: qs =>
      let m := foldr (fun a b => if decide (a <= b)%Q then b else a) q qs in
      Ok (Z.quot (Qnum m) (Z.pos (Qden m)))
  end.

(** *** A Python dict with string keys, in insertion order *)
Definition dict : Type := list (string * frame).

Definition dict_has (k : string) (d : dict) : bool := bool_decide (k ∈ d.*1).

(** [d[k] = v] *)
Definition dict_set (k : string) (v : frame) (d : dict) : dict :=
  if dict_has k d
  then (fun kv => if decide (kv.1 = k) then (k, v) else kv) <$> d
  else d ++ [(k, v)].

(** [d.pop(k)], for a key that [d] has. *)
Definition dict_pop (k : string) (d : dict) : option (frame * dict) :=
  match list_find (fun kv => kv.1 = k) d with
  | Some (_, (_, v)) => Some (v, filter (fun kv => kv.1 ≠ k) d)
  | None => None
  end.

(** *** align_ts *)
Section Align.
Variable to_numeric : dtype * list cell -> dtype * list cell.
Variable repr_float : Q -> string.

(** The loop that loads the sources (lines 19 to 30). *)
Fixpoint load_all (ts_files : list (string * source)) (ts_dict : dict)
    : result dict :=
  match ts_files with
  | [] => Ok ts_dict
  | (dname, dat) :: ts_files' =>
      r <- load_ts to_numeric repr_float dat ;;
      let '(dat, ts_type) := r in
      if bool_decide (ts_type = "ts_behav" ∨ ts_type = "ts_fp") then
        if dict_has ts_type ts_dict
        then Raise (ValueError ("Multiple " +:+ ts_type
                                +:+ " supplied but only one expected."))
        else load_all ts_files' (dict_set ts_type dat ts_dict)
      else load_all ts_files' (dict_set dname dat ts_dict)
  end.

(** "add ts to fm_fp" (lines 32 to 42), for the popped [ts_fp]. *)
Definition add_ts_fp (data ts_fp : frame) : warned frame :=
  m1 <~ quiet (int_max "fm_fp" ts_fp) ;;
  m2 <~ quiet (int_max "fm_fp" data) ;;
  let fm_diff := m1 - m2 in
  _ <~ (if decide (fm_diff = 0) then ([], Ok tt)
        else (["FP timestamp file has " +:+ str_of_Z (Z.abs fm_diff)
               +:+ (if decide (0 < fm_diff) then " frames more" else " frames less")
               +:+ " than data file"], Ok tt)) ;;
  quiet (merge Left true "fm_fp" data ts_fp).

(** "align fm_behav based on ts" (lines 45 to 62), for the popped
    [ts_behav]. *)
Definition align_behav (data ts_behav : frame) : warned frame :=
  if has_col "ts" data then
    sub <~ quiet (select ["fm_fp"; "ts"] data) ;;
    m <~ quiet (merge_asof "ts" ts_behav sub) ;;
    let ts_behav := rename {["ts" := "ts_behav"]} m in
    dup <~ quiet (duplicated "fm_fp" ts_behav) ;;
    _ <~ (match dup with
          | [] => ([], Ok tt)
          | _ => (["Multiple Behavior frames mapped to the same FP frame"], Ok tt)
          end) ;;
    d <~ quiet (merge Outer false "fm_fp" data ts_behav) ;;
    quiet (sort_values "fm_fp" d)
  else (["No FP TS supplied, cannot align Behavior frames"], Ok data).

(** The body of the loop over the event sources (lines 65 to 96):
    the event frame the source contributes, if any. *)
Definition align_source (data : frame) (dname : string) (dat : frame)
    : warned (option frame) :=
  if has_col "fm_fp" dat then
    e <~ quiet (select ["fm_fp"; "event"; "event_type"] dat) ;;
    ([], Ok (Some e))
  else if has_col "fm_behav" dat then
    if has_col "fm_behav" data then
      sub <~ quiet (select ["fm_fp"; "fm_behav"] data) ;;
      dat <~ quiet (merge Left false "fm_behav" dat sub) ;;
      e <~ quiet (select ["fm_fp"; "fm_behav"; "event"; "event_type"] dat) ;;
      ([], Ok (Some e))
    else (["No Behavior frames supplied, cannot align " +:+ dname], Ok None)
  else if has_col "ts_fp" dat then
    if has_col "ts_fp" data then
      sub <~ quiet (select ["fm_fp"; "ts_fp"] data) ;;
      dat <~ quiet (merge_asof "ts_fp" dat sub) ;;
      e <~ quiet (select ["fm_fp"; "ts_fp"; "event"; "event_type"] dat) ;;
      ([], Ok (Some e))
    else (["No FP timestamps supplied, cannot align " +:+ dname], Ok None)
  else if has_col "ts" dat then
    if has_col "ts" data then
      sub <~ quiet (select ["fm_fp"; "ts"] data) ;;
      dat <~ quiet (merge_asof "ts" dat sub) ;;
      e <~ quiet (select ["fm_fp"; "ts"; "event"; "event_type"] dat) ;;
      ([], Ok (Some e))
    else (["No computer timestamps supplied, cannot align " +:+ dname], Ok None)
  else ([], Ok None).

Fixpoint align_sources (data : frame) (items : dict) : warned (list frame) :=
  match items with
  | [] => ([], Ok [])
  | (dname, dat) :: items' =>
      e <~ align_source data dname dat ;;
      es <~ align_sources data items' ;;
      ([], Ok (match e with Some e => e :: es | None => es end))
  end.

(** The merge of the events onto the master (lines 97 to 108). *)
Definition merge_events (data : frame) (evts : list frame) : warned frame :=
  match evts with
  | [] => ([], Ok data)
  | _ =>
      evts <~ quiet (sort_values "fm_fp" (concat evts)) ;;
      dup <~ quiet (duplicated "fm_fp" evts) ;;
      _ <~ (match dup with
            | [] => ([], Ok tt)
            | _ => (["Multiple events mapped to the same FP frame"], Ok tt)
            end) ;;
      sub <~ quiet (select ["fm_fp"; "event"; "event_type"] evts) ;;
      d <~ quiet (merge Outer false "fm_fp" data sub) ;;
      quiet (sort_values "fm_fp" d)
  end.

Definition internal_names : gmap string string :=
  <["SystemTimestamp" := "ts_fp"]>
    (<["FrameCounter" := "fm_fp"]> (<["ComputerTimestamp" := "ts"]> ∅)).

(** [align_ts]: the merged master table and the sources left in
    [ts_dict].  The texts of the warnings leave out the frames that the
    code prints after them. *)
Definition align_ts (data : frame) (ts_files : list (string * source))
    : warned (frame * dict) :=
  let data := rename internal_names data in
  ts_dict <~ quiet (load_all ts_files []) ;;
  dd <~ (match dict_pop "ts_fp" ts_dict with
         | Some (ts_fp, ts_dict') =>
             data <~ add_ts_fp data ts_fp ;; ([], Ok (data, ts_dict'))
         | None => ([], Ok (data, ts_dict))
         end) ;;
  dd <~ (match dict_pop "ts_behav" dd.2 with
         | Some (ts_behav, ts_dict') =>
             data <~ align_behav dd.1 ts_behav ;; ([], Ok (data, ts_dict'))
         | None => ([], Ok dd)
         end) ;;
  evts <~ align_sources dd.1 dd.2 ;;
  data <~ merge_events dd.1 evts ;;
  ([], Ok (data, dd.2)).
(** The type [load_ts] gives a source, if it recognises it. *)
Definition ts_type_of (s : source) : option string :=
  match load_ts to_numeric repr_float s with
  | Ok (_, ts_type) => Some ts_type
  | Raise _ => None
  end.
End Align.

(** *** Vocabulary of the statements, and sample inputs *)

(** A coercion that finds nothing to convert, as on columns that are read
    with their numeric types already inferred. *)
Definition no_coercion (c : dtype * list cell) : dtype * list cell := c.

(** [str] of a float is not looked at below. *)
Definition any_repr (q : Q) : string := "".

(** The labels of a digital-I/O frame. *)
Definition arduino_labels : list string :=
  ["io_name"; "io_flag"; "io_state"; "ts_fp"; "ts"; "event"; "event_type"].

(** The master table of the specification's example: frames 10 to 12 at
    computer timestamps 0, 1 and 2. *)
Definition master : frame :=
  {| columns := [("FrameCounter", DInt); ("ComputerTimestamp", DFloat)];
     rows := [[CInt 10; CFloat 0]; [CInt 11; CFloat 1]; [CInt 12; CFloat 2]] |}.

Definition keydown_source : source :=
  {| dtypes := [DObject; DFloat];
     cells := [[CStr "start"; CFloat 1]; [CStr "stop"; CFloat (5 # 2)]] |}.

Definition behav_source : source :=
  {| dtypes := [DInt; DFloat]; cells := [[CInt 0; CFloat (9 # 10)]] |}.

(** The two types of which [align_ts] accepts one source each. *)
Definition canonical (ts_type : string) : Prop :=
  ts_type = "ts_behav" \/ ts_type = "ts_fp".

(** The position of a label among labels. *)
Definition label_index (c : string) (ls : list string) : option nat :=
  fst <$> list_find (fun x => x = c) ls.

(** The frame [load_ts] makes of a well-typed behaviour-timestamp source:
    an integer frame and a real timestamp per row. *)
Definition behav_frame (b : list (Z * Q)) : frame :=
  {| columns := [("fm_behav", DInt); ("ts", DFloat)];
     rows := (fun x => [CInt x.1; CFloat x.2]) <$> b |}.


(** The column of the master table that a source of type [ts_type] is
    aligned on, with the words of the warning that its absence costs. *)
Definition aligned_on (ts_type : string) : option (string * string) :=
  if decide (ts_type = "ts_events") then Some ("fm_behav", "No Behavior frames")
  else if decide (ts_type = "ts_arduino") then Some ("ts_fp", "No FP timestamps")
  else if decide (ts_type = "ts_keydown") then Some ("ts", "No computer timestamps")
  else None.

(** [B] has every row of [A], followed by further cells. *)
Definition extends (A B : frame) : Prop :=
  forall r, r ∈ rows A -> exists suffix, (r ++ suffix) ∈ rows B.

(** A master table without timestamps. *)
Definition bare_master : frame :=
  {| columns := [("FrameCounter", DInt)]; rows := [[CInt 10]; [CInt 11]] |}.

End Harmonizer.

(** ** utilities.enumerated_product *)
Module Products.

(** [itertools.product] of the arguments: one tuple per choice of an element from each
    argument, in lexicographic order of the positions, the last argument
    advancing first. *)
Fixpoint product {A} (args : list (list A)) : list (list A) :=
  match args with
  | [] => [[]]
  | x :: args' => x ≫= (fun a => (fun t => a :: t) <$> product args')
  end.

(** [range(len(x))] *)
Definition range_len {A} (x : list A) : list nat := seq 0 (length x).

(** [enumerated_product] of the arguments, as the list of the pairs it
    yields. *)
Definition enumerated_product {A} (args : list (list A))
    : list (list nat * list A) :=
  zip (product (range_len <$> args)) (product args).

(** The number of tuples of a product. *)
Definition product_size {A} (args : list (list A)) : nat :=
  foldr (fun x n => (length x * n)%nat) 1%nat args.

End Products.

(** ** oo_interface.NPMAlign *)
Module Align.
Import Harmonizer.

(** What a method of the object can raise: [NotImplementedError], an
    [OSError] of a read, or an exception of [Py]. *)
Inductive error : Type :=
| NotImplementedError (msg : string)
| OSError (msg : string)
| Exn (e : exn).

Inductive outcome (A : Type) : Type :=
| Done (a : A)
| Failed (e : error).
Arguments Done {A} a.
Arguments Failed {A} e.

Fixpoint has_sep (p : string) : bool :=
  match p with
  | EmptyString => false
  | String c p' => Ascii.eqb c "/" || has_sep p'
  end.

(** [os.path.split(p)[1]] of [posixpath]: what follows the last ["/"]. *)
Fixpoint basename (p : string) : string :=
  match p with
  | EmptyString => EmptyString
  | String c p' =>
      if has_sep p' then basename p'
      else if Ascii.eqb c "/" then p' else String c p'
  end.

(** [s.endswith(suffix)] *)
Fixpoint endswith (s suffix : string) : bool :=
  String.eqb s suffix
  || match s with
     | EmptyString => false
     | String _ s' => endswith s' suffix
     end.

(** [d[k] = v] on a dict in insertion order. *)
Definition assign {V} (k : string) (v : V) (d : list (string * V))
    : list (string * V) :=
  if bool_decide (k ∈ d.*1)
  then (fun kv => if decide (kv.1 = k) then (k, v) else kv) <$> d
  else d ++ [(k, v)].

Record NPMAlign : Type := {
  data : option frame;
  fig_path : string;
  out_path : string;
  ts_dict : list (string * source);
  data_align : option frame;
  (** [self.ts] exists once [align_data] has returned *)
  ts : option dict;
  (** files written so far, latest first *)
  written : list string
}.

(** [NPMAlign.__init__] *)
Definition init (fig out : string) : NPMAlign :=
  {| data := None; fig_path := fig; out_path := out; ts_dict := [];
     data_align := None; ts := None; written := [] |}.

Definition with_data (s : NPMAlign) (d : frame) : NPMAlign :=
  {| data := Some d; fig_path := fig_path s; out_path := out_path s;
     ts_dict := ts_dict s; data_align := data_align s; ts := ts s;
     written := written s |}.

Definition with_ts_dict (s : NPMAlign) (d : list (string * source)) : NPMAlign :=
  {| data := data s; fig_path := fig_path s; out_path := out_path s;
     ts_dict := d; data_align := data_align s; ts := ts s;
     written := written s |}.

Definition with_aligned (s : NPMAlign) (d : frame) (rest : dict) : NPMAlign :=
  {| data := data s; fig_path := fig_path s; out_path := out_path s;
     ts_dict := ts_dict s; data_align := Some d; ts := Some rest;
     written := written s |}.

Definition with_written (s : NPMAlign) (w : list string) : NPMAlign :=
  {| data := data s; fig_path := fig_path s; out_path := out_path s;
     ts_dict := ts_dict s; data_align := data_align s; ts := ts s;
     written := w |}.

Section Files.
(** [pd.read_csv(path, header=None)] and [pd.read_excel(path, header=None)]
    read a file of the disk: the table, or the exception of the read. *)
Variable read_csv : string -> outcome source.
Variable read_excel : string -> outcome source.
Variable to_numeric : dtype * list cell -> dtype * list cell.
Variable repr_float : Q -> string.

(** [NPMAlign.load_ts] *)
Definition load_ts (ts_path : string) : outcome (string * source) :=
  let ts_name := basename ts_path in
  if endswith ts_name ".csv" then
    match read_csv ts_path with
    | Done t => Done (ts_name, t)
    | Failed e => Failed e
    end
  else if endswith ts_path ".xlsx" then
    match read_excel ts_path with
    | Done t => Done (ts_name, t)
    | Failed e => Failed e
    end
  else Failed (NotImplementedError ("Unable to read " +:+ ts_path)).

(** [NPMAlign.set_ts] with a list of paths, and the callback [on_ts_local]:
    the loop stops at the first path that cannot be read, and the entries
    made before it stay. *)
Fixpoint set_ts (s : NPMAlign) (ts_ls : list string) : NPMAlign * outcome unit :=
  match ts_ls with
  | [] => (s, Done tt)
  | ts_path :: ts_ls' =>
      match load_ts ts_path with
      | Done (ts_name, t) =>
          set_ts (with_ts_dict s (assign ts_name t (ts_dict s))) ts_ls'
      | Failed e => (s, Failed e)
      end
  end.

(** The callback [on_ts_remote]: each upload comes with its name and with
    what [pd.read_csv] makes of its content. *)
Fixpoint on_ts_remote (s : NPMAlign) (files : list (string * outcome source))
    : NPMAlign * outcome unit :=
  match files with
  | [] => (s, Done tt)
  | (dname, Done t) :: files' =>
      on_ts_remote (with_ts_dict s (assign dname t (ts_dict s))) files'
  | (_, Failed e) :: _ => (s, Failed e)
  end.

(** [NPMAlign.align_data]: the warnings, the object after the call and how
    the call ended. *)
Definition align_data (s : NPMAlign) : list string * (NPMAlign * outcome unit) :=
  match data s with
  | None =>
      ([], (s, Failed (Exn (AttributeError
                              "'NoneType' object has no attribute 'rename'"))))
  | Some d =>
      match align_ts to_numeric repr_float d (ts_dict s) with
      | (w, Ok (data', rest)) => (w, (with_aligned s data' rest, Done tt))
      | (w, Raise e) => (w, (s, Failed (Exn e)))
      end
  end.

(** [NPMAlign.export_data] *)
Definition export_data (s : NPMAlign) : NPMAlign * outcome unit :=
  match data_align s with
  | None => (s, Failed (Exn (AssertionError "Please align ts first!")))
  | Some _ =>
      (with_written s
         (Process.path_join (Process.path_join (out_path s) "aligned") "master.csv"
          :: written s),
       Done tt)
  end.
End Files.

(** *** Vocabulary of the statements, and sample inputs *)

(** The paths that come after [p] in the list, [p] being the path at
    position [i]. *)
Definition later_names (ts_ls : list string) (i : nat) : list string :=
  basename <$> drop (S i) ts_ls.

(** A disk with two keydown logs of the same file name. *)
Definition two_folders (path : string) : outcome source :=
  if decide (path = "day1/keys.csv") then Done keydown_source
  else if decide (path = "day2/keys.csv")
       then Done {| dtypes := [DObject; DFloat]; cells := [[CStr "go"; CFloat 3]] |}
       else Failed (OSError "No such file or directory").

End Align.

(** ** oo_interface.NPMPooling *)
Module Pooling.
Import Pooler.

(** An attribute of the object: absent until a method assigns it. *)
Inductive attr (A : Type) : Type :=
| Absent
| Present (a : A).
Arguments Absent {A}.
Arguments Present {A} a.

(** [param_roi_dict] is a dict in insertion order; [param_roi_dict] and
    [evtdf] are no attributes of a new object; [None] in [evtdf] is the
    Python value. *)
Record NPMPooling : Type := {
  data : option table;
  fig_path : string;
  out_path : string;
  param_evt_range : option (Z * Z);
  param_roi_dict : attr (list (string * string));
  evtdf : attr (option (list evt_row));
  (** files written so far, latest first *)
  written : list string
}.

(** [NPMPooling.__init__] *)
Definition init (fig out : string) : NPMPooling :=
  {| data := None; fig_path := fig; out_path := out; param_evt_range := None;
     param_roi_dict := Absent; evtdf := Absent; written := [] |}.

Definition with_data (s : NPMPooling) (d : option table) : NPMPooling :=
  {| data := d; fig_path := fig_path s; out_path := out_path s;
     param_evt_range := param_evt_range s; param_roi_dict := param_roi_dict s;
     evtdf := evtdf s; written := written s |}.

Definition with_paths (s : NPMPooling) (fig out : string) : NPMPooling :=
  {| data := data s; fig_path := fig; out_path := out;
     param_evt_range := param_evt_range s; param_roi_dict := param_roi_dict s;
     evtdf := evtdf s; written := written s |}.

Definition with_evt_range (s : NPMPooling) (r : option (Z * Z)) : NPMPooling :=
  {| data := data s; fig_path := fig_path s; out_path := out_path s;
     param_evt_range := r; param_roi_dict := param_roi_dict s;
     evtdf := evtdf s; written := written s |}.

Definition with_roi (s : NPMPooling) (r : list (string * string)) : NPMPooling :=
  {| data := data s; fig_path := fig_path s; out_path := out_path s;
     param_evt_range := param_evt_range s; param_roi_dict := Present r;
     evtdf := evtdf s; written := written s |}.

Definition with_evtdf (s : NPMPooling) (e : list evt_row) : NPMPooling :=
  {| data := data s; fig_path := fig_path s; out_path := out_path s;
     param_evt_range := param_evt_range s; param_roi_dict := param_roi_dict s;
     evtdf := Present (Some e); written := written s |}.

Definition with_written (s : NPMPooling) (w : list string) : NPMPooling :=
  {| data := data s; fig_path := fig_path s; out_path := out_path s;
     param_evt_range := param_evt_range s; param_roi_dict := param_roi_dict s;
     evtdf := evtdf s; written := w |}.

(** [{r: r for r in rois}] *)
Definition identity_dict (rois : list string) : list (string * string) :=
  (fun r => (r, r)) <$> remove_dups rois.

(** [utilities.pool_events] with the range that [__init__] leaves: the sum
    of [None] and the frame of the first event is a [TypeError]. *)
Definition pool_events_unset (t : table) : result (list evt_row) :=
  if decide ("event" ∈ columns t) then
    match event_rows t with
    | [] => Raise (ValueError "No objects to concatenate")
    | _ :: _ =>
        Raise (TypeError "unsupported operand type(s) for +: 'NoneType' and 'int'")
    end
  else Raise (AssertionError "Please align event timestamps first!").

Section Plot.
(** [plotting.plot_events] and the writing of the figure: done, or an
    exception. *)
Variable plot_events : list evt_row -> list string -> result unit.

(** [NPMPooling.pool_events] *)
Definition pool_events (s : NPMPooling) : NPMPooling * result unit :=
  match param_roi_dict s with
  | Absent =>
      (s, Raise (AttributeError
                   "'NPMPooling' object has no attribute 'param_roi_dict'"))
  | Present roi_dict =>
      let rois := roi_dict.*2 in
      let pooled :=
        match data s with
        | None =>
            Raise (AttributeError "'NoneType' object has no attribute 'columns'")
        | Some t =>
            match param_evt_range s with
            | Some evt_range => Pooler.pool_events t evt_range rois true
            | None => pool_events_unset t
            end
        end in
      match pooled with
      | Raise e => (s, Raise e)
      | Ok out =>
          let s := with_evtdf s out in
          match plot_events out rois with
          | Raise e => (s, Raise e)
          | Ok _ =>
              (with_written s
                 (Process.path_join (fig_path s) "events.html" :: written s),
               Ok tt)
          end
      end
  end.

(** [NPMPooling.export_data] *)
Definition export_data (s : NPMPooling) : NPMPooling * result unit :=
  match evtdf s with
  | Absent =>
      (s, Raise (AttributeError "'NPMPooling' object has no attribute 'evtdf'"))
  | Present None => (s, Raise (AssertionError "Please pool events first!"))
  | Present (Some _) =>
      (with_written s
         (Process.path_join (Process.path_join (out_path s) "events") "master.csv"
          :: written s),
       Ok tt)
  end.

(** A method call or widget callback, with its arguments; a [None]
    argument is the call that only shows a widget. *)
Inductive call : Type :=
| set_data (t : table)
| set_paths (fig_path out_path : option string)
| set_evt_range (evt_range : option (Z * Z))
| on_evt_range (v : Z * Z)
| set_roi (roi_dict : option (list (string * string)))
| on_roi (rois : list string)
| pool_events_call
| export_data_call.

Definition step (s : NPMPooling) (c : call) : NPMPooling * result unit :=
  match c with
  | set_data t => (with_data s (Some t), Ok tt)
  | set_paths fig out =>
      (with_paths s (default (fig_path s) fig) (default (out_path s) out), Ok tt)
  | set_evt_range None => (with_evt_range s (Some (-500, 500)), Ok tt)
  | set_evt_range (Some r) => (with_evt_range s (Some r), Ok tt)
  | on_evt_range v => (with_evt_range s (Some v), Ok tt)
  | set_roi roi_dict =>
      match data s with
      | None => (s, Raise (AssertionError "Please set data first!"))
      | Some _ =>
          match roi_dict with
          | None => (s, Ok tt)
          | Some r => (with_roi s r, Ok tt)
          end
      end
  | on_roi rois => (with_roi s (identity_dict rois), Ok tt)
  | pool_events_call => pool_events s
  | export_data_call => export_data s
  end.

(** A session: calls made one after the other on the object, an exception
    ending none but its own call. *)
Definition run (s : NPMPooling) (calls : list call) : NPMPooling :=
  foldl (fun s c => (step s c).1) s calls.
End Plot.

(** Whether a call hands the object its regions. *)
Definition supplies_roi (c : call) : bool :=
  match c with
  | set_roi (Some _) | on_roi _ => true
  | _ => false
  end.

(** A plot that succeeds. *)
Definition drawn (evt_df : list evt_row) (rois : list string) : result unit :=
  Ok tt.

End Pooling.

(** * Properties *)

(** ** The peak detector *)
Module PeaksFacts.
Import Peaks.

Section Facts.
Variable find_peaks : list float -> float -> list nat.

Lemma sig_loop_unselected groups rois prominence freq_wd data :
  sig_loop find_peaks groups rois prominence freq_wd None data = Ok data.
Proof.
  induction groups as [|[sig dat_sig] groups IH]; simpl; [reflexivity|].
  exact IH.
Qed.

(** [loc_set] adds at most the label it writes. *)
Lemma loc_set_columns t index c vals x :
  x ∈ columns (loc_set t index c vals) -> x ∈ columns t \/ x = c.
Proof.
  unfold loc_set; simpl. case_decide; [tauto|].
  rewrite elem_of_app, list_elem_of_singleton. tauto.
Qed.

(** The loop over the regions adds nothing but peak-indicator labels to the
    frame it returns: what it computes for the rolling count goes to the
    slice. *)
Lemma roi_loop_columns rois prominence freq_wd :
  forall data dat_sig out,
    roi_loop find_peaks rois prominence freq_wd data dat_sig = Ok out ->
    forall x, x ∈ columns out ->
      x ∈ columns data \/ exists roi, roi ∈ rois /\ x = roi +:+ "-pks".
Proof.
  induction rois as [|roi rois IH]; simpl; intros data dat_sig out H x Hx.
  - injection H as <-. by left.
  - destruct (column roi dat_sig) as [dat|e]; simpl in H; [|discriminate].
    destruct freq_wd as [w|].
    + destruct (column (roi +:+ "-pks") dat_sig) as [pk|e]; simpl in H;
        [|discriminate].
      destruct (IH _ _ _ H x Hx) as [Hc|(r & Hr & ->)].
      * apply loc_set_columns in Hc as [Hc| ->]; [by left|].
        right. exists roi. split; [left|reflexivity].
      * right. exists r. split; [by right|reflexivity].
    + destruct (IH _ _ _ H x Hx) as [Hc|(r & Hr & ->)].
      * apply loc_set_columns in Hc as [Hc| ->]; [by left|].
        right. exists roi. split; [left|reflexivity].
      * right. exists r. split; [by right|reflexivity].
Qed.

Lemma sig_loop_columns groups rois prominence freq_wd sigs :
  forall data out,
    sig_loop find_peaks groups rois prominence freq_wd sigs data = Ok out ->
    forall x, x ∈ columns out ->
      x ∈ columns data \/ exists roi, roi ∈ rois /\ x = roi +:+ "-pks".
Proof.
  induction groups as [|[sig dat_sig] groups IH]; simpl; intros data out H x Hx.
  - injection H as <-. by left.
  - destruct sigs as [l|]; simpl in H.
    + case_decide.
      * destruct (roi_loop find_peaks rois prominence freq_wd data dat_sig)
          as [data'|e] eqn:E; simpl in H; [|discriminate].
        destruct (IH _ _ H x Hx) as [Hc|Hc]; [|by right].
        eapply roi_loop_columns; eauto.
      * simpl in H. eauto.
    + eauto.
Qed.

(** Whatever the arguments, [find_pks] returns a frame whose labels are
    those it was given and peak-indicator labels: never a rolling-count
    label of its own making. *)
Lemma find_pks_columns data rois prominence freq_wd sigs out x :
  find_pks find_peaks data rois prominence freq_wd sigs = Ok out ->
  x ∈ columns out ->
  x ∈ columns data \/ exists roi, roi ∈ rois /\ x = roi +:+ "-pks".
Proof. unfold find_pks. intros H Hx. eapply sig_loop_columns; eauto. Qed.

(** C8, at the failing input: with a window width, [find_pks] reads the
    peak indicators from the slice of the group, which does not have the
    column it just wrote to the frame, and raises [KeyError]; no table with
    a rolling peak-count column is returned. *)
Theorem find_pks_freq_wd_raises :
  find_pks find_peaks three_frames ["G"] 0.5%float (Some 2%nat)
    (Some ["470nm-norm-zs"])
  = Raise (KeyError "G-pks").
Proof. reflexivity. Qed.

(** C10: without a channel filter no group is selected, and [find_pks]
    returns the table it was given, with no column added. *)
Theorem find_pks_no_filter data rois prominence freq_wd :
  find_pks find_peaks data rois prominence freq_wd None = Ok data.
Proof. unfold find_pks. apply sig_loop_unselected. Qed.
End Facts.

End PeaksFacts.

(** ** The event pooler *)
Module PoolerFacts.
Import Pooler.

Lemma max_fm_spec rs m :
  max_fm rs = Some m ->
  (forall r, r ∈ rs -> fm_fp r <= m) /\ (exists r, r ∈ rs /\ fm_fp r = m).
Proof.
  destruct rs as [|r0 rs]; simpl; [discriminate|].
  intros [= <-]. revert r0.
  induction rs as [|r rs IH]; simpl; intros r0.
  - split.
    + intros r Hr. apply list_elem_of_singleton in Hr as ->. lia.
    + exists r0. split; [left|reflexivity].
  - destruct (IH r0) as [Hub (r1 & Hr1 & Hm)]. split.
    + intros r' Hr'. apply elem_of_cons in Hr' as [->|Hr'].
      * specialize (Hub r0 ltac:(left)). lia.
      * apply elem_of_cons in Hr' as [->|Hr']; [lia|].
        specialize (Hub r' ltac:(by right)). lia.
    + destruct (Z.max_spec (fm_fp r) (foldr (fun r m => Z.max (fm_fp r) m) (fm_fp r0) rs))
        as [[_ E]|[_ E]]; rewrite E.
      * exists r1. split; [|exact Hm].
        apply elem_of_cons in Hr1 as [->|Hr1]; [left|right; by right].
      * exists r. split; [right; left|reflexivity].
Qed.

Lemma window_frames rs pre post m ev label :
  frames (window rs (pre, post) m ev label)
  = clipped_slice rs pre post m (fm_fp ev).
Proof.
  unfold frames, window, clipped_slice, fm_range; simpl.
  rewrite <- list_fmap_compose.
  rewrite (Z.add_comm pre), (Z.add_comm post). reflexivity.
Qed.

Lemma normalize_frames cols roi d out :
  normalize cols roi d = Ok out -> frames out = frames d.
Proof.
  unfold normalize. case_decide; [|discriminate].
  destruct (PrimFloat.ltb _ _); intros [= <-]; unfold frames;
    rewrite <- list_fmap_compose; reflexivity.
Qed.

Lemma normalize_all_frames cols rois :
  forall d out, normalize_all cols rois d = Ok out -> frames out = frames d.
Proof.
  induction rois as [|roi rois IH]; simpl; intros d out H.
  - by injection H as <-.
  - destruct (normalize cols roi d) as [d'|e] eqn:E; simpl in H; [|discriminate].
    rewrite (IH _ _ H). eapply normalize_frames; eauto.
Qed.

Lemma normalize_all_returns cols rois :
  Forall (fun roi => roi ∈ cols) rois ->
  forall d, exists out, normalize_all cols rois d = Ok out.
Proof.
  induction 1 as [|roi rois Hroi _ IH]; simpl; intros d; [eauto|].
  unfold normalize at 1. rewrite decide_True by done.
  destruct (PrimFloat.ltb _ _); simpl; apply IH.
Qed.

Lemma pool_loop_frames data pre post rois norm m :
  (norm = true -> Forall (fun roi => roi ∈ columns data) rois) ->
  forall evs, exists wins,
    pool_loop data (pre, post) rois norm m evs = Ok wins
    /\ Forall2 (fun ev win =>
                  frames win = clipped_slice (rows data) pre post m (fm_fp ev))
               evs wins.
Proof.
  intros Hrois. induction evs as [|ev evs (wins & E & H2)]; simpl.
  - exists []. split; [reflexivity|constructor].
  - unfold pool_one. destruct norm.
    + destruct (normalize_all_returns _ _ (Hrois eq_refl)
                  (window (rows data) (pre, post) m ev (default "" (event ev))))
        as [out Hout].
      rewrite Hout; simpl. rewrite E; simpl.
      exists (out :: wins). split; [reflexivity|].
      constructor; [|exact H2].
      rewrite (normalize_all_frames _ _ _ _ Hout). apply window_frames.
    + simpl. rewrite E; simpl. eexists. split; [reflexivity|].
      constructor; [|exact H2]. apply window_frames.
Qed.

(** When the range straddles the event and the event lies within the
    recording, clipping the two bounds is intersecting the range with
    [0, max_fm]. *)
Lemma fm_range_straddling pre post m fm x :
  pre <= 0 <= post -> 0 <= fm <= m ->
  (clip 0 m (fm + pre) <= x <= clip 0 m (fm + post)
   <-> (fm + pre <= x <= fm + post /\ 0 <= x <= m)).
Proof. unfold clip. lia. Qed.



(** *** The guard of the normalisation *)

(** A float that compares above zero is neither NaN nor a zero. *)
Lemma positive_not_nan (s : float) :
  PrimFloat.ltb 0%float s = true ->
  PrimFloat.is_nan s = false /\ PrimFloat.eqb s 0%float = false.
Proof.
  intros H. rewrite FloatAxioms.ltb_spec in H.
  unfold PrimFloat.is_nan. rewrite !FloatAxioms.eqb_spec.
  destruct (Prim2SF s) as [sg|sg| |sg m e]; try destruct sg; try discriminate;
    split; try reflexivity.
  unfold SFeqb, SFcompare. rewrite Z.compare_refl, Pos.compare_refl. reflexivity.
Qed.

Lemma std_short (s : list float) : (length s < 2)%nat -> std s = PrimFloat.nan.
Proof.
  intros H. unfold std. rewrite decide_True; [reflexivity|].
  pose proof (length_filter notna s). lia.
Qed.

Lemma filter_fmap {A B} (f : A -> B) (P : B -> Prop) `{!forall y, Decision (P y)}
    (l : list A) :
  filter P (f <$> l) = f <$> filter (fun x => P (f x)) l.
Proof.
  induction l as [|x l IH]; [reflexivity|].
  rewrite fmap_cons, !filter_cons. rewrite IH.
  destruct (decide (P (f x))); reflexivity.
Qed.

Lemma cell_set_cell roi x r : cell roi (set_cell roi x r) = x.
Proof. unfold cell, set_cell; simpl. by rewrite lookup_insert_eq. Qed.

Lemma cell_set_cell_ne roi roi' x r :
  roi <> roi' -> cell roi (set_cell roi' x r) = cell roi r.
Proof. intros. unfold cell, set_cell; simpl. by rewrite lookup_insert_ne. Qed.

Lemma normalize_column cols roi d out :
  normalize cols roi d = Ok out ->
  cell roi <$> out = normalized (pre_event roi d) (cell roi <$> d).
Proof.
  unfold normalize, normalized. case_decide; [|discriminate].
  destruct (PrimFloat.ltb _ _); intros [= <-]; rewrite <- !list_fmap_compose;
    apply list_fmap_ext; intros i r _; simpl; apply cell_set_cell.
Qed.

(** A pass leaves the other columns, and what is read of them before the
    event, as they were. *)
Lemma normalize_other cols roi roi' d out :
  roi <> roi' ->
  normalize cols roi' d = Ok out ->
  cell roi <$> out = cell roi <$> d /\ pre_event roi out = pre_event roi d.
Proof.
  intros Hne. unfold normalize. case_decide; [|discriminate].
  assert (Hset : forall f : evt_row -> float,
             cell roi <$> ((fun r => set_cell roi' (f r) r) <$> d) = cell roi <$> d
             /\ pre_event roi ((fun r => set_cell roi' (f r) r) <$> d)
                = pre_event roi d).
  { intros f. split.
    - rewrite <- list_fmap_compose. apply list_fmap_ext; intros i r _; simpl.
      by apply cell_set_cell_ne.
    - unfold pre_event. rewrite filter_fmap. simpl.
      rewrite <- list_fmap_compose. apply list_fmap_ext; intros i r _; simpl.
      by apply cell_set_cell_ne. }
  destruct (PrimFloat.ltb _ _); intros [= <-].
  - apply (Hset (fun r => ((cell roi' r - mean (pre_event roi' d))
                           / std (pre_event roi' d))%float)).
  - apply (Hset (fun _ => 0%float)).
Qed.

Lemma normalize_all_other cols roi rois :
  roi ∉ rois ->
  forall d out, normalize_all cols rois d = Ok out ->
    cell roi <$> out = cell roi <$> d.
Proof.
  induction rois as [|roi' rois IH]; simpl; intros Hnotin d out H.
  - by injection H as <-.
  - apply not_elem_of_cons in Hnotin as [Hne Hnotin].
    destruct (normalize cols roi' d) as [d'|e] eqn:E; simpl in H; [|discriminate].
    rewrite (IH Hnotin _ _ H). eapply normalize_other; eauto.
Qed.

(** With each region listed once, the column of a region comes out of the
    whole loop as its own pass computes it from the window as it was cut. *)
Lemma normalize_all_column cols roi rois :
  NoDup rois -> roi ∈ rois ->
  forall d out, normalize_all cols rois d = Ok out ->
    cell roi <$> out = normalized (pre_event roi d) (cell roi <$> d).
Proof.
  induction 1 as [|roi' rois Hnotin Hnd IH]; intros Hin d out H.
  - inversion Hin.
  - simpl in H.
    destruct (normalize cols roi' d) as [d'|e] eqn:E; simpl in H; [|discriminate].
    destruct (decide (roi = roi')) as [->|Hne].
    + rewrite (normalize_all_other _ _ _ Hnotin _ _ H).
      eapply normalize_column; eauto.
    + apply elem_of_cons in Hin as [?|Hin]; [done|].
      rewrite (IH Hin _ _ H).
      destruct (normalize_other _ _ _ _ _ Hne E) as [-> ->]. reflexivity.
Qed.



End PoolerFacts.

(** ** The biexponential fit *)
Module CorrectorFacts.
Import Corrector.

Example median_odd : median [3; 1; 2]%float = 2%float.
Proof. reflexivity. Qed.

Example median_even : median [4; 1; 3; 2]%float = 2.5%float.
Proof. reflexivity. Qed.

Example median_skips_nan : median [PrimFloat.nan; 5]%float = 5%float.
Proof. reflexivity. Qed.

Lemma exp2_length exp x p : length (exp2 exp x p) = length x.
Proof. destruct p as [[[[a b] c] d] e]. unfold exp2. apply length_fmap. Qed.



(** X8: on a trace of at most 50 samples the two medians of [fit_exp2] are
    one and the same, the median [m] of the whole trace, and the first guess
    is [(m - m, -10, m - m, 0.1, m - (m - m))]. *)
Theorem initial_guess_short a :
  (length a <= 50)%nat ->
  let m := median a in
  initial_guess a
  = ((m - m)%float, (-10)%float, (m - m)%float, 0.1%float, (m - (m - m))%float).
Proof.
  intros H m. unfold initial_guess.
  rewrite take_ge by done.
  replace (length a - 50)%nat with 0%nat by lia. reflexivity.
Qed.

Lemma initial_guess_short_witness :
  initial_guess [5; 3; 1]%float = (0, -10, 0, 0.1, 3)%float.
Proof.
  rewrite (initial_guess_short [5; 3; 1]%float); [|simpl; lia].
  vm_compute. reflexivity.
Defined.
End CorrectorFacts.

(** ** The [NPMProcess] object *)
Module ProcessFacts.
Import Loader Process.

(** No call changes the light-source mapping. *)
Lemma step_led s c : param_led_dict (step s c).1 = param_led_dict s.
Proof.
  destruct c; simpl; try reflexivity;
    repeat match goal with
           | |- context [match ?x with _ => _ end] => destruct x; simpl
           end; try reflexivity.
  unfold load_data.
  repeat match goal with
         | |- context [match ?x with _ => _ end] => destruct x; simpl
         end; reflexivity.
Qed.

Lemma run_led calls : forall s, param_led_dict (run s calls) = param_led_dict s.
Proof.
  induction calls as [|c calls IH]; intros s; simpl; [reflexivity|].
  unfold run in *. simpl. rewrite IH. apply step_led.
Qed.

(** A call that supplies no region mapping leaves it unset. *)
Lemma step_roi s c :
  supplies_roi c = false -> param_roi_dict s = None ->
  param_roi_dict (step s c).1 = None.
Proof.
  intros Hc Hs.
  destruct c as [t|fig out|nfm|v|prom|v|rd|rois|rd|k v|b|k v|]; simpl in *;
    try discriminate; try assumption.
  - destruct (data s); [destruct nfm|]; assumption.
  - destruct prom; assumption.
  - destruct rd; [discriminate|]. destruct (data s); assumption.
  - rewrite Hs. assumption.
  - destruct (data s); [destruct b|]; try assumption. rewrite Hs. assumption.
  - destruct (param_base_sig s); assumption.
  - unfold load_data. destruct (data s); [|assumption]. rewrite Hs. assumption.
Qed.

Lemma run_roi calls :
  Forall (fun c => supplies_roi c = false) calls ->
  forall s, param_roi_dict s = None -> param_roi_dict (run s calls) = None.
Proof.
  induction 1 as [|c calls Hc _ IH]; intros s Hs; [exact Hs|].
  unfold run in *. simpl. apply IH. by apply step_roi.
Qed.

(** The three checks of [load_data]: a missing parameter ends the call with
    an assertion error, and the object, the files it has written included,
    is as it was. *)
Lemma load_data_asserts s :
  data s = None \/ param_roi_dict s = None \/ param_nfm_discard s = None ->
  exists msg, load_data s = (s, Raise (AssertionError msg)).
Proof.
  unfold load_data. intros [H|[H|H]].
  - rewrite H. eauto.
  - destruct (data s); [|eauto]. rewrite H. eauto.
  - destruct (data s); [|eauto]. destruct (param_roi_dict s); [|eauto].
    rewrite H. eauto.
Qed.

(** C7, as the code has it: in every session in which no call supplied a
    region-rename mapping, loading fails with an assertion error and leaves
    the object as it was, so nothing is written; the same holds whenever the
    data or the discard count is unset.  The light-source mapping is the
    default table in every session. *)
Theorem load_data_fails_without_rois fig out calls :
  Forall (fun c => supplies_roi c = false) calls ->
  let s := run (init fig out) calls in
  (exists msg, load_data s = (s, Raise (AssertionError msg)))
  /\ param_led_dict s = default_led_dict
  /\ (forall s' : NPMProcess,
        data s' = None \/ param_roi_dict s' = None \/ param_nfm_discard s' = None ->
        exists msg, load_data s' = (s', Raise (AssertionError msg))).
Proof.
  intros Hcalls s. split; [|split].
  - apply load_data_asserts. right; left. by apply run_roi.
  - unfold s. by rewrite run_led.
  - apply load_data_asserts.
Qed.

Lemma load_data_fails_without_rois_witness :
  let s := run (init "./figs/process" "./output/process")
               [set_data four_samples; set_nfm_discard (Some 0)] in
  load_data s = (s, Raise (AssertionError "Please set ROIs first!"))
  /\ written s = [].
Proof.
  destruct (load_data_fails_without_rois "./figs/process" "./output/process"
              [set_data four_samples; set_nfm_discard (Some 0)])
    as ((msg & E) & _ & _).
  - repeat constructor.
  - split; [|reflexivity]. rewrite E. vm_compute in E. congruence.
Defined.

(** C7, refuted as stated: a session in which no call supplies a
    light-source mapping, and in which loading succeeds, balances the two
    channels and writes the figure. *)
Lemma load_data_without_led_mapping :
  Forall (fun c => supplies_led c = false) plain_session
  /\ exists s',
       load_data (run (init "./figs/process" "./output/process") plain_session)
       = (s', Ok tt)
       /\ written s' = ["./figs/process/raw_signals.html"]
       /\ (signal <$> match data s' with
                      | Some (SignalFrame t) => body t
                      | _ => []
                      end)
          = [Some "415nm"; Some "415nm"; Some "470nm"; Some "470nm"].
Proof.
  split; [repeat constructor|].
  eexists. split; [vm_compute; reflexivity|].
  split; reflexivity.
Qed.

End ProcessFacts.

(** ** The loader *)
Module LoaderFacts.
Import Loader.

#[local] Instance ts_le_trans : Transitive ts_le.
Proof. intros x y z. unfold ts_le. apply Qle_trans. Qed.

#[local] Instance ts_le_total : Total ts_le.
Proof.
  intros x y. unfold ts_le.
  destruct (Qlt_le_dec (SystemTimestamp (smp x)) (SystemTimestamp (smp y)));
    [left; by apply Qlt_le_weak|by right].
Qed.

Lemma group_keys_spec data s :
  s ∈ group_keys data <-> exists r, r ∈ data /\ signal r = Some s.
Proof.
  unfold group_keys.
  rewrite (merge_sort_Permutation str_le), elem_of_remove_dups.
  apply list_elem_of_omap.
Qed.

Lemma group_keys_NoDup data : NoDup (group_keys data).
Proof.
  unfold group_keys. rewrite (merge_sort_Permutation str_le).
  apply NoDup_remove_dups.
Qed.

Lemma size_min_spec l n :
  size_min l = Some n -> n ∈ l /\ forall m, m ∈ l -> (n <= m)%nat.
Proof.
  destruct l as [|a l]; simpl; [discriminate|]. intros [= <-].
  induction l as [|b l [Hin Hle]]; simpl.
  - split; [left|]. intros m Hm. apply list_elem_of_singleton in Hm. lia.
  - split.
    + destruct (Nat.min_spec b (foldr Nat.min a l)) as [[_ E]|[_ E]]; rewrite E.
      * right; left.
      * apply elem_of_cons in Hin as [Ha|Hin]; [rewrite Ha; left|right; by right].
    + intros m Hm. apply elem_of_cons in Hm as [->|Hm].
      * specialize (Hle a ltac:(left)). lia.
      * apply elem_of_cons in Hm as [->|Hm]; [lia|].
        specialize (Hle m ltac:(by right)). lia.
Qed.

Lemma filter_all {A} (P : A -> Prop) `{!forall x, Decision (P x)} (l : list A) :
  Forall P l -> filter P l = l.
Proof.
  induction 1 as [|x l Hx _ IH]; [reflexivity|].
  by rewrite filter_cons_True, IH.
Qed.

Lemma filter_none {A} (P : A -> Prop) `{!forall x, Decision (P x)} (l : list A) :
  Forall (fun x => ~ P x) l -> filter P l = [].
Proof.
  induction 1 as [|x l Hx _ IH]; [reflexivity|].
  by rewrite filter_cons_False.
Qed.

(** The rows that [cut_df] keeps of a group belong to the group. *)
Lemma cut_df_group k data n :
  Forall (fun r => signal r = Some k) (cut_df (get_group k data) n).
Proof.
  apply Forall_forall. intros r Hr. unfold cut_df in Hr.
  apply elem_of_take in Hr as (i & Hr & _).
  apply list_elem_of_lookup_2 in Hr.
  rewrite (merge_sort_Permutation ts_le) in Hr.
  unfold get_group in Hr. apply list_elem_of_filter in Hr. tauto.
Qed.

Lemma get_group_app s l1 l2 :
  get_group s (l1 ++ l2) = get_group s l1 ++ get_group s l2.
Proof. apply filter_app. Qed.

Lemma get_group_cut_same s data n :
  get_group s (cut_df (get_group s data) n) = cut_df (get_group s data) n.
Proof. apply filter_all, cut_df_group. Qed.

Lemma get_group_cut_other s k data n :
  s <> k -> get_group s (cut_df (get_group k data) n) = [].
Proof.
  intros Hne. apply filter_none. eapply Forall_impl; [apply cut_df_group|].
  simpl. intros r Hr. congruence.
Qed.

Lemma get_group_join_other s data n keys :
  s ∉ keys ->
  get_group s (mjoin ((fun k => cut_df (get_group k data) n) <$> keys)) = [].
Proof.
  induction keys as [|k keys IH]; intros Hs; [reflexivity|].
  apply not_elem_of_cons in Hs as [Hne Hs].
  rewrite fmap_cons.
  change (mjoin (?x :: ?l)) with (x ++ mjoin l).
  rewrite get_group_app, (IH Hs), app_nil_r.
  by apply get_group_cut_other.
Qed.

(** Of the concatenated table, the rows of a label are those [cut_df] kept
    of its group. *)
Lemma get_group_join s data n keys :
  NoDup keys -> s ∈ keys ->
  get_group s (mjoin ((fun k => cut_df (get_group k data) n) <$> keys))
  = cut_df (get_group s data) n.
Proof.
  induction 1 as [|k keys Hk Hnd IH]; intros Hs; [inversion Hs|].
  rewrite fmap_cons.
  change (mjoin (?x :: ?l)) with (x ++ mjoin l).
  rewrite get_group_app.
  destruct (decide (s = k)) as [->|Hne].
  - rewrite (get_group_join_other _ _ _ _ Hk), app_nil_r.
    apply get_group_cut_same.
  - apply elem_of_cons in Hs as [?|Hs]; [done|].
    rewrite (IH Hs). by rewrite get_group_cut_other.
Qed.

(** [cut_df] keeps the earliest rows: what it drops is no earlier than
    anything it keeps. *)
Lemma cut_df_earliest g n :
  exists dropped,
    cut_df g n ++ dropped ≡ₚ g
    /\ forall k d, k ∈ cut_df g n -> d ∈ dropped -> ts_le k d.
Proof.
  exists (drop n (merge_sort ts_le g)). unfold cut_df. split.
  - rewrite take_drop. apply merge_sort_Permutation.
  - intros k d Hk Hd.
    eapply (StronglySorted_app_1_elem_of ts_le); [|exact Hk|exact Hd].
    rewrite take_drop. apply StronglySorted_merge_sort; apply _.
Qed.

Lemma cut_df_length g n : (n <= length g)%nat -> length (cut_df g n) = n.
Proof.
  intros H. unfold cut_df. rewrite length_take.
  rewrite (merge_sort_Permutation ts_le g). lia.
Qed.

Lemma tagged_spec data_file discard_nfm led_dict r :
  r ∈ tagged data_file discard_nfm led_dict <->
  smp r ∈ data_file /\ discard_nfm < FrameCounter (smp r)
  /\ signal r = led_dict !! LedState (smp r).
Proof.
  unfold tagged. rewrite list_elem_of_fmap. split.
  - intros (x & -> & Hx). apply list_elem_of_filter in Hx as [Hd Hx]. simpl. tauto.
  - intros (Hin & Hd & Hs). exists (smp r). split.
    + destruct r as [x sg]; simpl in *. by rewrite Hs.
    + apply list_elem_of_filter. tauto.
Qed.

(** The rows of the loaded table, for a label that has a group. *)
Lemma load_data_group data_file discard_nfm led_dict roi_dict s :
  let pre := tagged (body data_file) discard_nfm led_dict in
  s ∈ group_keys pre ->
  exists nfm,
    size_min (group_sizes pre) = Some nfm
    /\ (nfm <= length (get_group s pre))%nat
    /\ get_group s (body (load_data data_file discard_nfm led_dict roi_dict))
       = cut_df (get_group s pre) nfm.
Proof.
  intros pre Hs. unfold load_data; simpl. fold pre.
  destruct (size_min (group_sizes pre)) as [nfm|] eqn:E.
  - exists nfm. split; [reflexivity|].
    destruct (size_min_spec _ _ E) as [_ Hle]. split.
    + apply Hle. unfold group_sizes.
      apply list_elem_of_fmap. by exists s.
    + apply get_group_join; [apply group_keys_NoDup|exact Hs].
  - unfold group_sizes in E. destruct (group_keys pre); [inversion Hs|discriminate].
Qed.

(** C4: [pre] is the table before trimming (the rows past the discarded
    frames, each with the label of its light-source code) and [out] the
    table [load_data] returns.  Every label of [pre] has in [out] as many
    rows as the smallest group of [pre]; its rows in [out] are rows of its
    group in [pre], and the rows of the group that are left out have device
    timestamps no earlier than those kept.  Every row of [out] is a row of
    the input past the discarded frames whose code has a label. *)
Theorem load_data_balanced data_file discard_nfm led_dict roi_dict :
  let pre := tagged (body data_file) discard_nfm led_dict in
  let out := body (load_data data_file discard_nfm led_dict roi_dict) in
  (forall s, s ∈ group_keys pre <-> exists r, r ∈ pre /\ signal r = Some s)
  /\ (forall s, s ∈ group_keys pre ->
        Some (length (get_group s out)) = size_min (group_sizes pre))
  /\ (forall n, size_min (group_sizes pre) = Some n ->
        (forall s, s ∈ group_keys pre -> (n <= length (get_group s pre))%nat)
        /\ exists s, s ∈ group_keys pre /\ n = length (get_group s pre))
  /\ (forall s, s ∈ group_keys pre ->
        exists dropped,
          get_group s out ++ dropped ≡ₚ get_group s pre
          /\ forall k d, k ∈ get_group s out -> d ∈ dropped ->
               (SystemTimestamp (smp k) <= SystemTimestamp (smp d))%Q)
  /\ (forall r, r ∈ out ->
        smp r ∈ body data_file
        /\ discard_nfm < FrameCounter (smp r)
        /\ signal r = led_dict !! LedState (smp r)
        /\ is_Some (signal r)).
Proof.
  intros pre out. split; [apply group_keys_spec|]. split; [|split; [|split]].
  - intros s Hs.
    destruct (load_data_group data_file discard_nfm led_dict roi_dict s Hs)
      as (nfm & E & Hle & Hg).
    fold pre in E, Hle, Hg. fold out in Hg.
    rewrite E, Hg. f_equal. by apply cut_df_length.
  - intros n E. destruct (size_min_spec _ _ E) as [Hin Hle]. split.
    + intros s Hs. apply Hle. unfold group_sizes.
      apply list_elem_of_fmap. by exists s.
    + unfold group_sizes in Hin. apply list_elem_of_fmap in Hin as (s & -> & Hs).
      by exists s.
  - intros s Hs.
    destruct (load_data_group data_file discard_nfm led_dict roi_dict s Hs)
      as (nfm & E & Hle & Hg).
    fold pre in Hg. fold out in Hg. rewrite Hg. apply cut_df_earliest.
  - intros r Hr. unfold out, load_data in Hr; simpl in Hr. fold pre in Hr.
    destruct (size_min (group_sizes pre)) as [nfm|]; [|inversion Hr].
    apply list_elem_of_join in Hr as (g & Hr & Hg).
    apply list_elem_of_fmap in Hg as (k & -> & Hk).
    pose proof (cut_df_group k pre nfm) as Hall.
    rewrite Forall_forall in Hall. pose proof (Hall r Hr) as Hsig.
    unfold cut_df in Hr. apply elem_of_take in Hr as (i & Hr & _).
    apply list_elem_of_lookup_2 in Hr.
    rewrite (merge_sort_Permutation ts_le) in Hr.
    unfold get_group in Hr. apply list_elem_of_filter in Hr as [_ Hr].
    apply tagged_spec in Hr as (Hin & Hd & Hs).
    repeat split; try assumption. rewrite Hsig. eauto.
Qed.

Lemma load_data_balanced_witness :
  let out := body (load_data Process.four_samples 1 Process.default_led_dict ∅) in
  length (get_group "415nm" out) = 1%nat
  /\ length (get_group "470nm" out) = 1%nat.
Proof.
  destruct (load_data_balanced Process.four_samples 1 Process.default_led_dict ∅)
    as (_ & Hcount & _).
  assert (Hmin : size_min (group_sizes
                   (tagged (body Process.four_samples) 1 Process.default_led_dict))
                 = Some 1%nat) by (vm_compute; reflexivity).
  rewrite Hmin in Hcount. split.
  - assert (H : Some (length (get_group "415nm"
                  (body (load_data Process.four_samples 1
                           Process.default_led_dict ∅)))) = Some 1%nat).
    { apply Hcount. vm_compute. left. }
    exact (f_equal (default 0%nat) H).
  - assert (H : Some (length (get_group "470nm"
                  (body (load_data Process.four_samples 1
                           Process.default_led_dict ∅)))) = Some 1%nat).
    { apply Hcount. vm_compute. right; left. }
    exact (f_equal (default 0%nat) H).
Defined.

(** The loader on four frames, one of them discarded: both channels keep one
    row, the earliest. *)
Example load_data_trims :
  (fun r => (FrameCounter (smp r), signal r))
    <$> body (load_data Process.four_samples 1 Process.default_led_dict ∅)
  = [(3, Some "415nm"); (2, Some "470nm")].
Proof. vm_compute. reflexivity. Qed.

(** X1: [cut_df] returns the [nrow] earliest rows, in ascending order of
    [SystemTimestamp]: all of the rows when there are no more than [nrow];
    a row it drops is no earlier than any row it keeps. *)
Theorem cut_df_earliest_rows df nrow :
  StronglySorted ts_le (cut_df df nrow)
  /\ length (cut_df df nrow) = Nat.min nrow (length df)
  /\ exists dropped,
       cut_df df nrow ++ dropped ≡ₚ df
       /\ forall k d, k ∈ cut_df df nrow -> d ∈ dropped ->
            (SystemTimestamp (smp k) <= SystemTimestamp (smp d))%Q.
Proof.
  split; [|split].
  - unfold cut_df.
    pose proof (StronglySorted_merge_sort ts_le df) as Hs.
    rewrite <- (take_drop nrow (merge_sort ts_le df)) in Hs.
    by apply StronglySorted_app_1_l in Hs.
  - unfold cut_df. by rewrite length_take, merge_sort_Permutation.
  - apply cut_df_earliest.
Qed.
End LoaderFacts.

(** ** The timestamp harmonizer *)
Module HarmonizerFacts.
Import Harmonizer.

Section Classify.
Variable to_numeric : dtype * list cell -> dtype * list cell.
Variable repr_float : Q -> string.

Abbreviation df_to_numeric := (df_to_numeric to_numeric).
Abbreviation load_ts := (load_ts to_numeric repr_float).

(** Coercion keeps the number of columns and the number of rows. *)
Lemma df_to_numeric_shape ts :
  length (dtypes (df_to_numeric ts)) = length (dtypes ts)
  /\ length (cells (df_to_numeric ts)) = length (cells ts).
Proof.
  unfold Harmonizer.df_to_numeric.
  generalize (seq 0 (length (dtypes ts))). intros cs. revert ts.
  induction cs as [|c cs IH]; intros ts; simpl; [done|].
  destruct (IH {| dtypes := <[c := (to_numeric (default DObject (dtypes ts !! c),
                                                column_at c (cells ts))).1]> (dtypes ts);
                  cells := put_column c
                             (to_numeric (default DObject (dtypes ts !! c),
                                          column_at c (cells ts))).2 (cells ts) |})
    as [H1 H2].
  simpl in H1, H2. rewrite H1, H2. unfold put_column.
  by rewrite length_insert, length_imap.
Qed.

(** The five-column branch, for a source with a first row. *)
Lemma load_ts_five ts d0 d1 d2 d3 d4 r rs :
  dtypes (df_to_numeric ts) = [d0; d1; d2; d3; d4] ->
  cells (df_to_numeric ts) = r :: rs ->
  exists f,
    load_ts ts = Ok (f, "ts_arduino")
    /\ labels f = arduino_labels
    /\ length (rows f)
       = if cell_eqb (get 0 r) (CStr "DigitalIOName")
         then length rs else S (length rs).
Proof.
  intros Hd Hc. unfold Harmonizer.load_ts. rewrite Hd.
  unfold iloc00. rewrite Hc. cbn [bind].
  set (stripped :=
         if cell_eqb (get 0 r) (CStr "DigitalIOName")
         then {| dtypes := [d0; d1; d2; d3; d4]; cells := drop 1 (r :: rs) |}
         else df_to_numeric ts).
  destruct (df_to_numeric_shape stripped) as [H1 H2].
  assert (Hlen : length (dtypes stripped) = 5%nat).
  { unfold stripped. destruct (cell_eqb _ _); simpl; [done|by rewrite Hd]. }
  rewrite Hlen in H1.
  destruct (dtypes (df_to_numeric stripped)) as [|e0 [|e1 [|e2 [|e3 [|e4 [|]]]]]];
    try discriminate.
  eexists. split; [reflexivity|]. split; [reflexivity|].
  cbn [rows]. rewrite length_fmap, H2. unfold stripped.
  destruct (cell_eqb _ _); cbn [cells]; [reflexivity|by rewrite Hc].
Qed.


(** Whatever the coercion, [load_ts] never answers with the
    frame-timestamp type. *)
Lemma load_ts_types ts f ts_type :
  load_ts ts = Ok (f, ts_type) ->
  ts_type = "ts_keydown" \/ ts_type = "ts_behav" \/ ts_type = "ts_events"
  \/ ts_type = "ts_arduino".
Proof.
  unfold Harmonizer.load_ts.
  destruct (dtypes (df_to_numeric ts)) as [|e0 [|e1 [|e2 [|e3 [|e4 [|]]]]]];
    try discriminate.
  - destruct e0, e1; simpl; intros [= <- <-]; tauto.
  - destruct (iloc00 _); simpl; [|discriminate]. intros [= <- <-]. tauto.
Qed.
End Classify.

(** The two sources that the specification classifies. *)
Example load_ts_keydown_example :
  exists f,
    load_ts no_coercion any_repr
      {| dtypes := [DObject; DFloat];
         cells := [[CStr "start"; CFloat 1]; [CStr "stop"; CFloat (5 # 2)]] |}
    = Ok (f, "ts_keydown").
Proof. eexists. reflexivity. Qed.

Example load_ts_behav_example :
  exists f,
    load_ts no_coercion any_repr
      {| dtypes := [DInt; DFloat];
         cells := [[CInt 0; CFloat 1]; [CInt 1; CFloat (6 # 5)]] |}
    = Ok (f, "ts_behav").
Proof. eexists. reflexivity. Qed.



(** *** The loop over the sources *)

Lemma dict_set_keys k v d :
  (dict_set k v d).*1 = if dict_has k d then d.*1 else d.*1 ++ [k].
Proof.
  unfold dict_set. destruct (dict_has k d) eqn:E.
  - rewrite <- list_fmap_compose. apply list_fmap_ext. intros i [k' v'] _; simpl.
    by case_decide.
  - by rewrite fmap_app.
Qed.

Lemma dict_has_set t k v d :
  dict_has t (dict_set k v d) = dict_has t d || bool_decide (t = k).
Proof.
  unfold dict_has at 1. rewrite dict_set_keys.
  destruct (dict_has k d) eqn:E.
  - fold (dict_has t d). destruct (bool_decide_reflect (t = k)) as [->|Hne].
    + by rewrite E.
    + by rewrite orb_false_r.
  - apply eq_true_iff_eq. rewrite orb_true_iff. unfold dict_has.
    rewrite !bool_decide_eq_true, elem_of_app, list_elem_of_singleton. tauto.
Qed.

Section Load.
Variable to_numeric : dtype * list cell -> dtype * list cell.
Variable repr_float : Q -> string.

Abbreviation load_ts := (load_ts to_numeric repr_float).
Abbreviation load_all := (load_all to_numeric repr_float).
Abbreviation align_ts := (align_ts to_numeric repr_float).
Abbreviation ts_type_of := (ts_type_of to_numeric repr_float).

(** One turn of the loop. *)
Lemma load_all_cons dname dat ts_files ts_dict f ts_type :
  load_ts dat = Ok (f, ts_type) ->
  load_all ((dname, dat) :: ts_files) ts_dict
  = if bool_decide (canonical ts_type) then
      if dict_has ts_type ts_dict
      then Raise (ValueError ("Multiple " +:+ ts_type
                              +:+ " supplied but only one expected."))
      else load_all ts_files (dict_set ts_type f ts_dict)
    else load_all ts_files (dict_set dname f ts_dict).
Proof. intros H. simpl. rewrite H. reflexivity. Qed.

(** Once [ts_dict] has the key of a canonical type, a later source of
    that type ends the loop with an exception. *)
Lemma load_all_key_taken ts_type dname dat f :
  canonical ts_type ->
  load_ts dat = Ok (f, ts_type) ->
  forall ts_files ts_dict,
    dict_has ts_type ts_dict = true ->
    (dname, dat) ∈ ts_files ->
    raises (load_all ts_files ts_dict).
Proof.
  intros Hcan Hload. induction ts_files as [|[n s] ts_files IH];
    intros ts_dict Hhas Hin; [inversion Hin|].
  destruct (load_ts s) as [[f' t']|e] eqn:Es.
  2:{ exists e. simpl. by rewrite Es. }
  rewrite (load_all_cons _ _ _ _ _ _ Es).
  apply elem_of_cons in Hin as [[= <- <-]|Hin].
  - rewrite Es in Hload. injection Hload as <- <-.
    rewrite bool_decide_eq_true_2 by done. rewrite Hhas. by eexists.
  - case_bool_decide.
    + destruct (dict_has t' ts_dict); [by eexists|].
      apply IH; [|done]. by rewrite dict_has_set, Hhas.
    + apply IH; [|done]. by rewrite dict_has_set, Hhas.
Qed.

(** Two sources of one canonical type end the loop with an exception,
    whatever else is supplied. *)
Lemma load_all_ambiguous ts_type n1 s1 f1 n2 s2 f2 l1 l2 l3 :
  canonical ts_type ->
  load_ts s1 = Ok (f1, ts_type) ->
  load_ts s2 = Ok (f2, ts_type) ->
  forall ts_dict,
    raises (load_all (l1 ++ (n1, s1) :: l2 ++ (n2, s2) :: l3) ts_dict).
Proof.
  intros Hcan H1 H2. induction l1 as [|[n s] l1 IH]; intros ts_dict.
  - rewrite app_nil_l, (load_all_cons _ _ _ _ _ _ H1).
    rewrite bool_decide_eq_true_2 by done.
    destruct (dict_has ts_type ts_dict); [by eexists|].
    eapply load_all_key_taken; eauto.
    + rewrite dict_has_set. by rewrite bool_decide_eq_true_2, orb_true_r.
    + apply elem_of_app. right. left.
  - rewrite <- app_comm_cons.
    destruct (load_ts s) as [[f' t']|e] eqn:Es.
    2:{ exists e. simpl. by rewrite Es. }
    rewrite (load_all_cons _ _ _ _ _ _ Es).
    case_bool_decide; [destruct (dict_has t' ts_dict); [by eexists|]|]; apply IH.
Qed.

(** An exception of the loop is the exception of [align_ts]: no table
    is returned. *)
Lemma align_ts_load_raises data ts_files e :
  load_all ts_files [] = Raise e ->
  align_ts data ts_files = ([], Raise e).
Proof. intros H. unfold Harmonizer.align_ts, quiet. rewrite H. reflexivity. Qed.

(** The first half of C2 holds: two sources that are both classified as
    the behaviour timestamps (or both as the frame timestamps, a type
    [load_ts] never answers) make [align_ts] raise. *)
Lemma align_ts_ambiguous data ts_type n1 s1 f1 n2 s2 f2 l1 l2 l3 :
  canonical ts_type ->
  load_ts s1 = Ok (f1, ts_type) ->
  load_ts s2 = Ok (f2, ts_type) ->
  exists e, align_ts data (l1 ++ (n1, s1) :: l2 ++ (n2, s2) :: l3) = ([], Raise e).
Proof.
  intros Hcan H1 H2.
  destruct (load_all_ambiguous _ n1 _ _ n2 _ _ l1 l2 l3 Hcan H1 H2 []) as [e He].
  exists e. by apply align_ts_load_raises.
Qed.
(** What the second half of C2 needs besides: when no source is named
    after a canonical type, at most one behaviour-timestamp source among
    recognised sources lets the loop run to its end. *)
Lemma load_all_unambiguous ts_files :
  Forall (fun x => ~ canonical x.1) ts_files ->
  Forall (fun x => is_Some (ts_type_of x.2)) ts_files ->
  forall ts_dict,
    (length (filter (fun x => ts_type_of x.2 = Some "ts_behav") ts_files)
     + (if dict_has "ts_behav" ts_dict then 1 else 0) <= 1)%nat ->
    exists d, load_all ts_files ts_dict = Ok d.
Proof.
  induction ts_files as [|[n s] ts_files IH]; intros Hnames Hrec ts_dict Hcount.
  - by eexists.
  - apply Forall_cons in Hnames as [Hn Hnames].
    apply Forall_cons in Hrec as [Hs Hrec].
    rewrite filter_cons in Hcount. simpl in Hn, Hs, Hcount.
    destruct (load_ts s) as [[f t]|e] eqn:Es;
      [|unfold ts_type_of in Hs; rewrite Es in Hs; by destruct Hs].
    assert (Ht : ts_type_of s = Some t) by (unfold ts_type_of; by rewrite Es).
    rewrite Ht in Hcount. clear Hs Ht.
    rewrite (load_all_cons _ _ _ _ _ _ Es).
    destruct (load_ts_types _ _ _ _ _ Es) as [-> | [-> | [-> | ->]]].
    + rewrite bool_decide_eq_false_2 by (intros [?|?]; discriminate).
      rewrite decide_False in Hcount by discriminate.
      apply IH; [done..|]. rewrite dict_has_set.
      rewrite (bool_decide_eq_false_2 ("ts_behav" = n))
        by (intros <-; apply Hn; by left).
      by rewrite orb_false_r.
    + rewrite bool_decide_eq_true_2 by (by left).
      rewrite decide_True in Hcount by done. simpl in Hcount.
      destruct (dict_has "ts_behav" ts_dict) eqn:Ed; [lia|].
      apply IH; [done..|]. rewrite dict_has_set, Ed.
      rewrite bool_decide_eq_true_2 by done. simpl. lia.
    + rewrite bool_decide_eq_false_2 by (intros [?|?]; discriminate).
      rewrite decide_False in Hcount by discriminate.
      apply IH; [done..|]. rewrite dict_has_set.
      rewrite (bool_decide_eq_false_2 ("ts_behav" = n))
        by (intros <-; apply Hn; by left).
      by rewrite orb_false_r.
    + rewrite bool_decide_eq_false_2 by (intros [?|?]; discriminate).
      rewrite decide_False in Hcount by discriminate.
      apply IH; [done..|]. rewrite dict_has_set.
      rewrite (bool_decide_eq_false_2 ("ts_behav" = n))
        by (intros <-; apply Hn; by left).
      by rewrite orb_false_r.
Qed.
End Load.

(** C2, at the failing input: one keydown log that is named [ts_behav] and
    one behaviour-timestamp source.  Only one source is classified as the
    behaviour timestamps and none as the frame timestamps, and [align_ts]
    raises the error of an ambiguous clock: the keydown log sits under the
    key that the check looks up. *)
Theorem align_ts_name_collision :
  (exists f, load_ts no_coercion any_repr keydown_source = Ok (f, "ts_keydown"))
  /\ (exists f, load_ts no_coercion any_repr behav_source = Ok (f, "ts_behav"))
  /\ align_ts no_coercion any_repr master
       [("ts_behav", keydown_source); ("b.csv", behav_source)]
     = ([], Raise (ValueError "Multiple ts_behav supplied but only one expected.")).
Proof.
  split; [eexists; reflexivity|]. split; [eexists; reflexivity|].
  vm_compute. reflexivity.
Qed.

(** *** The nearest-time merge *)

#[local] Instance Qle_transitive : Transitive Qle.
Proof. intros x y z. apply Qle_trans. Qed.

Lemma Qle_cases (x y : Q) : (x <= y)%Q \/ (y <= x)%Q.
Proof. destruct (Qlt_le_dec x y); [left; by apply Qlt_le_weak|by right]. Qed.

(** The last row at or before [t] of a table sorted by key is the latest
    such row. *)
Lemma asof_backward (t : Q) (right : list (Q * list cell)) kb sb :
  Sorted Qle right.*1 ->
  last (filter (fun kr => (kr.1 <= t)%Q) right) = Some (kb, sb) ->
  (kb, sb) ∈ right /\ (kb <= t)%Q
  /\ forall k s, (k, s) ∈ right -> (k <= t)%Q -> (k <= kb)%Q.
Proof.
  intros Hs%Sorted_StronglySorted; [|apply _].
  induction right as [|[k0 s0] right IH]; [discriminate|].
  rewrite fmap_cons in Hs. apply StronglySorted_cons in Hs as [Hall Hs].
  rewrite filter_cons. simpl. destruct (decide (k0 <= t)%Q) as [Hk0|Hk0].
  - rewrite last_cons.
    destruct (last (filter (fun kr => (kr.1 <= t)%Q) right)) as [[k1 s1]|] eqn:El.
    + intros [= -> ->]. destruct (IH Hs eq_refl) as (Hin & Hle & Hmax).
      split; [by right|]. split; [done|].
      intros k s [[= -> ->]|Hks]%elem_of_cons Hkt.
      * rewrite Forall_forall in Hall. apply Hall.
        apply list_elem_of_fmap. by exists (kb, sb).
      * eauto.
    + intros [= <- <-]. split; [left|]. split; [done|].
      intros k s [[= -> ->]|Hks]%elem_of_cons Hkt; [apply Qle_refl|].
      apply last_None in El.
      exfalso. eapply (filter_nil_not_elem_of _ _ (k, s)); eauto.
  - intros Hl. destruct (IH Hs Hl) as (Hin & Hle & Hmax).
    split; [by right|]. split; [done|].
    intros k s [[= -> ->]|Hks]%elem_of_cons Hkt; [done|eauto].
Qed.

(** The first row at or after [t] of a table sorted by key is the earliest
    such row. *)
Lemma asof_forward (t : Q) (right : list (Q * list cell)) kf sf :
  Sorted Qle right.*1 ->
  head (filter (fun kr => (t <= kr.1)%Q) right) = Some (kf, sf) ->
  (kf, sf) ∈ right /\ (t <= kf)%Q
  /\ forall k s, (k, s) ∈ right -> (t <= k)%Q -> (kf <= k)%Q.
Proof.
  intros Hs%Sorted_StronglySorted; [|apply _].
  induction right as [|[k0 s0] right IH]; [discriminate|].
  rewrite fmap_cons in Hs. apply StronglySorted_cons in Hs as [Hall Hs].
  rewrite filter_cons. simpl. destruct (decide (t <= k0)%Q) as [Hk0|Hk0].
  - intros [= <- <-]. split; [left|]. split; [done|].
    intros k s [[= -> ->]|Hks]%elem_of_cons Hkt; [apply Qle_refl|].
    rewrite Forall_forall in Hall. apply Hall.
    apply list_elem_of_fmap. by exists (k, s).
  - intros Hl. destruct (IH Hs Hl) as (Hin & Hle & Hmin).
    split; [by right|]. split; [done|].
    intros k s [[= -> ->]|Hks]%elem_of_cons Hkt; [done|eauto].
Qed.

(** Distances to [t], from facts on which side of [t] the keys lie. *)
Lemma nearer_from_below (t k k' : Q) :
  (k <= t)%Q ->
  ((k' <= t)%Q -> (k' <= k)%Q) ->
  ((t <= k')%Q -> (t - k <= k' - t)%Q) ->
  (Qabs (t - k) <= Qabs (t - k'))%Q.
Proof.
  intros Hk Hbelow Habove.
  rewrite (Qabs_pos (t - k)) by lra.
  destruct (Qle_cases k' t) as [H|H].
  - specialize (Hbelow H). rewrite Qabs_pos by lra. lra.
  - specialize (Habove H). rewrite Qabs_neg by lra. lra.
Qed.

Lemma nearer_from_above (t k k' : Q) :
  (t <= k)%Q ->
  ((t <= k')%Q -> (k <= k')%Q) ->
  ((k' <= t)%Q -> (k - t <= t - k')%Q) ->
  (Qabs (t - k) <= Qabs (t - k'))%Q.
Proof.
  intros Hk Habove Hbelow.
  rewrite (Qabs_neg (t - k)) by lra.
  destruct (Qle_cases k' t) as [H|H].
  - specialize (Hbelow H). rewrite Qabs_pos by lra. lra.
  - specialize (Habove H). rewrite Qabs_neg by lra. lra.
Qed.

(** [asof_nearest] on a non-empty table sorted by key picks a row whose key
    is at the least distance from [t]. *)
Lemma asof_nearest_spec (t : Q) (right : list (Q * list cell)) :
  Sorted Qle right.*1 -> right <> [] ->
  exists k s,
    (k, s) ∈ right /\ asof_nearest t right = Some s
    /\ forall k' s', (k', s') ∈ right -> (Qabs (t - k) <= Qabs (t - k'))%Q.
Proof.
  intros Hs Hne. unfold asof_nearest.
  destruct (last (filter (fun kr => (kr.1 <= t)%Q) right)) as [[kb sb]|] eqn:Eb;
    destruct (head (filter (fun kr => (t <= kr.1)%Q) right)) as [[kf sf]|] eqn:Ef.
  - destruct (asof_backward _ _ _ _ Hs Eb) as (Hinb & Hb & Hmax).
    destruct (asof_forward _ _ _ _ Hs Ef) as (Hinf & Hf & Hmin).
    simpl. case_decide as Hd.
    + exists kb, sb. split; [done|]. split; [done|].
      intros k' s' Hin. apply nearer_from_below; [done|eauto|].
      intros Hk'. specialize (Hmin _ _ Hin Hk'). lra.
    + exists kf, sf. split; [done|]. split; [done|].
      intros k' s' Hin. apply nearer_from_above; [done|eauto|].
      intros Hk'. specialize (Hmax _ _ Hin Hk'). lra.
  - destruct (asof_backward _ _ _ _ Hs Eb) as (Hinb & Hb & Hmax).
    apply head_None in Ef.
    exists kb, sb. split; [done|]. split; [done|].
    intros k' s' Hin. apply nearer_from_below; [done|eauto|].
    intros Hk'. exfalso. eapply (filter_nil_not_elem_of _ _ (k', s')); eauto.
  - destruct (asof_forward _ _ _ _ Hs Ef) as (Hinf & Hf & Hmin).
    apply last_None in Eb.
    exists kf, sf. split; [done|]. split; [done|].
    intros k' s' Hin. apply nearer_from_above; [done|eauto|].
    intros Hk'. exfalso. eapply (filter_nil_not_elem_of _ _ (k', s')); eauto.
  - apply last_None in Eb. apply head_None in Ef.
    destruct right as [|[k0 s0] right]; [done|].
    exfalso. destruct (Qle_cases k0 t) as [H|H].
    + eapply (filter_nil_not_elem_of _ _ (k0, s0)); [exact Eb|exact H|left].
    + eapply (filter_nil_not_elem_of _ _ (k0, s0)); [exact Ef|exact H|left].
Qed.

(** *** Columns by label *)

Lemma col_index_labels c df :
  col_index c df
  = match label_index c (labels df) with
    | Some i => Ok i
    | None => Raise (KeyError c)
    end.
Proof.
  unfold col_index, label_index, labels. rewrite list_find_fmap.
  change ((fun x : string => x = c) ∘ fst)
    with (fun cd : string * dtype => cd.1 = c).
  destruct (list_find _ (columns df)) as [[i cd]|]; reflexivity.
Qed.

Lemma col_index_same_labels c df df' :
  labels df = labels df' -> col_index c df = col_index c df'.
Proof. intros H. by rewrite !col_index_labels, H. Qed.

Lemma col_index_lookup c df i :
  col_index c df = Ok i -> exists d, columns df !! i = Some (c, d).
Proof.
  unfold col_index.
  destruct (list_find _ (columns df)) as [[j [c' d]]|] eqn:E; [|discriminate].
  intros [= <-]. apply list_find_Some in E as (Hl & Hc & _).
  simpl in Hc. subst c'. by exists d.
Qed.

Lemma col_index_has c df i : col_index c df = Ok i -> has_col c df = true.
Proof.
  intros (d & Hd)%col_index_lookup. unfold has_col, labels.
  apply bool_decide_eq_true. apply list_elem_of_fmap. exists (c, d).
  split; [done|]. by eapply list_elem_of_lookup_2.
Qed.

Lemma col_index_elem c df :
  c ∈ labels df -> exists i, col_index c df = Ok i.
Proof.
  intros Hc. rewrite col_index_labels. unfold label_index.
  destruct (list_find_elem_of (fun x => x = c) (labels df) c Hc eq_refl)
    as [[i x] ->].
  by exists i.
Qed.

Lemma imap_labels (f : nat -> string * dtype -> string * dtype) cols :
  (forall i cd, (f i cd).1 = cd.1) -> (imap f cols).*1 = cols.*1.
Proof.
  revert f. induction cols as [|cd cols IH]; intros f Hf; [done|].
  rewrite imap_cons, !fmap_cons, Hf. f_equal. apply IH. intros i x. apply Hf.
Qed.

Lemma promote_labels df : labels (promote df) = labels df.
Proof.
  unfold labels, promote; simpl. apply imap_labels.
  intros i cd. by destruct (existsb _ _).
Qed.

Lemma rename_labels m df :
  labels (rename m df) = (fun c => default c (m !! c)) <$> labels df.
Proof. unfold labels, rename; simpl. by rewrite <- !list_fmap_compose. Qed.

Lemma key_eqb_refl c : key_eqb c c = true.
Proof.
  unfold key_eqb. destruct c as [s|z|q|b|]; simpl;
    rewrite ?bool_decide_eq_true_2 by done; try reflexivity.
  rewrite (proj2 (Qeq_bool_iff q q) (Qeq_refl q)). reflexivity.
Qed.

(** The key of a left row is a label of the merged frame. *)
Lemma merge_columns_on on j L R :
  on ∈ L.*1 -> on ∈ (merge_columns on j L R).*1.
Proof.
  intros Hon. unfold merge_columns. rewrite fmap_app. apply elem_of_app. left.
  rewrite <- list_fmap_compose.
  apply list_elem_of_fmap in Hon as ([c d] & -> & Hin).
  apply list_elem_of_fmap. exists (c, d). split; [|done]. simpl.
  rewrite bool_decide_eq_false_2; [done|]. intros [? _]. done.
Qed.

(** An outer merge returns, and joins each left row to every right row
    with its key. *)
Lemma merge_outer_joins on L R i j :
  col_index on L = Ok i -> col_index on R = Ok j ->
  exists out,
    merge Outer false on L R = Ok out
    /\ on ∈ labels out
    /\ forall l r, l ∈ rows L -> r ∈ rows R ->
         key_eqb (get i l) (get j r) = true ->
         (l ++ delete j r) ∈ rows out.
Proof.
  intros Hi Hj. unfold merge. rewrite Hi, Hj. simpl.
  eexists. split; [reflexivity|]. split.
  - rewrite promote_labels. unfold labels; simpl.
    apply merge_columns_on.
    apply col_index_has in Hi. unfold has_col in Hi.
    by apply bool_decide_eq_true in Hi.
  - intros l r Hl Hr Hkey. simpl. apply elem_of_app. left.
    apply list_elem_of_join.
    set (joined := fun l : list cell =>
           match filter (fun r => key_eqb (get i l) (get j r) = true) (rows R) with
           | [] => [l ++ replicate (length (columns R) - 1) CNaN]
           | ms => (fun r => l ++ delete j r) <$> ms
           end).
    exists (joined l). split; [|by apply (list_elem_of_fmap_2 joined)].
    assert (Hin : r ∈ filter (fun r => key_eqb (get i l) (get j r) = true) (rows R)).
    { apply list_elem_of_filter. done. }
    unfold joined.
    destruct (filter _ (rows R)) as [|m ms]; [inversion Hin|].
    by apply (list_elem_of_fmap_2 (fun r => l ++ delete j r)).
Qed.

(** Sorting returns for a label of the frame, and permutes the rows. *)
Lemma sort_values_permutes c df :
  c ∈ labels df ->
  exists out, sort_values c df = Ok out /\ rows out ≡ₚ rows df.
Proof.
  intros (i & Hi)%col_index_elem. unfold sort_values. rewrite Hi. simpl.
  eexists. split; [reflexivity|]. simpl. apply merge_sort_Permutation.
Qed.

(** *** The behaviour timestamps *)

Lemma wbind_quiet {A B} (a : A) (k : A -> warned B) :
  wbind (quiet (Ok a)) k = k a.
Proof. unfold wbind, quiet. by destruct (k a). Qed.

Lemma behav_keys b :
  mapM (fun r => num (get 1 r)) (rows (behav_frame b)) = Some b.*2.
Proof.
  apply mapM_Some. unfold behav_frame; simpl.
  apply Forall2_fmap, Forall_Forall2_diag, Forall_forall. done.
Qed.

Lemma select_fm_ts data p q :
  col_index "fm_fp" data = Ok p ->
  col_index "ts" data = Ok q ->
  columns data !! q = Some ("ts", DFloat) ->
  exists dp,
    select ["fm_fp"; "ts"] data
    = Ok {| columns := [("fm_fp", dp); ("ts", DFloat)];
            rows := (fun r => [get p r; get q r]) <$> rows data |}.
Proof.
  intros Hp Hq Hd. destruct (col_index_lookup _ _ _ Hp) as [dp Hdp].
  exists dp. unfold select. simpl. rewrite Hp, Hq. simpl.
  by rewrite Hdp, Hd.
Qed.

(** The nearest-time merge of the behaviour timestamps onto the two master
    columns. *)
Lemma merge_asof_behav b dp sub kr :
  mapM (fun r => num (get 1 r)) sub = Some kr ->
  Sorted Qle kr -> Sorted Qle b.*2 ->
  exists m,
    merge_asof "ts" (behav_frame b)
      {| columns := [("fm_fp", dp); ("ts", DFloat)]; rows := sub |} = Ok m
    /\ labels m = ["fm_behav"; "ts"; "fm_fp"]
    /\ rows m
       = (fun tl =>
            tl.2 ++ match asof_nearest tl.1 (zip kr sub) with
                    | Some r => delete 1%nat r
                    | None => [CNaN]
                    end) <$> zip b.*2 (rows (behav_frame b)).
Proof.
  intros Hkr Hsr Hsl. unfold merge_asof.
  assert (Hi : col_index "ts" (behav_frame b) = Ok 1%nat) by reflexivity.
  assert (Hj : col_index "ts" {| columns := [("fm_fp", dp); ("ts", DFloat)];
                                 rows := sub |} = Ok 1%nat) by reflexivity.
  rewrite Hi, Hj. cbn [bind]. simpl negb. cbv iota.
  unfold asof_keys. rewrite behav_keys. rewrite decide_True by done.
  cbn [bind rows]. rewrite Hkr. rewrite decide_True by done. cbn [bind].
  eexists. split; [reflexivity|]. split; [|reflexivity].
  rewrite promote_labels. reflexivity.
Qed.

(** The step on its own.  Without a [ts] column the master comes back as
    it is, with the warning.  With one, for a master whose [ts] column
    holds numbers in ascending order and for behaviour timestamps in
    ascending order (what [merge_asof] requires), the step returns a table
    in which every behaviour row [(fm, t)] sits on a master row [l] whose
    timestamp is at the least distance from [t] among all master rows: the
    table has the row [l] followed by [fm] and [t]. *)
Lemma align_behav_merges (data : frame) (b : list (Z * Q)) :
  (has_col "ts" data = false ->
     align_behav data (behav_frame b)
     = (["No FP TS supplied, cannot align Behavior frames"], Ok data))
  /\ (forall p q kr,
        col_index "fm_fp" data = Ok p ->
        col_index "ts" data = Ok q ->
        columns data !! q = Some ("ts", DFloat) ->
        mapM (fun r => num (get q r)) (rows data) = Some kr ->
        Sorted Qle kr -> kr <> [] ->
        Sorted Qle b.*2 ->
        exists w out,
          align_behav data (behav_frame b) = (w, Ok out)
          /\ forall fm t, (fm, t) ∈ b ->
               exists l tl,
                 l ∈ rows data /\ num (get q l) = Some tl
                 /\ (forall l' t', l' ∈ rows data -> num (get q l') = Some t' ->
                       (Qabs (t - tl) <= Qabs (t - t'))%Q)
                 /\ (l ++ [CInt fm; CFloat t]) ∈ rows out).
Proof.
  split.
  { intros H. unfold align_behav. by rewrite H. }
  intros p q kr Hp Hq Hd Hkr Hsorted Hne Hb.
  destruct (select_fm_ts _ _ _ Hp Hq Hd) as [dp Hsel].
  set (sub := (fun r => [get p r; get q r]) <$> rows data) in *.
  assert (Hkr2 : Forall2 (fun l k => num (get q l) = Some k) (rows data) kr)
    by (by apply mapM_Some).
  assert (Hsubkeys : mapM (fun r => num (get 1 r)) sub = Some kr).
  { apply mapM_Some. unfold sub. apply Forall2_fmap_l. exact Hkr2. }
  destruct (merge_asof_behav b dp sub kr Hsubkeys Hsorted Hb)
    as (m & Hm & Hlm & Hrm).
  set (tb := rename {["ts" := "ts_behav"]} m).
  assert (Hltb : labels tb = ["fm_behav"; "ts_behav"; "fm_fp"]).
  { unfold tb. rewrite rename_labels, Hlm. reflexivity. }
  assert (Hj : col_index "fm_fp" tb = Ok 2%nat).
  { rewrite col_index_labels, Hltb. reflexivity. }
  destruct (merge_outer_joins "fm_fp" data tb p 2 Hp Hj)
    as (merged & Hmerged & Hon & Hjoin).
  destruct (sort_values_permutes "fm_fp" merged Hon) as (out & Hout & Hperm).
  assert (Hrun : exists w, align_behav data (behav_frame b) = (w, Ok out)).
  { unfold align_behav. rewrite (col_index_has _ _ _ Hq).
    rewrite Hsel, wbind_quiet. rewrite Hm, wbind_quiet. fold tb.
    unfold duplicated. rewrite Hj. cbn [bind]. rewrite wbind_quiet.
    destruct (filter _ (rows tb)) as [|d ds].
    - change (wbind ([], Ok tt) ?k) with (wbind (quiet (Ok tt)) k).
      rewrite wbind_quiet, Hmerged, wbind_quiet, Hout. by eexists.
    - unfold wbind at 1. rewrite Hmerged, wbind_quiet, Hout. by eexists. }
  destruct Hrun as [w Hrun]. exists w, out. split; [exact Hrun|].
  intros fm t Hin.
  (* the table the nearest row is picked from *)
  assert (Hlen : length kr = length sub).
  { unfold sub. rewrite length_fmap. symmetry. by eapply Forall2_length. }
  destruct (asof_nearest_spec t (zip kr sub)) as (k & s & Hks & Hpick & Hnear).
  { rewrite fst_zip by lia. done. }
  { destruct kr, sub; simpl in *; try done. }
  apply elem_of_lookup_zip_with_1 in Hks as (n & k0 & s0 & [= -> ->] & Hkn & Hsn).
  unfold sub in Hsn. apply list_lookup_fmap_Some in Hsn as (l & -> & Hln).
  exists l, k0.
  split; [by eapply list_elem_of_lookup_2|].
  split; [exact (Forall2_lookup_lr _ _ _ n _ _ Hkr2 Hln Hkn)|].
  split.
  - intros l' t' Hl' Ht'.
    apply list_elem_of_lookup in Hl' as [n' Hn'].
    destruct (Forall2_lookup_l _ _ _ _ _ Hkr2 Hn') as (t'' & Hkn' & Ht'').
    assert (t'' = t') by congruence. subst t''.
    apply (Hnear t' [get p l'; get q l']).
    apply (elem_of_lookup_zip_with_2 pair kr sub t' [get p l'; get q l']
             (t', []) n');
      [done|]. unfold sub. by rewrite list_lookup_fmap, Hn'.
  - rewrite Hperm.
    apply (Hjoin l [CInt fm; CFloat t; get p l]).
    + by eapply list_elem_of_lookup_2.
    + unfold tb, rename; simpl. rewrite Hrm.
      apply list_elem_of_fmap. exists (t, [CInt fm; CFloat t]).
      split; [simpl; by rewrite Hpick|].
      apply list_elem_of_lookup in Hin as [i Hi].
      apply (elem_of_lookup_zip_with_2 pair _ _ t [CInt fm; CFloat t] (t, []) i).
      * by rewrite list_lookup_fmap, Hi.
      * unfold behav_frame; simpl. by rewrite list_lookup_fmap, Hi.
    + apply key_eqb_refl.
Qed.

(** Writing a column back over itself changes nothing. *)
Lemma put_column_id i rs :
  Forall (fun r => (i < length r)%nat) rs ->
  put_column i (column_at i rs) rs = rs.
Proof.
  intros Hall. unfold put_column, column_at. apply list_eq. intros k.
  rewrite list_lookup_imap, list_lookup_fmap.
  destruct (rs !! k) as [r|] eqn:E; [|reflexivity]. simpl. f_equal.
  apply list_insert_id. unfold get.
  rewrite Forall_forall in Hall.
  destruct (lookup_lt_is_Some_2 r i (Hall r (list_elem_of_lookup_2 _ _ _ E)))
    as [x Hx].
  by rewrite Hx.
Qed.

(** A well-typed behaviour-timestamp source that needs no coercion loads as
    [behav_frame]. *)
Lemma load_ts_behav_frame repr_float b :
  load_ts no_coercion repr_float
    {| dtypes := [DInt; DFloat];
       cells := (fun x => [CInt x.1; CFloat x.2]) <$> b |}
  = Ok (behav_frame b, "ts_behav").
Proof.
  assert (Hall : forall i, (i < 2)%nat ->
            Forall (fun r : list cell => (i < length r)%nat)
                   ((fun x : Z * Q => [CInt x.1; CFloat x.2]) <$> b)).
  { intros i Hi. apply Forall_fmap, Forall_forall. intros x _. simpl. lia. }
  unfold load_ts, df_to_numeric, no_coercion. simpl.
  rewrite (put_column_id 0) by (apply Hall; lia).
  rewrite (put_column_id 1) by (apply Hall; lia).
  reflexivity.
Qed.

(** *** The step within [align_ts] *)

Lemma wbind_Ok {A B} (m : warned A) (k : A -> warned B) w b :
  wbind m k = (w, Ok b) ->
  exists w1 a w2, m = (w1, Ok a) /\ k a = (w2, Ok b) /\ w = w1 ++ w2.
Proof.
  destruct m as [w1 [a|e]]; simpl; [|discriminate].
  destruct (k a) as [w2 r] eqn:E. intros [= <- ->]. by exists w1, a, w2.
Qed.

Lemma quiet_Ok {A} (m : result A) w a : quiet m = (w, Ok a) -> m = Ok a.
Proof. unfold quiet. by intros [= _ ->]. Qed.

(** A merge keeps every left row, followed by what it joined to it. *)
Lemma merge_keeps_left h on L R out :
  merge h false on L R = Ok out ->
  forall l, l ∈ rows L -> exists suffix, (l ++ suffix) ∈ rows out.
Proof.
  unfold merge.
  destruct (col_index on L) as [i|e]; [|discriminate].
  destruct (col_index on R) as [j|e]; [|discriminate].
  simpl. intros [= <-] l Hl. simpl.
  set (joined := fun l : list cell =>
         match filter (fun r => key_eqb (get i l) (get j r) = true) (rows R) with
         | [] => [l ++ replicate (length (columns R) - 1) CNaN]
         | ms => (fun r => l ++ delete j r) <$> ms
         end).
  assert (Hj : exists suffix, (l ++ suffix) ∈ joined l).
  { unfold joined. destruct (filter _ (rows R)) as [|m ms].
    - eexists. left.
    - exists (delete j m). rewrite fmap_cons. left. }
  destruct Hj as [suffix Hj]. exists suffix.
  apply elem_of_app. left. apply list_elem_of_join. exists (joined l).
  split; [done|]. by apply (list_elem_of_fmap_2 joined).
Qed.

Lemma sort_values_rows c df out :
  sort_values c df = Ok out -> rows out ≡ₚ rows df.
Proof.
  unfold sort_values. destruct (col_index c df) as [i|e]; [|discriminate].
  simpl. intros [= <-]. simpl. apply merge_sort_Permutation.
Qed.

(** The merge of the events keeps every row of the master, followed by
    what it joined to it. *)
Lemma merge_events_keeps data evts w out :
  merge_events data evts = (w, Ok out) ->
  forall r, r ∈ rows data -> exists suffix, (r ++ suffix) ∈ rows out.
Proof.
  unfold merge_events. destruct evts as [|e evts].
  - intros [= _ <-] r Hr. exists []. by rewrite app_nil_r.
  - intros H r Hr.
    apply wbind_Ok in H as (? & evts' & ? & _ & H & _).
    apply wbind_Ok in H as (? & dup & ? & _ & H & _).
    apply wbind_Ok in H as (? & ? & ? & _ & H & _).
    apply wbind_Ok in H as (? & sub & ? & _ & H & _).
    apply wbind_Ok in H as (? & d & ? & Hd%quiet_Ok & H%quiet_Ok & _).
    destruct (merge_keeps_left _ _ _ _ _ Hd r Hr) as [suffix Hs].
    exists suffix. by rewrite (sort_values_rows _ _ _ H).
Qed.

Section Step.
Variable to_numeric : dtype * list cell -> dtype * list cell.
Variable repr_float : Q -> string.

Abbreviation load_all := (load_all to_numeric repr_float).
Abbreviation align_ts := (align_ts to_numeric repr_float).

(** What [align_ts] does after the loop, when the loop leaves behaviour
    timestamps and no frame timestamps in [ts_dict]. *)
Lemma align_ts_after_load data ts_files ts_dict ts_behav rest :
  load_all ts_files [] = Ok ts_dict ->
  dict_pop "ts_fp" ts_dict = None ->
  dict_pop "ts_behav" ts_dict = Some (ts_behav, rest) ->
  align_ts data ts_files
  = (d1 <~ align_behav (rename internal_names data) ts_behav ;;
     evts <~ align_sources d1 rest ;;
     data' <~ merge_events d1 evts ;;
     ([], Ok (data', rest))).
Proof.
  intros Hl Hfp Hb. unfold Harmonizer.align_ts.
  rewrite Hl, wbind_quiet, Hfp.
  change (wbind ([], Ok ?a) ?k) with (wbind (quiet (Ok a)) k) at 1.
  rewrite wbind_quiet. cbn [fst snd]. rewrite Hb.
  destruct (align_behav (rename internal_names data) ts_behav) as [w [d|e]];
    [|reflexivity].
  cbn [wbind fst snd]. by rewrite app_nil_r.
Qed.

End Step.


End HarmonizerFacts.

Module StringFacts.

Lemma length_append (s t : string) :
  String.length (s +:+ t) = (String.length s + String.length t)%nat.
Proof. induction s as [|a s IH]; simpl; [reflexivity|]. by rewrite IH. Qed.

(** A suffix can be cancelled. *)
Lemma append_inj_r (t s1 s2 : string) : s1 +:+ t = s2 +:+ t -> s1 = s2.
Proof.
  revert s2. induction s1 as [|a s1 IH]; intros [|b s2] H; simpl in H.
  - reflexivity.
  - apply (f_equal String.length) in H. simpl in H.
    rewrite !length_append in H. simpl in H. lia.
  - apply (f_equal String.length) in H. simpl in H.
    rewrite !length_append in H. simpl in H. lia.
  - injection H as -> H. f_equal. by apply IH.
Qed.

End StringFacts.

Module PeakMarkFacts.
Import Peaks.

Section Marks.
Variable find_peaks : list float -> float -> list nat.
Variable prominence : float.

Abbreviation mark_row := (mark_row find_peaks prominence).
Abbreviation mark_rows := (mark_rows find_peaks prominence).

Lemma column_values c t : c ∈ columns t -> column c t = Ok (values c t).
Proof. intros H. unfold column. by rewrite decide_True. Qed.

Lemma loc_set_rows t index c vals :
  rows (loc_set t index c vals) = loc_row index c vals <$> rows t.
Proof. reflexivity. Qed.

Lemma roi_loop_none rois dat_sig :
  Forall (fun roi => roi ∈ columns dat_sig) rois ->
  forall data, exists out,
    roi_loop find_peaks rois prominence None data dat_sig = Ok out
    /\ rows out = mark_row dat_sig rois <$> rows data.
Proof.
  induction 1 as [|roi rois Hroi _ IH]; intros data; simpl.
  - exists data. split; [reflexivity|]. by rewrite list_fmap_id.
  - rewrite (column_values _ _ Hroi). simpl.
    destruct (IH (loc_set data (rows dat_sig).*1 (roi +:+ "-pks")
                    (Flag <$> peak_vector (length (values roi dat_sig))
                       (find_peaks (as_float <$> values roi dat_sig) prominence))))
      as (out & E & Hrows).
    exists out. split; [exact E|]. rewrite Hrows, loc_set_rows.
    rewrite <- list_fmap_compose. apply list_fmap_ext. intros i ir _. simpl.
    unfold flags. unfold values at 1. by rewrite length_fmap.
Qed.

Lemma sig_loop_none groups rois sigs :
  Forall (fun sg => Forall (fun roi => roi ∈ columns sg.2) rois) groups ->
  forall data, exists out,
    sig_loop find_peaks groups rois prominence None (Some sigs) data = Ok out
    /\ rows out = mark_rows groups sigs rois <$> rows data.
Proof.
  induction 1 as [|[sig g] groups Hg _ IH]; intros data; simpl.
  - exists data. split; [reflexivity|]. by rewrite list_fmap_id.
  - case_decide.
    + destruct (roi_loop_none rois g Hg data) as (d1 & E1 & H1).
      rewrite E1. simpl. destruct (IH d1) as (out & E & Hrows).
      exists out. split; [exact E|]. rewrite Hrows, H1.
      rewrite <- list_fmap_compose. apply list_fmap_ext. intros i ir _. simpl.
      unfold mark_rows at 2. simpl. by rewrite decide_True.
    + simpl. destruct (IH data) as (out & E & Hrows).
      exists out. split; [exact E|]. rewrite Hrows.
      apply list_fmap_ext. intros i ir _.
      unfold mark_rows at 2. simpl. by rewrite decide_False.
Qed.

Lemma loc_row_fst index c vals ir : (loc_row index c vals ir).1 = ir.1.
Proof.
  unfold loc_row. destruct (list_find _ _) as [[? [? ?]]|]; reflexivity.
Qed.

Lemma loc_row_signal index c vals ir :
  signal (loc_row index c vals ir).2 = signal ir.2.
Proof.
  unfold loc_row. destruct (list_find _ _) as [[? [? ?]]|]; reflexivity.
Qed.

Lemma loc_row_absent index c vals ir :
  ir.1 ∉ index -> loc_row index c vals ir = ir.
Proof.
  intros Hnot. unfold loc_row.
  destruct (list_find _ _) as [[k [i v]]|] eqn:E; [|reflexivity].
  apply list_find_Some in E as (Hk & Hi & _). simpl in Hi. subst i.
  apply lookup_zip_with_Some in Hk as (x & y & [= <- <-] & Hx & Hy).
  exfalso. apply Hnot. eapply list_elem_of_lookup_2; eauto.
Qed.

Lemma loc_row_at index c vals ir p v :
  NoDup index -> index !! p = Some ir.1 -> vals !! p = Some v ->
  loc_row index c vals ir
  = (ir.1, {| signal := signal ir.2; cells := <[c := v]> (cells ir.2) |}).
Proof.
  intros Hnd Hp Hv. unfold loc_row.
  assert (E : list_find (fun iv : nat * cell => iv.1 = ir.1) (zip index vals)
              = Some (p, (ir.1, v))).
  { apply list_find_Some. split; [|split; [reflexivity|]].
    - apply lookup_zip_with_Some. eauto.
    - intros j y Hj Hlt Hy.
      apply lookup_zip_with_Some in Hj as (x & y' & -> & Hx & _). simpl in Hy.
      subst x. pose proof (NoDup_lookup _ _ _ _ Hnd Hx Hp). lia. }
  by rewrite E.
Qed.

Lemma mark_row_fst g rois : forall ir, (mark_row g rois ir).1 = ir.1.
Proof.
  induction rois as [|roi rois IH]; intros ir; simpl; [reflexivity|].
  unfold mark_row in *. simpl. rewrite IH. apply loc_row_fst.
Qed.

Lemma mark_row_signal g rois : forall ir, signal (mark_row g rois ir).2 = signal ir.2.
Proof.
  induction rois as [|roi rois IH]; intros ir; simpl; [reflexivity|].
  unfold mark_row in *. simpl. rewrite IH. apply loc_row_signal.
Qed.

Lemma mark_row_absent g rois ir :
  ir.1 ∉ (rows g).*1 -> mark_row g rois ir = ir.
Proof.
  intros Hnot. induction rois as [|roi rois IH]; [reflexivity|].
  unfold mark_row in *. simpl. by rewrite loc_row_absent.
Qed.

Lemma flags_length g roi :
  length (flags find_peaks prominence g roi) = length (rows g).
Proof. unfold flags, peak_vector. by rewrite !length_fmap, length_seq. Qed.

(** The cells of a row of the slice after the loop over the regions. *)
Lemma mark_row_cells g rois p :
  NoDup (rows g).*1 ->
  forall ir, (rows g).*1 !! p = Some ir.1 ->
    (forall c, (forall roi, roi ∈ rois -> c <> roi +:+ "-pks") ->
       cells (mark_row g rois ir).2 !! c = cells ir.2 !! c)
    /\ (forall roi, roi ∈ rois ->
          cells (mark_row g rois ir).2 !! (roi +:+ "-pks")
          = flags find_peaks prominence g roi !! p).
Proof.
  intros Hnd. induction rois as [|roi rois IH] using rev_ind; intros ir Hp.
  - split; [reflexivity|]. intros roi Hroi. inversion Hroi.
  - unfold mark_row in *. rewrite foldl_app. simpl.
    set (ir' := foldl _ ir rois) in *.
    assert (Hp' : (rows g).*1 !! p = Some ir'.1).
    { pose proof (mark_row_fst g rois ir) as Hf. unfold mark_row in Hf.
      fold ir' in Hf. by rewrite Hf. }
    destruct (lookup_lt_is_Some_2 (flags find_peaks prominence g roi) p) as [v Hv].
    { rewrite flags_length. apply lookup_lt_Some in Hp. by rewrite length_fmap in Hp. }
    rewrite (loc_row_at _ _ _ _ p v Hnd Hp' Hv). simpl.
    destruct (IH ir Hp) as [IH1 IH2]. fold ir' in IH1, IH2. split.
    + intros c Hc. rewrite lookup_insert_ne.
      * apply IH1. intros r Hr. apply Hc. apply elem_of_app. by left.
      * intros <-. eapply Hc; [|reflexivity]. apply elem_of_app. right. left.
    + intros r Hr. destruct (decide (r = roi)) as [->|Hne].
      * by rewrite lookup_insert_eq.
      * rewrite lookup_insert_ne.
        -- apply IH2. apply elem_of_app in Hr as [Hr|Hr]; [exact Hr|].
           apply list_elem_of_singleton in Hr. done.
        -- intros Heq. apply Hne. symmetry.
           by apply (StringFacts.append_inj_r "-pks").
Qed.

Lemma mark_rows_fst groups sigs rois :
  forall ir, (mark_rows groups sigs rois ir).1 = ir.1.
Proof.
  induction groups as [|[k g] groups IH]; intros ir; [reflexivity|].
  unfold mark_rows in *. simpl. rewrite IH.
  case_decide; [apply mark_row_fst|reflexivity].
Qed.

Lemma mark_rows_signal groups sigs rois :
  forall ir, signal (mark_rows groups sigs rois ir).2 = signal ir.2.
Proof.
  induction groups as [|[k g] groups IH]; intros ir; [reflexivity|].
  unfold mark_rows in *. simpl. rewrite IH.
  case_decide; [apply mark_row_signal|reflexivity].
Qed.

Lemma NoDup_fst_inj {A B} (l : list (A * B)) x y :
  NoDup l.*1 -> x ∈ l -> y ∈ l -> x.1 = y.1 -> x = y.
Proof.
  intros Hnd Hx Hy Heq.
  apply list_elem_of_lookup in Hx as [i Hi]. apply list_elem_of_lookup in Hy as [j Hj].
  assert (Hi' : l.*1 !! i = Some x.1) by (by rewrite list_lookup_fmap, Hi).
  assert (Hj' : l.*1 !! j = Some x.1) by (by rewrite Heq, list_lookup_fmap, Hj).
  pose proof (NoDup_lookup _ _ _ _ Hnd Hi' Hj') as ->. congruence.
Qed.

Lemma rows_own_group data ir :
  NoDup (rows data).*1 -> ir ∈ rows data -> own_group data ir.
Proof.
  intros Hnd Hin s Hs Hi.
  apply list_elem_of_fmap in Hi as (ir' & Heq & Hin').
  apply list_elem_of_filter in Hin' as [Hs' Hin'].
  pose proof (NoDup_fst_inj _ _ _ Hnd Hin Hin' Heq) as ->. done.
Qed.

Lemma mark_rows_groupby data sigs rois keys :
  NoDup keys ->
  forall ir, own_group data ir ->
    mark_rows ((fun s => (s, get_group s data)) <$> keys) sigs rois ir
    = match signal ir.2 with
      | Some s =>
          if decide (s ∈ keys) then
            if decide (s ∈ sigs) then mark_row (get_group s data) rois ir else ir
          else ir
      | None => ir
      end.
Proof.
  induction 1 as [|k keys Hk Hnd IH]; intros ir Hown.
  - simpl. destruct (signal ir.2); [|reflexivity].
    destruct (decide (s ∈ [])) as [Hc|]; [inversion Hc|reflexivity].
  - rewrite fmap_cons. unfold mark_rows in *. simpl.
    destruct (decide (signal ir.2 = Some k)) as [Hs|Hs].
    + set (ir1 := if decide (k ∈ sigs) then mark_row (get_group k data) rois ir else ir).
      assert (H1 : ir1.1 = ir.1 /\ signal ir1.2 = signal ir.2).
      { unfold ir1. case_decide; [|done].
        by rewrite mark_row_fst, mark_row_signal. }
      destruct H1 as [Hf1 Hs1].
      rewrite IH.
      2:{ intros s'. rewrite Hs1, Hf1. apply Hown. }
      rewrite Hs1, Hs. rewrite (decide_False (P := k ∈ keys)) by done.
      rewrite (decide_True (P := k ∈ k :: keys)) by left. reflexivity.
    + assert (Hid : (if decide (k ∈ sigs)
                     then mark_row (get_group k data) rois ir else ir) = ir).
      { case_decide; [|done]. apply mark_row_absent. by apply Hown. }
      rewrite Hid, (IH ir Hown).
      destruct (signal ir.2) as [s|]; [|reflexivity].
      destruct (decide (s ∈ keys)) as [Hin|Hin].
      * rewrite (decide_True (P := s ∈ k :: keys)) by (by right). reflexivity.
      * rewrite (decide_False (P := s ∈ k :: keys)); [reflexivity|].
        intros Hc. apply elem_of_cons in Hc as [->|Hc]; [by apply Hs|done].
Qed.

Lemma peak_keys_elem data ir s :
  ir ∈ rows data -> signal ir.2 = Some s -> s ∈ group_keys data.
Proof.
  intros Hin Hs. unfold group_keys. rewrite merge_sort_Permutation.
  apply elem_of_remove_dups, list_elem_of_omap. eauto.
Qed.

Lemma peak_keys_NoDup data : NoDup (group_keys data).
Proof.
  unfold group_keys. rewrite merge_sort_Permutation. apply NoDup_remove_dups.
Qed.

Lemma group_NoDup data s :
  NoDup (rows data).*1 -> NoDup (rows (get_group s data)).*1.
Proof.
  intros H. eapply sublist_NoDup; [exact H|].
  apply fmap_sublist. simpl. apply sublist_filter.
Qed.

(** X2: without a window width, [find_pks] returns; it keeps the rows, their
    index labels, their signal labels and every cell other than the peak
    indicators in place, leaves the rows of unselected channels alone, and
    in a selected channel the column [roi-pks] is true exactly at the
    positions [find_peaks] reports for the channel's series of [roi]. *)
Theorem find_pks_marks data rois sigs :
  NoDup (rows data).*1 ->
  Forall (fun roi => roi ∈ columns data) rois ->
  exists out,
    find_pks find_peaks data rois prominence None (Some sigs) = Ok out
    /\ length (rows out) = length (rows data)
    /\ (forall k ir ir',
          rows data !! k = Some ir -> rows out !! k = Some ir' ->
          ir'.1 = ir.1 /\ signal ir'.2 = signal ir.2
          /\ (forall c, (forall roi, roi ∈ rois -> c <> roi +:+ "-pks") ->
                cells ir'.2 !! c = cells ir.2 !! c)
          /\ ((forall s, signal ir.2 = Some s -> s ∉ sigs) -> ir' = ir))
    /\ (forall s roi, s ∈ sigs -> roi ∈ rois ->
          values (roi +:+ "-pks") (get_group s out)
          = Flag <$> peak_vector (length (rows (get_group s data)))
                       (find_peaks (as_float <$> values roi (get_group s data))
                                   prominence)).
Proof.
  intros Hnd Hrois. unfold find_pks, groupby.
  destruct (sig_loop_none ((fun s => (s, get_group s data)) <$> group_keys data)
              rois sigs) with (data := data) as (out & E & Hrows).
  { apply Forall_fmap, Forall_forall. intros s _. exact Hrois. }
  exists out. split; [exact E|]. split; [by rewrite Hrows, length_fmap|].
  assert (Hmark : forall ir, ir ∈ rows data ->
            mark_rows ((fun s => (s, get_group s data)) <$> group_keys data)
              sigs rois ir
            = match signal ir.2 with
              | Some s => if decide (s ∈ sigs)
                          then mark_row (get_group s data) rois ir else ir
              | None => ir
              end).
  { intros ir Hin.
    rewrite (mark_rows_groupby data sigs rois _ (peak_keys_NoDup data) ir
               (rows_own_group _ _ Hnd Hin)).
    destruct (signal ir.2) as [s|] eqn:Hs; [|reflexivity].
    rewrite decide_True; [reflexivity|]. eapply peak_keys_elem; eauto. }
  split.
  - intros k ir ir' Hk Hk'. rewrite Hrows, list_lookup_fmap, Hk in Hk'.
    injection Hk' as <-.
    assert (Hin : ir ∈ rows data) by (eapply list_elem_of_lookup_2; eauto).
    split; [apply mark_rows_fst|]. split; [apply mark_rows_signal|].
    rewrite (Hmark ir Hin). split.
    + intros c Hc. destruct (signal ir.2) as [s|] eqn:Hs; [|reflexivity].
      case_decide; [|reflexivity].
      assert (Hg : ir ∈ rows (get_group s data)).
      { apply list_elem_of_filter. done. }
      apply list_elem_of_lookup in Hg as [p Hp].
      refine (proj1 (mark_row_cells _ rois p (group_NoDup _ _ Hnd) ir _) c Hc).
      by rewrite list_lookup_fmap, Hp.
    + intros Hun. destruct (signal ir.2) as [s|]; [|reflexivity].
      rewrite decide_False; [reflexivity|]. by apply Hun.
  - intros s roi Hs Hroi. fold (flags find_peaks prominence (get_group s data) roi).
    unfold values at 1. unfold get_group at 1. simpl. rewrite Hrows.
    rewrite PoolerFacts.filter_fmap.
    rewrite (list_filter_iff _ (fun ir : nat * row => signal ir.2 = Some s)).
    2:{ intros ir. by rewrite mark_rows_signal. }
    rewrite <- list_fmap_compose.
    apply list_eq. intros p. rewrite list_lookup_fmap.
    change (filter (fun ir : nat * row => signal ir.2 = Some s) (rows data))
      with (rows (get_group s data)).
    destruct (rows (get_group s data) !! p) as [ir|] eqn:Hp; simpl.
    + assert (Hin : ir ∈ rows (get_group s data)) by (eapply list_elem_of_lookup_2; eauto).
      apply list_elem_of_filter in Hin as [Hsig Hin].
      rewrite (Hmark ir Hin), Hsig, decide_True by done.
      rewrite (proj2 (mark_row_cells _ rois p (group_NoDup _ s Hnd) ir
                        ltac:(by rewrite list_lookup_fmap, Hp)) roi Hroi).
      destruct (lookup_lt_is_Some_2 (flags find_peaks prominence (get_group s data) roi) p)
        as [v Hv].
      { rewrite flags_length. eapply lookup_lt_Some; eauto. }
      by rewrite Hv.
    + symmetry. apply lookup_ge_None. rewrite flags_length.
      by apply lookup_ge_None.
Qed.

(** X3: with a window width, on a frame that has no peak-indicator column
    for the first region yet, [find_pks] raises [KeyError] as soon as one
    channel with rows is selected. *)
Theorem find_pks_window_raises data roi rois w sigs s :
  s ∈ sigs -> s ∈ group_keys data ->
  roi ∈ columns data -> roi +:+ "-pks" ∉ columns data ->
  find_pks find_peaks data (roi :: rois) prominence (Some w) (Some sigs)
  = Raise (KeyError (roi +:+ "-pks")).
Proof.
  intros Hs Hkey Hroi Hpks. unfold find_pks, groupby.
  generalize data at 3. revert Hkey. generalize (group_keys data).
  induction l as [|k keys IH]; intros Hkey d; [inversion Hkey|].
  rewrite fmap_cons. simpl. case_decide as Hk.
  - unfold column. simpl. rewrite decide_True by done. simpl.
    rewrite decide_False by done. reflexivity.
  - simpl. apply IH. apply elem_of_cons in Hkey as [->|Hkey]; done.
Qed.

Lemma roi_loop_shape rois freq_wd :
  forall data dat_sig out,
    roi_loop find_peaks rois prominence freq_wd data dat_sig = Ok out ->
    (forall x, x ∈ columns data -> x ∈ columns out)
    /\ length (rows out) = length (rows data).
Proof.
  induction rois as [|roi rois IH]; simpl; intros data dat_sig out H.
  - by injection H as <-.
  - destruct (column roi dat_sig) as [dat|e]; simpl in H; [|discriminate].
    assert (Hset : forall idx c vals,
              (forall x, x ∈ columns data -> x ∈ columns (loc_set data idx c vals))
              /\ length (rows (loc_set data idx c vals)) = length (rows data)).
    { intros idx c vals. split; [|by rewrite loc_set_rows, length_fmap].
      intros x Hx. unfold loc_set; simpl. case_decide; [done|].
      apply elem_of_app. by left. }
    destruct freq_wd as [w|].
    + destruct (column (roi +:+ "-pks") dat_sig) as [pk|e]; simpl in H;
        [|discriminate].
      destruct (IH _ _ _ H) as [Hc Hl]. destruct (Hset (rows dat_sig).*1
        (roi +:+ "-pks") (Flag <$> peak_vector (length dat)
                            (find_peaks (as_float <$> dat) prominence))) as [Hc' Hl'].
      split; [intros x Hx; by apply Hc, Hc'|by rewrite Hl, Hl'].
    + destruct (IH _ _ _ H) as [Hc Hl]. destruct (Hset (rows dat_sig).*1
        (roi +:+ "-pks") (Flag <$> peak_vector (length dat)
                            (find_peaks (as_float <$> dat) prominence))) as [Hc' Hl'].
      split; [intros x Hx; by apply Hc, Hc'|by rewrite Hl, Hl'].
Qed.

Lemma sig_loop_shape groups rois freq_wd sigs :
  forall data out,
    sig_loop find_peaks groups rois prominence freq_wd sigs data = Ok out ->
    (forall x, x ∈ columns data -> x ∈ columns out)
    /\ length (rows out) = length (rows data).
Proof.
  induction groups as [|[sig dat_sig] groups IH]; simpl; intros data out H.
  - by injection H as <-.
  - destruct sigs as [l|]; simpl in H; [|by apply IH].
    case_decide; [|by apply IH].
    destruct (roi_loop find_peaks rois prominence freq_wd data dat_sig)
      as [data'|e] eqn:E; simpl in H; [|discriminate].
    destruct (roi_loop_shape _ _ _ _ _ E) as [Hc Hl].
    destruct (IH _ _ H) as [Hc' Hl'].
    split; [intros x Hx; by apply Hc', Hc|by rewrite Hl', Hl].
Qed.

(** X4: whatever the arguments, a frame that [find_pks] returns has the
    rows it was given, every label it was given, and beyond those only
    peak-indicator labels [roi-pks] of the listed regions: it never comes
    with a rolling-count column of the call's making. *)
Theorem find_pks_shape data rois freq_wd sigs out :
  find_pks find_peaks data rois prominence freq_wd sigs = Ok out ->
  (forall x, x ∈ columns data -> x ∈ columns out)
  /\ (forall x, x ∈ columns out ->
        x ∈ columns data \/ exists roi, roi ∈ rois /\ x = roi +:+ "-pks")
  /\ length (rows out) = length (rows data).
Proof.
  unfold find_pks. intros H.
  destruct (sig_loop_shape _ _ _ _ _ _ H) as [Hc Hl].
  split; [exact Hc|]. split; [|exact Hl].
  intros x Hx. eapply PeaksFacts.sig_loop_columns; eauto.
Qed.
End Marks.

Lemma find_pks_marks_witness :
  exists out,
    find_pks second_sample two_channels ["G"] 0.5%float None (Some ["470nm"]) = Ok out
    /\ values "G-pks" (get_group "470nm" out) = [Flag false; Flag true; Flag false]
    /\ values "G-pks" (get_group "415nm" out) = [NaN; NaN; NaN].
Proof.
  destruct (find_pks_marks second_sample 0.5%float two_channels ["G"] ["470nm"])
    as (out & E & _ & _ & Hflags).
  - apply (bool_decide_unpack (NoDup (rows two_channels).*1)). vm_compute. exact I.
  - repeat constructor.
  - exists out. split; [exact E|]. split.
    + etrans; [exact (Hflags "470nm" "G" ltac:(left) ltac:(left))|].
      vm_compute. reflexivity.
    + vm_compute in E. injection E as <-. vm_compute. reflexivity.
Defined.

Lemma find_pks_window_raises_witness :
  find_pks second_sample two_channels ["G"] 0.5%float (Some 2%nat) (Some ["470nm"])
  = Raise (KeyError "G-pks").
Proof.
  apply (find_pks_window_raises second_sample 0.5%float two_channels "G" [] 2
           ["470nm"] "470nm").
  - left.
  - vm_compute. right. left.
  - left.
  - vm_compute. intros H. apply list_elem_of_singleton in H. discriminate.
Defined.

Lemma find_pks_shape_witness :
  exists out,
    find_pks second_sample two_channels ["G"] 0.5%float None (Some ["470nm"]) = Ok out
    /\ columns out = ["G"; "G-pks"]
    /\ length (rows out) = 6%nat.
Proof.
  destruct (find_pks second_sample two_channels ["G"] 0.5%float None (Some ["470nm"]))
    as [out|e] eqn:E; [|vm_compute in E; discriminate].
  exists out. split; [reflexivity|].
  destruct (find_pks_shape second_sample 0.5%float two_channels ["G"] None
              (Some ["470nm"]) out E) as (_ & _ & Hlen).
  split; [|exact Hlen].
  vm_compute in E. injection E as <-. reflexivity.
Defined.
End PeakMarkFacts.

Module PoolRowFacts.
Import Pooler.

Lemma str_of_Z_inj (x y : Z) : str_of_Z x = str_of_Z y -> x = y.
Proof.
  unfold str_of_Z. intros H. apply DecimalZ.to_int_inj.
  assert (Hn : forall z, Z.to_int z <> Decimal.Pos Decimal.Nil
                         /\ Z.to_int z <> Decimal.Neg Decimal.Nil).
  { intros [|p|p]; simpl; split; try discriminate; intros [= E];
      by apply (DecimalPos.Unsigned.to_uint_nonnil p). }
  pose proof (NilZero.isi _ (proj1 (Hn x)) (proj2 (Hn x))) as Hx.
  pose proof (NilZero.isi _ (proj1 (Hn y)) (proj2 (Hn y))) as Hy.
  rewrite H in Hx. congruence.
Qed.

Lemma normalize_fails cols roi d :
  roi ∉ cols -> normalize cols roi d = Raise (KeyError roi).
Proof. intros H. unfold normalize. by rewrite decide_False. Qed.

Lemma normalize_all_fails cols rois :
  ~ Forall (fun roi => roi ∈ cols) rois ->
  forall d, raises (normalize_all cols rois d).
Proof.
  induction rois as [|roi rois IH]; intros Hnot d.
  - destruct Hnot. constructor.
  - simpl. destruct (decide (roi ∈ cols)) as [Hin|Hin].
    + unfold normalize at 1. rewrite decide_True by done.
      assert (Hrest : ~ Forall (fun roi => roi ∈ cols) rois).
      { intros HF. apply Hnot. by constructor. }
      destruct (PrimFloat.ltb _ _); simpl; by apply IH.
    + rewrite normalize_fails by done. simpl. by eexists.
Qed.

Lemma pool_loop_returns data evt_range rois norm m evs :
  (norm = true -> Forall (fun roi => roi ∈ columns data) rois) ->
  exists wins, pool_loop data evt_range rois norm m evs = Ok wins.
Proof.
  intros H. destruct evt_range as [pre post].
  destruct (PoolerFacts.pool_loop_frames data pre post rois norm m H evs)
    as (wins & E & _). eauto.
Qed.

(** X5: [pool_events] returns a table exactly when the master table has an
    event column and at least one event row and, if it normalises, every
    region is one of its columns. *)
Theorem pool_events_returns data evt_range rois norm :
  Forall (fun roi => roi ∉ window_labels) rois ->
  (exists out, pool_events data evt_range rois norm = Ok out)
  <-> ("event" ∈ columns data /\ event_rows data <> []
       /\ (norm = true -> Forall (fun roi => roi ∈ columns data) rois)).
Proof.
  intros _. unfold pool_events. split.
  - intros [out H]. case_decide as Hev; [|discriminate]. split; [exact Hev|].
    destruct (max_fm (rows data)) as [m|]; [|discriminate].
    destruct (event_rows data) as [|ev evs] eqn:Eevs; [discriminate|].
    split; [done|]. intros ->.
    destruct (decide (Forall (fun roi => roi ∈ columns data) rois)) as [HF|HF];
      [exact HF|].
    exfalso. simpl in H. unfold pool_one in H.
    destruct (normalize_all_fails _ _ HF
                (window (rows data) evt_range m ev (default "" (event ev))))
      as [e He].
    rewrite He in H. discriminate.
  - intros (Hev & Hevs & Hrois). rewrite decide_True by done.
    destruct (rows data) as [|r rs] eqn:Erows.
    { exfalso. apply Hevs. unfold event_rows. by rewrite Erows. }
    simpl.
    destruct (event_rows data) as [|ev evs] eqn:Eevs; [done|].
    destruct (pool_loop_returns data evt_range rois norm
                (foldr (fun r m => Z.max (fm_fp r) m) (fm_fp r) rs) (ev :: evs) Hrois)
      as [wins E].
    rewrite E. simpl. eauto.
Qed.

Lemma window_row rs evt_range m ev label r :
  r ∈ window rs evt_range m ev label ->
  exists row, row ∈ rs
    /\ w_fm_fp r = fm_fp row /\ fm_evt r = fm_fp row - fm_fp ev
    /\ w_event r = label
    /\ evt_id r = label +:+ "-" +:+ str_of_Z (fm_fp ev)
    /\ w_vals r = vals row.
Proof.
  unfold window. intros H. apply list_elem_of_fmap in H as (row & -> & Hrow).
  apply list_elem_of_filter in Hrow as [_ Hrow]. exists row. by repeat split.
Qed.

Lemma normalize_same_but cols roi d out r' :
  normalize cols roi d = Ok out -> r' ∈ out ->
  exists r, r ∈ d /\ same_but [roi] r r'.
Proof.
  unfold normalize. case_decide; [|discriminate].
  destruct (PrimFloat.ltb _ _); intros [= <-] Hin;
    apply list_elem_of_fmap in Hin as (r & -> & Hr); exists r; (split; [exact Hr|]);
    repeat split; intros c Hc; simpl; apply lookup_insert_ne;
    intros ->; apply Hc; left.
Qed.

Lemma normalize_all_same_but cols rois :
  forall d out r', normalize_all cols rois d = Ok out -> r' ∈ out ->
    exists r, r ∈ d /\ same_but rois r r'.
Proof.
  induction rois as [|roi rois IH]; simpl; intros d out r' H Hin.
  - injection H as <-. exists r'. split; [exact Hin|]. by repeat split.
  - destruct (normalize cols roi d) as [d1|e] eqn:E; simpl in H; [|discriminate].
    destruct (IH _ _ _ H Hin) as (r1 & Hr1 & H1 & H2 & H3 & H4 & H5).
    destruct (normalize_same_but _ _ _ _ _ E Hr1) as (r & Hr & G1 & G2 & G3 & G4 & G5).
    exists r. split; [exact Hr|]. repeat split; try congruence.
    intros c Hc. apply not_elem_of_cons in Hc as [Hne Hc].
    rewrite (H5 c Hc). apply G5.
    apply not_elem_of_cons. split; [exact Hne|apply not_elem_of_nil].
Qed.

Lemma pool_loop_rows data evt_range rois norm m :
  forall evs wins win r,
    pool_loop data evt_range rois norm m evs = Ok wins ->
    win ∈ wins -> r ∈ win ->
    exists ev r0,
      ev ∈ evs
      /\ r0 ∈ window (rows data) evt_range m ev (default "" (event ev))
      /\ same_but (if norm then rois else []) r0 r.
Proof.
  induction evs as [|ev evs IH]; simpl; intros wins win r H Hwin Hr.
  - injection H as <-. inversion Hwin.
  - destruct (pool_one data evt_range rois norm m ev) as [w1|e] eqn:E1; simpl in H;
      [|discriminate].
    destruct (pool_loop data evt_range rois norm m evs) as [ws|e] eqn:E2; simpl in H;
      [|discriminate].
    injection H as <-. apply elem_of_cons in Hwin as [->|Hwin].
    + unfold pool_one in E1. destruct norm.
      * destruct (normalize_all_same_but _ _ _ _ _ E1 Hr) as (r0 & Hr0 & Hsame).
        exists ev, r0. split; [left|]. done.
      * injection E1 as <-. exists ev, r. split; [left|]. split; [exact Hr|].
        by repeat split.
    + destruct (IH _ _ _ eq_refl Hwin Hr) as (ev' & r0 & Hev' & H0).
      exists ev', r0. split; [by right|exact H0].
Qed.

(** A row of the pooled table comes from the window of an event. *)
Lemma pool_events_from_window data evt_range rois norm out r :
  pool_events data evt_range rois norm = Ok out -> r ∈ out ->
  exists m ev r0,
    ev ∈ event_rows data
    /\ r0 ∈ window (rows data) evt_range m ev (default "" (event ev))
    /\ same_but (if norm then rois else []) r0 r.
Proof.
  unfold pool_events. case_decide; [|discriminate].
  destruct (max_fm (rows data)) as [m|]; [|discriminate].
  destruct (event_rows data) as [|e0 es] eqn:Eevs; [discriminate|].
  rewrite <- Eevs.
  destruct (pool_loop data evt_range rois norm m (event_rows data)) as [wins|e] eqn:E;
    simpl; [|discriminate].
  intros [= <-] Hr. apply list_elem_of_join in Hr as (win & Hr & Hwin).
  destruct (pool_loop_rows _ _ _ _ _ _ _ _ _ E Hwin Hr) as (ev & r0 & Hrow).
  by exists m, ev, r0.
Qed.

(** X6: every row that [pool_events] returns is a row of the master table,
    tagged with an event of the table: it has the frame counter of the master
    row, the offset from the event's frame, the label of the event and the
    id [label-frame]; its cells are those of the master row, except, when
    normalising, in the columns of [rois]. *)
Theorem pool_events_rows data evt_range rois norm out r :
  pool_events data evt_range rois norm = Ok out -> r ∈ out ->
  exists ev row,
    ev ∈ event_rows data /\ row ∈ rows data
    /\ w_fm_fp r = fm_fp row
    /\ fm_evt r = fm_fp row - fm_fp ev
    /\ w_event r = default "" (event ev)
    /\ evt_id r = default "" (event ev) +:+ "-" +:+ str_of_Z (fm_fp ev)
    /\ forall c, norm = false \/ c ∉ rois -> w_vals r !! c = vals row !! c.
Proof.
  intros H Hr.
  destruct (pool_events_from_window _ _ _ _ _ _ H Hr)
    as (m & ev & r0 & Hev & Hr0 & H1 & H2 & H3 & H4 & H5).
  destruct (window_row _ _ _ _ _ _ Hr0) as (row & Hrow & G1 & G2 & G3 & G4 & G5).
  exists ev, row. repeat split; try congruence.
  intros c Hc. rewrite <- G5. apply H5. destruct Hc as [->|Hc]; [apply not_elem_of_nil|].
  destruct norm; [exact Hc|apply not_elem_of_nil].
Qed.

(** X7: rows of the pooled table that agree on the event label and on the
    event id belong to the same event frame: the id tells apart events that
    repeat a label. *)
Theorem pool_events_evt_id data evt_range rois norm out r1 r2 :
  pool_events data evt_range rois norm = Ok out ->
  r1 ∈ out -> r2 ∈ out ->
  w_event r1 = w_event r2 -> evt_id r1 = evt_id r2 ->
  w_fm_fp r1 - fm_evt r1 = w_fm_fp r2 - fm_evt r2.
Proof.
  intros H H1 H2 Hl Hid.
  destruct (pool_events_from_window _ _ _ _ _ _ H H1)
    as (m1 & ev1 & a & _ & Ha & A1 & A2 & A3 & A4 & _).
  destruct (pool_events_from_window _ _ _ _ _ _ H H2)
    as (m2 & ev2 & b & _ & Hb & B1 & B2 & B3 & B4 & _).
  destruct (window_row _ _ _ _ _ _ Ha) as (rowa & _ & Fa & Oa & La & Ia & _).
  destruct (window_row _ _ _ _ _ _ Hb) as (rowb & _ & Fb & Ob & Lb & Ib & _).
  rewrite A4, B4, Ia, Ib in Hid.
  rewrite A3, B3, La, Lb in Hl. rewrite Hl in Hid.
  apply String.app_inj, String.app_inj, str_of_Z_inj in Hid. lia.
Qed.

Lemma pool_events_returns_witness :
  exists out, pool_events early_event (-2, 2) ["G"] true = Ok out.
Proof.
  apply (pool_events_returns early_event (-2, 2) ["G"] true).
  - constructor; [|constructor].
    apply (bool_decide_unpack ("G" ∉ window_labels)). vm_compute. exact I.
  - split; [left|]. split; [vm_compute; discriminate|].
    intros _. constructor; [right; left|constructor].
Defined.

Lemma pool_events_rows_witness :
  exists out,
    pool_events early_event (-2, 2) ["G"] true = Ok out
    /\ Forall (fun r => evt_id r = "tone-1" /\ fm_evt r = w_fm_fp r - 1) out.
Proof.
  destruct (pool_events early_event (-2, 2) ["G"] true) as [out|e] eqn:E;
    [|vm_compute in E; discriminate].
  exists out. split; [reflexivity|]. apply Forall_forall. intros r Hr.
  destruct (pool_events_rows early_event (-2, 2) ["G"] true out r E Hr)
    as (ev & row & Hev & _ & Hfm & Hoff & _ & Hid & _).
  assert (Hevs : event_rows early_event
                 = [{| fm_fp := 1; event := Some "tone"; vals := {["G" := 4%float]} |}])
    by (vm_compute; reflexivity).
  rewrite Hevs in Hev. apply list_elem_of_singleton in Hev. subst ev.
  split; [exact Hid|]. rewrite Hoff, Hfm. reflexivity.
Defined.

Lemma pool_events_evt_id_witness :
  exists out r1 r2,
    pool_events early_event (-2, 2) [] false = Ok out
    /\ out !! 0%nat = Some r1 /\ out !! 3%nat = Some r2
    /\ w_fm_fp r1 - fm_evt r1 = w_fm_fp r2 - fm_evt r2.
Proof.
  destruct (pool_events early_event (-2, 2) [] false) as [out|e] eqn:E;
    [|vm_compute in E; discriminate].
  destruct (out !! 0%nat) as [r1|] eqn:E1;
    [|vm_compute in E; injection E as <-; discriminate].
  destruct (out !! 3%nat) as [r2|] eqn:E2;
    [|vm_compute in E; injection E as <-; discriminate].
  exists out, r1, r2. split; [reflexivity|]. split; [exact E1|]. split; [exact E2|].
  apply (pool_events_evt_id early_event (-2, 2) [] false out r1 r2 E).
  - by eapply list_elem_of_lookup_2.
  - by eapply list_elem_of_lookup_2.
  - vm_compute in E. injection E as <-. vm_compute in E1, E2.
    injection E1 as <-. injection E2 as <-. reflexivity.
  - vm_compute in E. injection E as <-. vm_compute in E1, E2.
    injection E1 as <-. injection E2 as <-. reflexivity.
Defined.
End PoolRowFacts.

Module SessionFacts.
Import Loader Process.

Lemma replace_dash_chars v :
  chars (replace_dash v)
  = (fun c => if Ascii.eqb c "-" then "_"%char else c) <$> chars v.
Proof.
  unfold chars. induction v as [|c v IH]; simpl; [reflexivity|]. by rewrite IH.
Qed.

Lemma replace_dash_clean v : "-"%char ∉ chars (replace_dash v).
Proof.
  rewrite replace_dash_chars. intros H.
  apply list_elem_of_fmap in H as (c & Hc & _).
  destruct (Ascii.eqb c "-") eqn:E; [discriminate|].
  apply Ascii.eqb_neq in E. congruence.
Qed.

Lemma replace_dash_id v : "-"%char ∉ chars v -> replace_dash v = v.
Proof.
  unfold chars. induction v as [|c v IH]; simpl; intros H; [reflexivity|].
  apply not_elem_of_cons in H as [Hc Hv]. rewrite (IH Hv).
  destruct (Ascii.eqb c "-") eqn:E; [|reflexivity].
  apply Ascii.eqb_eq in E. congruence.
Qed.

(** X9: the names that [set_roi_names] stores have no dash: every dash of a
    given name is an underscore, the name keeps its length, and a name
    without a dash is stored as it is.  The same holds for the name that the
    callback [on_roi_name] stores. *)
Theorem set_roi_names_no_dash s r :
  is_Some (param_roi_dict s) ->
  exists names,
    step s (set_roi_names (Some r)) = (with_roi s (Some names), Ok tt)
    /\ (forall k, names !! k = replace_dash <$> r !! k)
    /\ (forall k v, names !! k = Some v -> "-"%char ∉ chars v)
    /\ (forall k v0, r !! k = Some v0 ->
          exists v, names !! k = Some v
            /\ length (chars v) = length (chars v0)
            /\ ("-"%char ∉ chars v0 -> v = v0))
    /\ (forall k v,
          exists names',
            step (with_roi s (Some names)) (on_roi_name k v)
            = (with_roi s (Some names'), Ok tt)
            /\ forall k' v', names' !! k' = Some v' -> "-"%char ∉ chars v').
Proof.
  intros [r0 Hr0]. exists (replace_dash <$> r). simpl. rewrite Hr0.
  split; [reflexivity|]. split; [intros k; apply lookup_fmap|].
  assert (Hclean : forall k v, (replace_dash <$> r) !! k = Some v -> "-"%char ∉ chars v).
  { intros k v. rewrite lookup_fmap. destruct (r !! k) as [v0|]; [|discriminate].
    intros [= <-]. apply replace_dash_clean. }
  split; [exact Hclean|]. split.
  - intros k v0 Hk. exists (replace_dash v0). rewrite lookup_fmap, Hk.
    split; [reflexivity|]. split; [|apply replace_dash_id].
    by rewrite replace_dash_chars, length_fmap.
  - intros k v. eexists. split; [reflexivity|]. intros k' v'.
    destruct (decide (k' = k)) as [->|Hne].
    + rewrite lookup_insert_eq. intros [= <-]. apply replace_dash_clean.
    + rewrite lookup_insert_ne by done. apply Hclean.
Qed.

Lemma set_roi_names_no_dash_witness :
  exists names,
    step (run (init "./figs/process" "./output/process") plain_session)
         (set_roi_names (Some {["G0" := "left-dorsal"]}))
    = (with_roi (run (init "./figs/process" "./output/process") plain_session)
                (Some names), Ok tt)
    /\ names !! "G0" = Some "left_dorsal".
Proof.
  destruct (set_roi_names_no_dash
              (run (init "./figs/process" "./output/process") plain_session)
              {["G0" := "left-dorsal"]}) as (names & E & Hk & _).
  - vm_compute. eauto.
  - exists names. split; [exact E|]. rewrite Hk. reflexivity.
Defined.

(** X10: a region name that is no column of the loaded table makes
    [load_data] raise [KeyError] in the plot, after it has replaced
    [self.data] with the trimmed table; no figure is written. *)
Theorem load_data_missing_region s d roi_dict nfm c :
  data s = Some d ->
  param_roi_dict s = Some roi_dict ->
  param_nfm_discard s = Some nfm ->
  (forall k, k ∈ fixed_labels -> roi_dict !! k = None) ->
  c ∈ (map_to_list roi_dict).*2 ->
  c ∉ fixed_labels ->
  c ∉ rename roi_dict (columns (as_raw d)) ->
  exists c' s',
    load_data s = (s', Raise (KeyError c'))
    /\ data s'
       = Some (SignalFrame
                 (Loader.load_data (as_raw d) nfm (param_led_dict s) roi_dict))
    /\ written s' = written s.
Proof.
  intros Hd Hr Hn _ Hc _ Hcol. unfold load_data. rewrite Hd, Hr, Hn.
  unfold plot_signals.
  destruct (filter _ (map_to_list roi_dict).*2) as [|c' l] eqn:E.
  - exfalso.
    assert (Hin : c ∈ filter (fun c => c ∉ columns (Loader.load_data (as_raw d) nfm
                                         (param_led_dict s) roi_dict))
                      (map_to_list roi_dict).*2).
    { apply list_elem_of_filter. split; [exact Hcol|exact Hc]. }
    rewrite E in Hin. inversion Hin.
  - eexists _, _. split; [reflexivity|]. split; reflexivity.
Qed.

Lemma load_data_missing_region_witness :
  exists c' s',
    load_data (run (init "./figs/process" "./output/process")
                 [set_data four_samples; set_roi (Some {["G9" := "Green"]});
                  set_nfm_discard (Some 0)])
    = (s', Raise (KeyError c'))
    /\ written s' = [].
Proof.
  destruct (load_data_missing_region
              (run (init "./figs/process" "./output/process")
                 [set_data four_samples; set_roi (Some {["G9" := "Green"]});
                  set_nfm_discard (Some 0)])
              (RawFrame four_samples) {["G9" := "Green"]} 0 "Green")
    as (c' & s' & E & _ & Hw); try reflexivity.
  - intros k Hk. apply lookup_singleton_None.
    intros <-. vm_compute in Hk.
    repeat (apply elem_of_cons in Hk as [Hk|Hk]; [discriminate|]). inversion Hk.
  - rewrite map_to_list_singleton. left.
  - intros Hk. vm_compute in Hk.
    repeat (apply elem_of_cons in Hk as [Hk|Hk]; [discriminate|]). inversion Hk.
  - intros Hk. vm_compute in Hk.
    repeat (apply elem_of_cons in Hk as [Hk|Hk]; [discriminate|]). inversion Hk.
  - exists c', s'. split; [exact E|]. rewrite Hw. reflexivity.
Defined.
End SessionFacts.

Module AlignFacts.
Import Harmonizer HarmonizerFacts.

Section Sources.
Variable to_numeric : dtype * list cell -> dtype * list cell.
Variable repr_float : Q -> string.

Abbreviation load_ts := (load_ts to_numeric repr_float).
Abbreviation load_all := (load_all to_numeric repr_float).
Abbreviation align_ts := (align_ts to_numeric repr_float).

(** The labels of the frame that [load_ts] returns go with its type. *)
Lemma load_ts_labels ts f ts_type :
  load_ts ts = Ok (f, ts_type) ->
  (ts_type = "ts_keydown" /\ labels f = ["event"; "ts"; "event_type"])
  \/ (ts_type = "ts_behav" /\ labels f = ["fm_behav"; "ts"])
  \/ (ts_type = "ts_events" /\ labels f = ["fm_behav"; "event"; "event_type"])
  \/ (ts_type = "ts_arduino" /\ labels f = arduino_labels).
Proof.
  unfold Harmonizer.load_ts.
  destruct (dtypes (df_to_numeric to_numeric ts))
    as [|e0 [|e1 [|e2 [|e3 [|e4 [|]]]]]] eqn:Ed; try discriminate.
  - destruct e0, e1; simpl; intros [= <- <-]; tauto.
  - destruct (iloc00 _) as [c|]; simpl; [|discriminate]. intros [= <- <-].
    right; right; right. split; [reflexivity|].
    set (ts' := if cell_eqb c (CStr "DigitalIOName") then _ else _).
    assert (Hlen : length (dtypes (df_to_numeric to_numeric ts')) = 5%nat).
    { rewrite (proj1 (df_to_numeric_shape to_numeric ts')).
      unfold ts'. destruct (cell_eqb _ _); simpl; try rewrite Ed; reflexivity. }
    unfold labels; simpl.
    destruct (dtypes (df_to_numeric to_numeric ts'))
      as [|d0 [|d1 [|d2 [|d3 [|d4 [|]]]]]]; try discriminate. reflexivity.
Qed.

Lemma load_ts_no_fm_fp ts f ts_type :
  load_ts ts = Ok (f, ts_type) -> "fm_fp" ∉ labels f.
Proof.
  intros H.
  destruct (load_ts_labels _ _ _ H) as [[_ ->]|[[_ ->]|[[_ ->]|[_ ->]]]];
    unfold arduino_labels; intros Hc;
    repeat (apply elem_of_cons in Hc as [Hc|Hc]; [discriminate|]); inversion Hc.
Qed.

Lemma dict_set_elem k v d kf :
  kf ∈ dict_set k v d -> kf = (k, v) \/ kf ∈ d.
Proof.
  unfold dict_set. destruct (dict_has k d).
  - intros H. apply list_elem_of_fmap in H as (kv & -> & Hkv).
    case_decide; [by left|by right].
  - intros H. apply elem_of_app in H as [H|H]; [by right|].
    apply list_elem_of_singleton in H. by left.
Qed.

(** The entries that the loop leaves in [ts_dict]: each is the frame
    [load_ts] made of a source, under the type of the source if that is
    canonical and under its name otherwise. *)
Lemma load_all_entries ts_files :
  forall ts_dict d,
    load_all ts_files ts_dict = Ok d ->
    forall k f, (k, f) ∈ d ->
      (k, f) ∈ ts_dict
      \/ exists n s t,
           (n, s) ∈ ts_files /\ load_ts s = Ok (f, t)
           /\ k = if bool_decide (canonical t) then t else n.
Proof.
  induction ts_files as [|[n s] ts_files IH]; intros ts_dict d H k f Hin.
  - injection H as <-. by left.
  - destruct (load_ts s) as [[f0 t]|e] eqn:Es; [|simpl in H; by rewrite Es in H].
    rewrite (load_all_cons _ _ _ _ _ _ _ _ Es) in H.
    assert (Hhere : forall d0,
              load_all ts_files
                (dict_set (if bool_decide (canonical t) then t else n) f0 d0) = Ok d ->
              (k, f) ∈ d0
              \/ exists n' s' t',
                   (n', s') ∈ (n, s) :: ts_files /\ load_ts s' = Ok (f, t')
                   /\ k = if bool_decide (canonical t') then t' else n').
    { intros d0 Hd0. destruct (IH _ _ Hd0 k f Hin) as [Hd|(n' & s' & t' & Hn' & Hs' & Hk)].
      - apply dict_set_elem in Hd as [[= -> ->]|Hd]; [|by left].
        right. exists n, s, t. split; [left|done].
      - right. exists n', s', t'. split; [by right|done]. }
    destruct (bool_decide (canonical t)); [|by apply Hhere].
    destruct (dict_has t ts_dict); [discriminate|by apply Hhere].
Qed.

Lemma canonical_type ts f ts_type :
  load_ts ts = Ok (f, ts_type) -> canonical ts_type -> ts_type = "ts_behav".
Proof.
  intros H Hc.
  destruct (load_ts_types _ _ _ _ _ H) as [-> | [-> | [-> | ->]]];
    destruct Hc; done.
Qed.

Lemma dict_pop_Some k d :
  dict_has k d = true ->
  exists v, dict_pop k d = Some (v, filter (fun kv => kv.1 ≠ k) d) /\ (k, v) ∈ d.
Proof.
  unfold dict_has, dict_pop. intros H. apply bool_decide_eq_true in H.
  apply list_elem_of_fmap in H as ([k' v] & Heq & Hin). simpl in Heq. subst k.
  destruct (list_find (fun kv : string * frame => kv.1 = k') d) as [[i [k1 v1]]|] eqn:E.
  - apply list_find_Some in E as (Hi & Hk & _). simpl in Hk. subst k1.
    exists v1. split; [reflexivity|]. eapply list_elem_of_lookup_2; eauto.
  - apply list_find_None in E. rewrite Forall_forall in E.
    by destruct (E _ Hin).
Qed.

(** X11: the frame timestamps of the merge rules are out of reach.  [load_ts]
    gives no source the type [ts_fp]; an entry [ts_fp] in [ts_dict] is a
    source of that name, loaded as an event log, and the merge that is meant
    for the frame timestamps looks up a frame-counter column that no event
    log has: [align_ts] raises [KeyError]. *)
Theorem align_ts_fp_unusable data ts_files d :
  load_all ts_files [] = Ok d ->
  dict_has "ts_fp" d = true ->
  "ts_fp" ∈ ts_files.*1
  /\ align_ts data ts_files = ([], Raise (KeyError "fm_fp")).
Proof.
  intros Hl Hhas.
  destruct (dict_pop_Some _ _ Hhas) as (f & Hpop & Hin).
  destruct (load_all_entries _ _ _ Hl _ _ Hin) as [Hnil|(n & s & t & Hn & Hs & Hk)];
    [inversion Hnil|].
  pose proof (load_ts_no_fm_fp _ _ _ Hs) as Hf.
  assert (Hname : n = "ts_fp").
  { case_bool_decide as Hc; [|done].
    rewrite (canonical_type _ _ _ Hs Hc) in Hk. discriminate. }
  subst n. split; [apply list_elem_of_fmap; by exists ("ts_fp", s)|].
  unfold Harmonizer.align_ts. rewrite Hl, wbind_quiet, Hpop.
  unfold add_ts_fp, int_max.
  assert (E : col_index "fm_fp" f = Raise (KeyError "fm_fp")).
  { rewrite col_index_labels. unfold label_index.
    destruct (list_find _ _) as [[i x]|] eqn:E; [|reflexivity].
    apply list_find_Some in E as (Hi & -> & _).
    exfalso. apply Hf. eapply list_elem_of_lookup_2; eauto. }
  rewrite E. reflexivity.
Qed.

Lemma merge_unvalidated h on L R out :
  merge h true on L R = Ok out -> merge h false on L R = Ok out.
Proof.
  unfold merge.
  destruct (col_index on L) as [i|e]; [|discriminate].
  destruct (col_index on R) as [j|e]; [|discriminate].
  simpl. by destruct (_ || _).
Qed.

Lemma extends_trans (A B C : frame) : extends A B -> extends B C -> extends A C.
Proof.
  intros HAB HBC r Hr. destruct (HAB r Hr) as [s1 H1].
  destruct (HBC _ H1) as [s2 H2]. exists (s1 ++ s2). by rewrite app_assoc.
Qed.

Lemma extends_refl (A : frame) : extends A A.
Proof. intros r Hr. exists []. by rewrite app_nil_r. Qed.

Lemma add_ts_fp_extends data ts_fp w out :
  add_ts_fp data ts_fp = (w, Ok out) -> extends data out.
Proof.
  unfold add_ts_fp. intros H.
  apply wbind_Ok in H as (? & m1 & ? & _ & H & _).
  apply wbind_Ok in H as (? & m2 & ? & _ & H & _).
  apply wbind_Ok in H as (? & ? & ? & _ & H%quiet_Ok & _).
  intros r Hr. eapply merge_keeps_left; [by apply merge_unvalidated|exact Hr].
Qed.

Lemma align_behav_extends data ts_behav w out :
  align_behav data ts_behav = (w, Ok out) -> extends data out.
Proof.
  unfold align_behav. destruct (has_col "ts" data).
  - intros H.
    apply wbind_Ok in H as (? & sub & ? & _ & H & _).
    apply wbind_Ok in H as (? & m & ? & _ & H & _).
    apply wbind_Ok in H as (? & dup & ? & _ & H & _).
    apply wbind_Ok in H as (? & ? & ? & _ & H & _).
    apply wbind_Ok in H as (? & d & ? & Hd%quiet_Ok & H%quiet_Ok & _).
    intros r Hr. destruct (merge_keeps_left _ _ _ _ _ Hd r Hr) as [suffix Hs].
    exists suffix. by rewrite (sort_values_rows _ _ _ H).
  - intros [= _ <-]. apply extends_refl.
Qed.

(** What [align_ts] returns, phase by phase. *)
Lemma align_ts_Ok data ts_files w data' rest :
  align_ts data ts_files = (w, Ok (data', rest)) ->
  exists ts_dict d1 d2 rest1,
    load_all ts_files [] = Ok ts_dict
    /\ match dict_pop "ts_fp" ts_dict with
       | Some (ts_fp, ts_dict') =>
           rest1 = ts_dict'
           /\ exists w1, add_ts_fp (rename internal_names data) ts_fp = (w1, Ok d1)
       | None => rest1 = ts_dict /\ d1 = rename internal_names data
       end
    /\ match dict_pop "ts_behav" rest1 with
       | Some (ts_behav, ts_dict') =>
           rest = ts_dict' /\ exists w2, align_behav d1 ts_behav = (w2, Ok d2)
       | None => rest = rest1 /\ d2 = d1
       end
    /\ exists w3 evts w4,
         align_sources d2 rest = (w3, Ok evts)
         /\ merge_events d2 evts = (w4, Ok data').
Proof.
  unfold Harmonizer.align_ts. intros H.
  apply wbind_Ok in H as (? & ts_dict & ? & Hl%quiet_Ok & H & _).
  apply wbind_Ok in H as (? & [d1 rest1] & ? & H1 & H & _).
  apply wbind_Ok in H as (? & [d2 rest2] & ? & H2 & H & _).
  apply wbind_Ok in H as (w3 & evts & ? & H3 & H & _).
  apply wbind_Ok in H as (w4 & d3 & ? & H4 & [= _ <- <-] & _).
  simpl in *. exists ts_dict, d1, d2, rest1. split; [exact Hl|]. split; [|split].
  - destruct (dict_pop "ts_fp" ts_dict) as [[ts_fp ts_dict']|].
    + apply wbind_Ok in H1 as (w1 & d & ? & Hd & [= _ <- <-] & _). eauto.
    + by injection H1 as _ <- <-.
  - destruct (dict_pop "ts_behav" rest1) as [[ts_behav ts_dict']|].
    + apply wbind_Ok in H2 as (w2 & d & ? & Hd & [= _ <- <-] & _). eauto.
    + by injection H2 as _ <- <-.
  - eauto.
Qed.

(** X12: alignment loses no row of the recording: every row of the master
    table is, with the cells joined to it, a row of the table that [align_ts]
    returns. *)
Theorem align_ts_keeps_rows data ts_files w data' rest r :
  align_ts data ts_files = (w, Ok (data', rest)) ->
  r ∈ rows data ->
  exists suffix, (r ++ suffix) ∈ rows data'.
Proof.
  intros H Hr.
  apply align_ts_Ok in H as (ts_dict & d1 & d2 & rest1 & _ & H1 & H2 & H3).
  destruct H3 as (w3 & evts & w4 & _ & H4).
  assert (E1 : extends (rename internal_names data) d1).
  { destruct (dict_pop "ts_fp" ts_dict) as [[ts_fp ?]|].
    - destruct H1 as (_ & w1 & H1). by eapply add_ts_fp_extends.
    - destruct H1 as [_ ->]. apply extends_refl. }
  assert (E2 : extends d1 d2).
  { destruct (dict_pop "ts_behav" rest1) as [[ts_behav ?]|].
    - destruct H2 as (_ & w2 & H2). by eapply align_behav_extends.
    - destruct H2 as [_ ->]. apply extends_refl. }
  assert (E3 : extends d2 data').
  { intros x Hx. by eapply merge_events_keeps. }
  exact (extends_trans _ _ _ (extends_trans _ _ _ E1 E2) E3 r Hr).
Qed.

Lemma dict_pop_rest k d v d' kf :
  dict_pop k d = Some (v, d') -> kf ∈ d' -> kf ∈ d /\ kf.1 <> k.
Proof.
  unfold dict_pop. destruct (list_find _ _) as [[? [? ?]]|]; [|discriminate].
  intros [= _ <-] Hin. apply list_elem_of_filter in Hin. tauto.
Qed.

Lemma dict_pop_None k d kf : dict_pop k d = None -> kf ∈ d -> kf.1 <> k.
Proof.
  unfold dict_pop. destruct (list_find _ _) as [[? [? ?]]|] eqn:E; [discriminate|].
  intros _ Hin. apply list_find_None in E. rewrite Forall_forall in E. by apply E.
Qed.

(** X13: the sources that [align_ts] hands back are event logs: an entry of
    the returned [ts_dict] sits under the name of a source, which is neither
    [ts_behav] nor [ts_fp], and holds the frame [load_ts] made of a source of
    that name, whose type is not canonical. *)
Theorem align_ts_leftover data ts_files w data' rest k f :
  align_ts data ts_files = (w, Ok (data', rest)) ->
  (k, f) ∈ rest ->
  k <> "ts_behav" /\ k <> "ts_fp"
  /\ exists s t, (k, s) ∈ ts_files /\ load_ts s = Ok (f, t) /\ ~ canonical t.
Proof.
  intros H Hin.
  apply align_ts_Ok in H as (ts_dict & d1 & d2 & rest1 & Hl & H1 & H2 & _).
  assert (G2 : (k, f) ∈ rest1 /\ k <> "ts_behav").
  { destruct (dict_pop "ts_behav" rest1) as [[ts_behav ?]|] eqn:E.
    - destruct H2 as [-> _]. exact (dict_pop_rest _ _ _ _ _ E Hin).
    - destruct H2 as [-> _]. split; [exact Hin|]. exact (dict_pop_None _ _ _ E Hin). }
  destruct G2 as [Hin1 Hb].
  assert (G1 : (k, f) ∈ ts_dict /\ k <> "ts_fp").
  { destruct (dict_pop "ts_fp" ts_dict) as [[ts_fp ?]|] eqn:E.
    - destruct H1 as [-> _]. exact (dict_pop_rest _ _ _ _ _ E Hin1).
    - destruct H1 as [-> _]. split; [exact Hin1|]. exact (dict_pop_None _ _ _ E Hin1). }
  destruct G1 as [Hin0 Hfp]. split; [exact Hb|]. split; [exact Hfp|].
  destruct (load_all_entries _ _ _ Hl _ _ Hin0) as [Hnil|(n & s & t & Hn & Hs & Hk)];
    [inversion Hnil|].
  case_bool_decide as Hc.
  - rewrite (canonical_type _ _ _ Hs Hc) in Hk. done.
  - subst n. by exists s, t.
Qed.

(** X14: a single event log that the master table cannot place costs a
    warning and nothing else.  A log keyed by behaviour frames needs the
    column [fm_behav] in the master table, a digital-I/O log the column
    [ts_fp], whether or not the master has computer timestamps, and a
    keydown log the column [ts]; without that column [align_ts] warns,
    returns the master table under its internal names and hands the log
    back. *)
Theorem align_ts_unplaced data dname s f ts_type col words :
  load_ts s = Ok (f, ts_type) ->
  ~ canonical dname ->
  aligned_on ts_type = Some (col, words) ->
  has_col col (rename internal_names data) = false ->
  align_ts data [(dname, s)]
  = ([words +:+ " supplied, cannot align " +:+ dname],
     Ok (rename internal_names data, [(dname, f)])).
Proof.
  intros Hs Hname Hon Hcol.
  assert (Hl : load_all [(dname, s)] [] = Ok [(dname, f)]).
  { rewrite (load_all_cons _ _ _ _ _ _ _ _ Hs).
    destruct (load_ts_types _ _ _ _ _ Hs) as [-> | [-> | [-> | ->]]];
      try discriminate; reflexivity. }
  assert (Hfp : dict_pop "ts_fp" [(dname, f)] = None).
  { unfold dict_pop. simpl. rewrite decide_False; [reflexivity|].
    simpl. intros ->. apply Hname. by right. }
  assert (Hb : dict_pop "ts_behav" [(dname, f)] = None).
  { unfold dict_pop. simpl. rewrite decide_False; [reflexivity|].
    simpl. intros ->. apply Hname. by left. }
  unfold Harmonizer.align_ts. rewrite Hl, wbind_quiet, Hfp.
  change (wbind ([], Ok ?a) ?k) with (wbind (quiet (Ok a)) k) at 1.
  rewrite wbind_quiet. cbn [fst snd]. rewrite Hb.
  change (wbind ([], Ok ?a) ?k) with (wbind (quiet (Ok a)) k) at 1.
  rewrite wbind_quiet. cbn [fst snd align_sources].
  assert (Hsrc : align_source (rename internal_names data) dname f
                 = ([words +:+ " supplied, cannot align " +:+ dname], Ok None)).
  { unfold align_source, has_col in *.
    destruct (load_ts_labels _ _ _ Hs) as [[-> ->]|[[-> ->]|[[-> ->]|[-> ->]]]];
      vm_compute in Hon; try discriminate; injection Hon as <- <-;
      rewrite Hcol; reflexivity. }
  rewrite Hsrc. reflexivity.
Qed.
End Sources.

Lemma align_ts_fp_unusable_witness :
  align_ts no_coercion any_repr master [("ts_fp", keydown_source)]
  = ([], Raise (KeyError "fm_fp")).
Proof.
  destruct (load_all no_coercion any_repr [("ts_fp", keydown_source)] [])
    as [d|e] eqn:E; [|vm_compute in E; discriminate].
  refine (proj2 (align_ts_fp_unusable no_coercion any_repr master _ d E _)).
  vm_compute in E. injection E as <-. reflexivity.
Defined.

Lemma align_ts_keeps_rows_witness :
  exists w data' rest suffix,
    align_ts no_coercion any_repr master [("behav.csv", behav_source)]
    = (w, Ok (data', rest))
    /\ ([CInt 11; CFloat 1] ++ suffix) ∈ rows data'.
Proof.
  destruct (align_ts no_coercion any_repr master [("behav.csv", behav_source)])
    as [w [[data' rest]|e]] eqn:E; [|vm_compute in E; discriminate].
  destruct (align_ts_keeps_rows no_coercion any_repr master _ w data' rest
              [CInt 11; CFloat 1] E) as [suffix Hs].
  - right. left.
  - by exists w, data', rest, suffix.
Defined.

Lemma align_ts_leftover_witness :
  exists w data' f,
    align_ts no_coercion any_repr master [("keys.csv", keydown_source)]
    = (w, Ok (data', [("keys.csv", f)]))
    /\ exists t, load_ts no_coercion any_repr keydown_source = Ok (f, t)
                 /\ ~ canonical t.
Proof.
  destruct (align_ts no_coercion any_repr master [("keys.csv", keydown_source)])
    as [w [[data' rest]|e]] eqn:E; [|vm_compute in E; discriminate].
  assert (Hrest : exists f, rest = [("keys.csv", f)]).
  { vm_compute in E. injection E as _ _ <-. by eexists. }
  destruct Hrest as [f ->]. exists w, data', f. split; [reflexivity|].
  destruct (align_ts_leftover no_coercion any_repr master _ w data' _ "keys.csv" f E)
    as (_ & _ & s & t & Hs & Hload & Hc); [left|].
  apply list_elem_of_singleton in Hs. injection Hs as <-. by exists t.
Defined.

Lemma align_ts_unplaced_witness :
  exists f,
    align_ts no_coercion any_repr bare_master [("keys.csv", keydown_source)]
    = (["No computer timestamps supplied, cannot align keys.csv"],
       Ok (rename internal_names bare_master, [("keys.csv", f)])).
Proof.
  destruct (load_ts no_coercion any_repr keydown_source) as [[f t]|e] eqn:E;
    [|vm_compute in E; discriminate].
  assert (Ht : t = "ts_keydown") by (vm_compute in E; congruence). subst t.
  exists f.
  apply (align_ts_unplaced no_coercion any_repr bare_master "keys.csv"
           keydown_source f "ts_keydown" "ts" "No computer timestamps" E).
  - intros [H|H]; discriminate.
  - reflexivity.
  - reflexivity.
Defined.
End AlignFacts.

Module ProductFacts.
Import Products.

Lemma length_bind_const {A B} (f : A -> list B) (m : nat) (l : list A) :
  (forall a, length (f a) = m) -> length (l ≫= f) = (length l * m)%nat.
Proof.
  intros Hf. induction l as [|a l IH]; [reflexivity|].
  rewrite bind_cons, length_app, Hf, IH. simpl. lia.
Qed.

Lemma product_length {A} (args : list (list A)) :
  length (product args) = product_size args.
Proof.
  induction args as [|x args IH]; [reflexivity|]. simpl.
  rewrite (length_bind_const _ (length (product args))).
  - by rewrite IH.
  - intros a. by rewrite length_fmap.
Qed.

Lemma product_size_ranges {A} (args : list (list A)) :
  product_size (range_len <$> args) = product_size args.
Proof.
  induction args as [|x args IH]; [reflexivity|].
  change (product_size (range_len <$> (x :: args)))
    with ((length (range_len x) * product_size (range_len <$> args))%nat).
  rewrite IH. unfold range_len. by rewrite length_seq.
Qed.

Lemma zip_bind {A B C D} (f : A -> list C) (g : B -> list D) l1 l2 :
  Forall2 (fun a b => length (f a) = length (g b)) l1 l2 ->
  zip (l1 ≫= f) (l2 ≫= g) = zip l1 l2 ≫= (fun ab => zip (f ab.1) (g ab.2)).
Proof.
  induction 1 as [|a b l1 l2 Hab _ IH]; [reflexivity|].
  change (zip (a :: l1) (b :: l2)) with ((a, b) :: zip l1 l2).
  rewrite !bind_cons. rewrite zip_with_app by done. by rewrite IH.
Qed.

Lemma bind_ext {A B} (f g : A -> list B) (l : list A) :
  (forall a, f a = g a) -> l ≫= f = l ≫= g.
Proof.
  intros H. induction l as [|a l IH]; [reflexivity|].
  by rewrite !bind_cons, H, IH.
Qed.

(** One more argument in front: each of its elements, with its position,
    goes before each pair of the rest. *)
Lemma enumerated_product_cons {A} (x : list A) (args : list (list A)) :
  enumerated_product (x :: args)
  = zip (range_len x) x
      ≫= (fun ia => prod_map (fun t => ia.1 :: t) (fun t => ia.2 :: t)
                      <$> enumerated_product args).
Proof.
  unfold enumerated_product. rewrite fmap_cons. simpl.
  rewrite zip_bind.
  - apply bind_ext. intros [i a]. simpl. symmetry. apply prod_map_zip.
  - apply Forall2_true; [|unfold range_len; by rewrite length_seq].
    intros i a. rewrite !length_fmap, !product_length. apply product_size_ranges.
Qed.

Lemma elem_of_enumerate {A} (x : list A) i a :
  (i, a) ∈ zip (range_len x) x <-> x !! i = Some a.
Proof.
  unfold range_len. rewrite elem_of_lookup_zip_with. split.
  - intros (k & i' & a' & [= -> ->] & Hi & Ha).
    apply lookup_seq in Hi as [-> _]. exact Ha.
  - intros Ha. exists i, i, a. split; [reflexivity|]. split; [|exact Ha].
    apply lookup_seq. split; [reflexivity|]. by eapply lookup_lt_Some.
Qed.

Lemma enumerated_product_elem {A} (args : list (list A)) :
  forall idx vals,
    (idx, vals) ∈ enumerated_product args
    <-> Forall3 (fun i v x => x !! i = Some v) idx vals args.
Proof.
  induction args as [|x args IH]; intros idx vals.
  - unfold enumerated_product. simpl. rewrite list_elem_of_singleton. split.
    + intros [= -> ->]. constructor.
    + intros H. by inversion H.
  - rewrite enumerated_product_cons, list_elem_of_bind. split.
    + intros ([i a] & Hin & Hia). simpl in Hin.
      apply list_elem_of_fmap in Hin as ([ix vs] & [= -> ->] & Hrest).
      constructor; [by apply elem_of_enumerate|by apply IH].
    + intros H. inversion H as [|i a x' ix vs args' Hia Hrest]; subst.
      exists (i, a). split; [|by apply elem_of_enumerate].
      simpl. apply list_elem_of_fmap. exists (ix, vs). split; [reflexivity|].
      by apply IH.
Qed.

Lemma product_NoDup {A} (args : list (list A)) :
  Forall NoDup args -> NoDup (product args).
Proof.
  induction 1 as [|x args Hx _ IH]; simpl; [apply NoDup_singleton|].
  apply NoDup_bind; [| |exact Hx].
  - intros a1 a2 t _ _ H1 H2.
    apply list_elem_of_fmap in H1 as (t1 & -> & _).
    apply list_elem_of_fmap in H2 as (t2 & [= -> _] & _). reflexivity.
  - intros a _. apply NoDup_fmap; [|exact IH]. by intros t1 t2 [= ->].
Qed.

(** X15: [enumerated_product] pairs every tuple of positions with the tuple
    of the elements at those positions, and nothing else: a pair is yielded
    exactly when each position is in range of its argument and the element
    beside it is the one found there; a tuple of positions is yielded once; the
    pairs are as many as the product of the lengths. *)
Theorem enumerated_product_spec {A} (args : list (list A)) :
  (forall idx vals,
     (idx, vals) ∈ enumerated_product args
     <-> Forall3 (fun i v x => x !! i = Some v) idx vals args)
  /\ NoDup (enumerated_product args).*1
  /\ length (enumerated_product args) = product_size args.
Proof.
  split; [apply enumerated_product_elem|].
  assert (Hlen : length (product (range_len <$> args)) = length (product args)).
  { rewrite !product_length. apply product_size_ranges. }
  unfold enumerated_product. split.
  - rewrite fst_zip by lia. apply product_NoDup.
    apply Forall_fmap, Forall_forall. intros x _. apply NoDup_seq.
  - rewrite length_zip_with, Hlen, Nat.min_id. apply product_length.
Qed.
End ProductFacts.

Module AlignObjectFacts.
Import Harmonizer Align.

Lemma basename_no_sep p : has_sep (basename p) = false.
Proof.
  induction p as [|c p IH]; [reflexivity|]. simpl.
  destruct (has_sep p) eqn:Hp; [exact IH|].
  destruct (Ascii.eqb c "/") eqn:Hc; [exact Hp|]. simpl. by rewrite Hc, Hp.
Qed.

Lemma basename_id p : has_sep p = false -> basename p = p.
Proof.
  destruct p as [|c p]; [reflexivity|]. simpl. intros H.
  apply orb_false_iff in H as [Hc Hp]. by rewrite Hp, Hc.
Qed.

Lemma endswith_spec s suffix :
  endswith s suffix = true <-> exists pre, s = pre +:+ suffix.
Proof.
  induction s as [|c s IH].
  - cbn [endswith]. rewrite orb_false_r, String.eqb_eq. split.
    + intros <-. by exists "".
    + intros [[|? ?] H]; [done|discriminate].
  - cbn [endswith]. rewrite orb_true_iff, String.eqb_eq, IH. split.
    + intros [<-|[pre ->]]; [by exists ""|by exists (String c pre)].
    + intros [[|c' pre] H]; [by left|]. injection H as -> ->. right. by exists pre.
Qed.

(** The base name of a path that ends in a suffix without separator ends
    in that suffix. *)
Lemma basename_app pre suffix :
  has_sep suffix = false -> exists pre', basename (pre +:+ suffix) = pre' +:+ suffix.
Proof.
  intros Hs. induction pre as [|c pre IH].
  - exists "". by rewrite basename_id.
  - simpl. destruct (has_sep (pre +:+ suffix)); [exact IH|].
    destruct (Ascii.eqb c "/"); [by exists pre|by exists (String c pre)].
Qed.

Lemma endswith_basename p suffix :
  has_sep suffix = false ->
  endswith p suffix = true -> endswith (basename p) suffix = true.
Proof.
  intros Hs Hp. apply endswith_spec in Hp as [pre ->].
  apply endswith_spec. by apply basename_app.
Qed.

Lemma basename_suffix p : exists pre, p = pre +:+ basename p.
Proof.
  induction p as [|c p [pre IH]]; [by exists ""|]. simpl.
  destruct (has_sep p).
  - exists (String c pre).
    change (String c pre +:+ basename p) with (String c (pre +:+ basename p)).
    by rewrite <- IH.
  - destruct (Ascii.eqb c "/") eqn:Hc.
    + exists (String c ""). reflexivity.
    + by exists "".
Qed.

Lemma append_assoc (a b c : string) : (a +:+ b) +:+ c = a +:+ (b +:+ c).
Proof.
  induction a as [|x a IH]; [reflexivity|].
  change (String x ((a +:+ b) +:+ c) = String x (a +:+ (b +:+ c))). by f_equal.
Qed.

Lemma endswith_path p suffix :
  endswith (basename p) suffix = true -> endswith p suffix = true.
Proof.
  intros H. apply endswith_spec in H as [pre H].
  destruct (basename_suffix p) as [pre' Hp]. apply endswith_spec.
  exists (pre' +:+ pre). rewrite append_assoc, <- H. exact Hp.
Qed.

Section Files.
Variable read_csv : string -> outcome source.
Variable read_excel : string -> outcome source.
Variable to_numeric : dtype * list cell -> dtype * list cell.
Variable repr_float : Q -> string.

Abbreviation load_ts := (load_ts read_csv read_excel).
Abbreviation set_ts := (set_ts read_csv read_excel).

Lemma load_ts_name p name t :
  load_ts p = Done (name, t) ->
  name = basename p
  /\ (endswith name ".csv" = true \/ endswith name ".xlsx" = true).
Proof.
  unfold Align.load_ts. destruct (endswith (basename p) ".csv") eqn:Hcsv.
  - destruct (read_csv p); [|discriminate]. intros [= <- _]. by split; [|left].
  - destruct (endswith p ".xlsx") eqn:Hx; [|discriminate].
    destruct (read_excel p); [|discriminate]. intros [= <- _].
    split; [reflexivity|]. right. by apply endswith_basename.
Qed.

(** X16: [NPMAlign.load_ts] goes by the file name, the part of the path
    after the last separator: a name that ends in [.csv] is read by
    [read_csv], any other name that ends in [.xlsx] by [read_excel] (the
    test the code makes on the whole path is a test on the name), and a
    name with neither ending raises [NotImplementedError].  The name of a
    source that was read is that file name: it has no separator, and it is
    neither [ts_behav] nor [ts_fp]. *)
Theorem load_ts_by_file_name p :
  let name := basename p in
  let named (o : outcome source) :=
    match o with Done t => Done (name, t) | Failed e => Failed e end in
  load_ts p
  = (if endswith name ".csv" then named (read_csv p)
     else if endswith name ".xlsx" then named (read_excel p)
     else Failed (NotImplementedError ("Unable to read " +:+ p)))
  /\ has_sep name = false
  /\ forall name' t, load_ts p = Done (name', t) -> name' = name /\ ~ canonical name'.
Proof.
  intros name named. subst name named. split; [|split].
  - unfold Align.load_ts. destruct (endswith (basename p) ".csv"); [reflexivity|].
    destruct (endswith p ".xlsx") eqn:Hp.
    + by rewrite (endswith_basename p ".xlsx" eq_refl Hp).
    + destruct (endswith (basename p) ".xlsx") eqn:Hn; [|reflexivity].
      apply endswith_path in Hn. congruence.
  - apply basename_no_sep.
  - intros name' t H. destruct (load_ts_name _ _ _ H) as [-> Hend].
    split; [reflexivity|].
    intros [Hc|Hc]; rewrite Hc in Hend; by destruct Hend.
Qed.

Lemma assign_elem {V} (k : string) (v : V) d n x :
  (n, x) ∈ assign k v d <-> (n = k /\ x = v) \/ (n <> k /\ (n, x) ∈ d).
Proof.
  unfold assign. case_bool_decide as Hk.
  - rewrite list_elem_of_fmap. split.
    + intros ([k' v'] & Heq & Hin). simpl in Heq. case_decide; simplify_eq; eauto.
    + intros [[-> ->]|[Hne Hin]].
      * apply list_elem_of_fmap in Hk as ([k' v'] & -> & Hin).
        exists (k', v'). simpl. by rewrite decide_True.
      * exists (n, x). simpl. by rewrite decide_False.
  - rewrite elem_of_app, list_elem_of_singleton. split.
    + intros [Hin|[= -> ->]]; [|by left]. right. split; [|exact Hin].
      intros ->. apply Hk. apply list_elem_of_fmap. by exists (k, x).
    + intros [[-> ->]|[_ Hin]]; [by right|by left].
Qed.

Lemma assign_keys {V} (k : string) (v : V) d :
  (assign k v d).*1 = if bool_decide (k ∈ d.*1) then d.*1 else d.*1 ++ [k].
Proof.
  unfold assign. case_bool_decide.
  - rewrite <- list_fmap_compose. apply list_fmap_ext. intros i [k' v'] _. simpl.
    by case_decide.
  - by rewrite fmap_app.
Qed.

Lemma assign_NoDup {V} (k : string) (v : V) d :
  NoDup d.*1 -> NoDup (assign k v d).*1.
Proof.
  intros H. rewrite assign_keys. case_bool_decide as Hk; [exact H|].
  apply NoDup_app. split; [exact H|]. split; [|apply NoDup_singleton].
  intros n Hn Hn'. apply list_elem_of_singleton in Hn'. by subst.
Qed.

Lemma set_ts_entries paths :
  forall s s',
    set_ts s paths = (s', Done tt) ->
    (NoDup (ts_dict s).*1 -> NoDup (ts_dict s').*1)
    /\ forall n x,
         (n, x) ∈ ts_dict s'
         <-> ((n, x) ∈ ts_dict s /\ n ∉ basename <$> paths)
             \/ exists i p, paths !! i = Some p /\ load_ts p = Done (n, x)
                            /\ n ∉ later_names paths i.
Proof.
  induction paths as [|p paths IH]; intros s s' H.
  - injection H as <-. split; [done|]. intros n x. split.
    + intros Hin. left. split; [exact Hin|]. apply not_elem_of_nil.
    + intros [[Hin _]|(i & p & Hi & _)]; [exact Hin|discriminate].
  - simpl in H. destruct (load_ts p) as [[name t]|e] eqn:Ep; [|discriminate].
    destruct (load_ts_name _ _ _ Ep) as [Hname _].
    destruct (IH _ _ H) as [Hnd Hent]. simpl in Hnd, Hent. split.
    + intros H0. by apply Hnd, assign_NoDup.
    + intros n x. rewrite Hent, assign_elem. split.
      * intros [[[[-> ->]|[Hne Hin]] Hlater]|(i & p' & Hi & Hp' & Hlater)].
        -- right. exists 0%nat, p. done.
        -- left. split; [exact Hin|]. rewrite fmap_cons, not_elem_of_cons.
           split; [congruence|exact Hlater].
        -- right. by exists (S i), p'.
      * intros [[Hin Hnot]|(i & p' & Hi & Hp' & Hlater)].
        -- rewrite fmap_cons, not_elem_of_cons in Hnot. destruct Hnot as [Hne Hnot].
           left. split; [|exact Hnot]. right. split; [congruence|exact Hin].
        -- destruct i as [|i].
           ++ injection Hi as <-. rewrite Ep in Hp'. injection Hp' as <- <-.
              left. split; [by left|exact Hlater].
           ++ right. by exists i, p'.
Qed.

(** X17: after [set_ts] has read a list of paths, the keys of [ts_dict] are
    distinct and each entry is the file of the last path of its name: an
    entry made by the call holds what [load_ts] read at a path of that file
    name after which no path of the list has the same file name, and an
    entry from before the call stays if no path of the list has its name.
    Files of one name in different folders replace one another. *)
Theorem set_ts_last_wins s paths s' :
  set_ts s paths = (s', Done tt) ->
  NoDup (ts_dict s).*1 ->
  NoDup (ts_dict s').*1
  /\ forall n x,
       (n, x) ∈ ts_dict s'
       <-> ((n, x) ∈ ts_dict s /\ n ∉ basename <$> paths)
           \/ exists i p, paths !! i = Some p /\ load_ts p = Done (n, x)
                          /\ n ∉ later_names paths i.
Proof.
  intros H Hnd. destruct (set_ts_entries _ _ _ H) as [H1 H2]. split; [by apply H1|exact H2].
Qed.

(** X18: the sources that [set_ts] reads from paths never collide with the
    keys [align_ts] keeps for the canonical types: no key of [ts_dict] is
    [ts_behav] or [ts_fp], and when [load_ts] recognises every source and
    takes at most one for the behaviour timestamps, the loop of [align_ts]
    over the sources raises nothing. *)
Theorem set_ts_no_collision s paths s' :
  ts_dict s = [] ->
  set_ts s paths = (s', Done tt) ->
  Forall (fun x => ~ canonical x.1) (ts_dict s')
  /\ (Forall (fun x => is_Some (ts_type_of to_numeric repr_float x.2)) (ts_dict s') ->
      (length (filter (fun x => ts_type_of to_numeric repr_float x.2 = Some "ts_behav")
                 (ts_dict s')) <= 1)%nat ->
      exists d, load_all to_numeric repr_float (ts_dict s') [] = Ok d).
Proof.
  intros H0 H. destruct (set_ts_entries _ _ _ H) as [_ Hent].
  assert (Hnames : Forall (fun x => ~ canonical x.1) (ts_dict s')).
  { apply Forall_forall. intros [n x] Hin. simpl.
    apply Hent in Hin as [[Hin _]|(i & p & _ & Hp & _)].
    - rewrite H0 in Hin. inversion Hin.
    - destruct (load_ts_name _ _ _ Hp) as [_ Hend].
      intros [Hc|Hc]; rewrite Hc in Hend; by destruct Hend. }
  split; [exact Hnames|]. intros Hrec Hone.
  apply HarmonizerFacts.load_all_unambiguous; [exact Hnames|exact Hrec|].
  simpl. lia.
Qed.
End Files.

Lemma set_ts_last_wins_witness :
  exists s',
    set_ts two_folders two_folders (init "./figs/process" "./output/process")
      ["day1/keys.csv"; "day2/keys.csv"]
    = (s', Done tt)
    /\ NoDup (ts_dict s').*1
    /\ ("keys.csv",
        {| dtypes := [DObject; DFloat]; cells := [[CStr "go"; CFloat 3]] |})
       ∈ ts_dict s'
    /\ ("keys.csv", keydown_source) ∉ ts_dict s'.
Proof.
  destruct (set_ts two_folders two_folders (init "./figs/process" "./output/process")
              ["day1/keys.csv"; "day2/keys.csv"]) as [s' [[]|e]] eqn:E;
    [|vm_compute in E; discriminate].
  exists s'. split; [reflexivity|].
  destruct (set_ts_last_wins two_folders two_folders _ _ _ E) as [Hnd Hent];
    [apply NoDup_nil_2|].
  split; [exact Hnd|]. split.
  - apply Hent. right. exists 1%nat, "day2/keys.csv". split; [reflexivity|].
    split; [reflexivity|]. vm_compute. apply not_elem_of_nil.
  - intros Hin. apply Hent in Hin as [[Hin _]|(i & p & Hi & Hp & Hlater)].
    + inversion Hin.
    + destruct i as [|[|i]]; [| |discriminate]; injection Hi as <-.
      * apply Hlater. vm_compute. left.
      * vm_compute in Hp. discriminate.
Defined.

Lemma set_ts_no_collision_witness :
  exists s' d,
    set_ts two_folders two_folders (init "./figs/process" "./output/process")
      ["day1/keys.csv"]
    = (s', Done tt)
    /\ load_all no_coercion any_repr (ts_dict s') [] = Ok d.
Proof.
  destruct (set_ts two_folders two_folders (init "./figs/process" "./output/process")
              ["day1/keys.csv"]) as [s' [[]|e]] eqn:E;
    [|vm_compute in E; discriminate].
  destruct (set_ts_no_collision two_folders two_folders no_coercion any_repr
              (init "./figs/process" "./output/process") _ _ eq_refl E) as [_ Hload].
  destruct Hload as [d Hd].
  - vm_compute in E. injection E as <-. repeat constructor. vm_compute. eauto.
  - vm_compute in E. injection E as <-. vm_compute. lia.
  - by exists s', d.
Defined.

(** Uploads keep the name the browser gives them: a keydown log uploaded
    under the name [ts_behav] meets the canonical key. *)
Example on_ts_remote_collision :
  exists s,
    on_ts_remote (with_data (init "./figs/process" "./output/process") master)
      [("ts_behav", Done keydown_source); ("b.csv", Done behav_source)]
    = (s, Done tt)
    /\ align_data no_coercion any_repr s
       = ([], (s, Failed (Exn (ValueError
                                 "Multiple ts_behav supplied but only one expected.")))).
Proof. eexists. split; [reflexivity|]. vm_compute. reflexivity. Qed.
End AlignObjectFacts.

Module PoolingFacts.
Import Pooler Pooling.

Section Plot.
Variable plot_events : list evt_row -> list string -> result unit.

Abbreviation pool_events := (Pooling.pool_events plot_events).
Abbreviation step := (step plot_events).
Abbreviation run := (run plot_events).

Lemma step_roi_absent s c :
  supplies_roi c = false -> param_roi_dict s = Absent ->
  param_roi_dict (step s c).1 = Absent.
Proof.
  intros Hc Hs.
  destruct c as [t|fig out|[r|]|v|[r|]|rois| |]; simpl in *;
    try discriminate; try assumption.
  - destruct (data s); assumption.
  - unfold Pooling.pool_events. by rewrite Hs.
  - unfold export_data. destruct (evtdf s) as [|[?|]]; assumption.
Qed.

Lemma run_roi_absent calls :
  Forall (fun c => supplies_roi c = false) calls ->
  forall s, param_roi_dict s = Absent -> param_roi_dict (run s calls) = Absent.
Proof.
  induction 1 as [|c calls Hc _ IH]; intros s Hs; [exact Hs|].
  unfold Pooling.run in *. simpl. apply IH. by apply step_roi_absent.
Qed.

(** X19: [NPMPooling.__init__] makes no attribute [param_roi_dict]: in
    every session in which no call supplied the regions, [pool_events]
    raises [AttributeError] and leaves the object as it was, whatever the
    data and the event range. *)
Theorem pool_events_without_rois fig out calls :
  Forall (fun c => supplies_roi c = false) calls ->
  let s := run (init fig out) calls in
  pool_events s
  = (s, Raise (AttributeError
                 "'NPMPooling' object has no attribute 'param_roi_dict'")).
Proof.
  intros Hcalls s. subst s. unfold Pooling.pool_events.
  by rewrite (run_roi_absent calls Hcalls (init fig out) eq_refl).
Qed.

Lemma step_evtdf s c :
  evtdf s <> Present None -> evtdf (step s c).1 <> Present None.
Proof.
  intros Hs.
  destruct c as [t|fig out|[r|]|v|[r|]|rois| |]; simpl; try assumption.
  - destruct (data s); assumption.
  - destruct (data s); assumption.
  - unfold Pooling.pool_events. destruct (param_roi_dict s) as [|rd]; [assumption|].
    cbv zeta.
    destruct (match data s with Some _ => _ | None => _ end) as [o|e];
      [|exact Hs].
    destruct (plot_events o rd.*2); simpl; discriminate.
  - unfold export_data. destruct (evtdf s) as [|[?|]] eqn:E; simpl; rewrite ?E;
      try discriminate. congruence.
Qed.

Lemma run_evtdf calls :
  forall s, evtdf s <> Present None -> evtdf (run s calls) <> Present None.
Proof.
  induction calls as [|c calls IH]; intros s Hs; [exact Hs|].
  unfold Pooling.run in *. simpl. apply IH. by apply step_evtdf.
Qed.

(** X20: the guard of [NPMPooling.export_data] never fires.  In every
    session, either no pooled table has been stored, and then [evtdf] is no
    attribute of the object and the call raises [AttributeError] and writes
    nothing, or one has been, and the call writes [events/master.csv] under
    the output path; the assertion error with the text that asks for pooling
    first is never raised. *)
Theorem export_data_guard fig out calls :
  let s := run (init fig out) calls in
  match evtdf s with
  | Absent =>
      export_data s
      = (s, Raise (AttributeError "'NPMPooling' object has no attribute 'evtdf'"))
  | Present _ =>
      export_data s
      = (with_written s
           (Process.path_join (Process.path_join (out_path s) "events") "master.csv"
            :: written s),
         Ok tt)
  end
  /\ forall msg, (export_data s).2 <> Raise (AssertionError msg).
Proof.
  intros s.
  pose proof (run_evtdf calls (init fig out) ltac:(discriminate)) as Hinv.
  fold s in Hinv. unfold export_data.
  destruct (evtdf s) as [|[e|]]; [| |done]; split; try reflexivity;
    intros msg; discriminate.
Qed.
End Plot.

Lemma pool_events_without_rois_witness :
  let s := run drawn (init "./figs/process" "./output/process")
               [set_data recording; set_evt_range None] in
  pool_events drawn s
  = (s, Raise (AttributeError
                 "'NPMPooling' object has no attribute 'param_roi_dict'"))
  /\ param_evt_range s = Some (-500, 500).
Proof.
  split; [|reflexivity].
  apply (pool_events_without_rois drawn "./figs/process" "./output/process"
           [set_data recording; set_evt_range None]).
  repeat constructor.
Defined.
End PoolingFacts.
